(** * TimestampDiff: latency sampling and live statistics

    A shallow embedding of [elements/analysis/timestampdiff.cc] (FastClick):
    the sample store with its next-index counter, the per-packet ingestion
    path ([smaction], [push]), the statistics ([min_mean_max],
    [standard_deviation], [percentile], [last_value_seen]) and the read
    handlers that expose them.

    Conventions.
    - [uint32_t]/[unsigned] values are integers of [Z] in [0, 2^32); a
      conversion to [uint32_t] is written [to_uint32].
    - A [double] is a binary64 value: a finite number, kept as the rational
      it denotes, an infinity or NaN.  Every arithmetic operation rounds its
      exact result to the nearest binary64 number, ties to even, with
      gradual underflow and overflow to infinity.  The sign of a zero is not
      kept: the divisors of the element are 100 and unsigned counts, never a
      negative zero.
    - A read or write outside a vector, and an integer division by zero,
      are undefined in the source; the embedding returns [None] there. *)

From Stdlib Require Import String Ascii DecimalString DecimalN DecimalPos.
From Stdlib Require Import ZArith QArith Qround Qabs Qpower List Bool Lia Lqa.
From Stdlib Require Qcanon.
From Stdlib Require Import Permutation Sorted.
Import ListNotations.

Open Scope Z_scope.

(* ================================================================= *)
(** ** Machine integers *)

Definition UINT_MAX : Z := 4294967295.

Definition to_uint32 (z : Z) : Z := z mod 2 ^ 32.

Definition is_uint32 (z : Z) : Prop := 0 <= z < 2 ^ 32.

(* ================================================================= *)
(** ** Doubles *)

Inductive double : Type :=
| Fin (q : Q)
| PosInf
| NegInf
| NaN.

(** [2^e] for an exponent of either sign. *)
Definition pow2 (e : Z) : Q := (2 ^ e)%Q.

(** The exponent [e] of a number that is not zero: [2^e <= |x| < 2^(e+1)]. *)
Definition ilog2 (x : Q) : Z :=
  let e := Z.log2 (Z.abs (Qnum x)) - Z.log2 (Zpos (Qden x)) in
  if Qle_bool (pow2 e) (Qabs x) then e else e - 1.

(** The integer nearest to [x]; half-way between two integers, the even
    one. *)
Definition nearest_even (x : Q) : Z :=
  let f := Qfloor x in
  match (x - inject_Z f ?= 1 # 2)%Q with
  | Lt => f
  | Gt => f + 1
  | Eq => if Z.even f then f else f + 1
  end.

(** The exponent of the last place of the binary64 numbers around [x]: 53
    significant bits, and no exponent below that of the subnormal numbers. *)
Definition quantum (x : Q) : Z := Z.max (ilog2 x) (-1022) - 52.

(** [x] rounded to a multiple of its quantum, to nearest, ties to even. *)
Definition round64 (x : Q) : Q :=
  let x := Qred x in
  if Qeq_bool x 0 then 0%Q
  else Qred (inject_Z (nearest_even (x * pow2 (- quantum x))) * pow2 (quantum x)).

(** The binary64 result of an operation whose exact result is [x]: the
    rounded value, or an infinity when that is beyond the largest finite
    number. *)
Definition binary64 (x : Q) : double :=
  let y := round64 x in
  if Qle_bool (pow2 1024) (Qabs y)
  then if Qle_bool 0 y then PosInf else NegInf
  else Fin y.

(** [static_cast<double>(u)] for a 32-bit [u], which is exact. *)
Definition of_unsigned (u : Z) : double := Fin (inject_Z u).

Definition dadd (a b : double) : double :=
  match a, b with
  | NaN, _ | _, NaN => NaN
  | Fin x, Fin y => binary64 (x + y)
  | PosInf, NegInf | NegInf, PosInf => NaN
  | PosInf, _ | _, PosInf => PosInf
  | NegInf, _ | _, NegInf => NegInf
  end.

Definition dsub (a b : double) : double :=
  match a, b with
  | NaN, _ | _, NaN => NaN
  | Fin x, Fin y => binary64 (x - y)
  | PosInf, PosInf | NegInf, NegInf => NaN
  | PosInf, _ | _, NegInf => PosInf
  | NegInf, _ | _, PosInf => NegInf
  end.

(** The infinity with the sign of [x], or with the other sign. *)
Definition infinity_like (x : Q) (same : bool) : double :=
  if Bool.eqb (Qle_bool 0 x) same then PosInf else NegInf.

Definition dmul (a b : double) : double :=
  match a, b with
  | NaN, _ | _, NaN => NaN
  | Fin x, Fin y => binary64 (x * y)
  | Fin x, PosInf | PosInf, Fin x =>
      if Qeq_bool x 0 then NaN else infinity_like x true
  | Fin x, NegInf | NegInf, Fin x =>
      if Qeq_bool x 0 then NaN else infinity_like x false
  | PosInf, PosInf | NegInf, NegInf => PosInf
  | PosInf, NegInf | NegInf, PosInf => NegInf
  end.

Definition ddiv (a b : double) : double :=
  match a, b with
  | NaN, _ | _, NaN => NaN
  | Fin x, Fin y =>
      if Qeq_bool y 0 then
        if Qeq_bool x 0 then NaN else infinity_like x true
      else binary64 (x / y)
  | Fin _, _ => Fin 0
  | PosInf, Fin y => infinity_like y true
  | NegInf, Fin y => infinity_like y false
  | _, _ => NaN
  end.

(** [pow(x, 2)]: the square, rounded once. *)
Definition dsquare (a : double) : double := dmul a a.

(** [a / static_cast<double>(n)] for an unsigned [n]. *)
Definition ddiv_unsigned (a : double) (n : Z) : double :=
  ddiv a (of_unsigned n).

(** [a == 0] on doubles. *)
Definition dis_zero (a : double) : bool :=
  match a with
  | Fin x => Qeq_bool x 0
  | _ => false
  end.

(** The value [sqrt(radicand)]: the square root is kept as its argument. *)
Inductive root : Type :=
| Sqrt (radicand : double).

(** Conversion of a double to [size_t]: the fractional part is discarded;
    undefined when what is left is not a [size_t]. *)
Definition to_size_t (a : double) : option Z :=
  match a with
  | Fin q =>
      let t := Z.quot (Qnum q) (Zpos (Qden q)) in
      if (0 <=? t) && (t <? 2 ^ 64) then Some t else None
  | _ => None
  end.

(* ================================================================= *)
(** ** The sample store *)

(** [struct Delay]: [_delays[i].delay] is an [unsigned], [_delays[i].tc] an
    [unsigned char]. *)
Record Delay : Type := mkDelay { delay : Z; tc : Z }.

(** Modelled from the spec: the ordering of [Delay] values used by
    [std::min_element], [std::max_element] and [std::nth_element] is declared
    with the struct in [timestampdiff.hh]; the spec orders samples by their
    delay ("the minimum of the range", "a full ascending sort"). *)
Definition Delay_lt (a b : Delay) : bool := delay a <? delay b.

(** Modelled from the spec: [TimestampT] is a type of the Click library; the
    spec has timestamps subtracted and the difference expressed in micro- or
    nanoseconds.  Here a timestamp is a count of nanoseconds. *)
Definition Timestamp : Type := Z.

(** [Packet]: only the payload bytes are read. *)
Record Packet : Type := mkPacket { data : list Byte.byte }.

(** The fields of the element.  [_rt] is the peer RecordTimestamp element,
    seen through its lookup [get]: [None] stands for
    [TimestampT::uninitialized_t()]. *)
Record TimestampDiff : Type := mkTimestampDiff {
  _delays : list Delay;
  _offset : Z;
  _limit : Z;
  _net_order : bool;
  _max_delay_ms : Z;
  _rt : Z -> option Timestamp;
  _nd : Z;
  _sample : Z;
  _verbose : bool;
  _tc_offset : Z;
  _tc_mask : Z;
  _nano : bool
}.

Definition set_delays (st : TimestampDiff) (v : list Delay) : TimestampDiff :=
  mkTimestampDiff v (_offset st) (_limit st) (_net_order st)
    (_max_delay_ms st) (_rt st) (_nd st) (_sample st) (_verbose st)
    (_tc_offset st) (_tc_mask st) (_nano st).

Definition set_nd (st : TimestampDiff) (n : Z) : TimestampDiff :=
  mkTimestampDiff (_delays st) (_offset st) (_limit st) (_net_order st)
    (_max_delay_ms st) (_rt st) n (_sample st) (_verbose st)
    (_tc_offset st) (_tc_mask st) (_nano st).

(** [v[i]] *)
Definition at_index {A : Type} (v : list A) (i : Z) : option A :=
  if i <? 0 then None else nth_error v (Z.to_nat i).

(** [v[i] = x] *)
Fixpoint update {A : Type} (v : list A) (i : nat) (x : A) : option (list A) :=
  match v, i with
  | [], _ => None
  | _ :: v', O => Some (x :: v')
  | y :: v', S i' => option_map (cons y) (update v' i' x)
  end.

(** The elements between the iterators [v.begin() + b] and
    [v.begin() + e]; undefined when the iterators leave the vector. *)
Definition range {A : Type} (v : list A) (b e : Z) : option (list A) :=
  if (0 <=? b) && (b <=? e) && (e <=? Z.of_nat (length v))
  then Some (firstn (Z.to_nat (e - b)) (skipn (Z.to_nat b) v))
  else None.

(** The samples a reader sees: indices [0, _nd). *)
Definition samples (st : TimestampDiff) : list Delay :=
  firstn (Z.to_nat (_nd st)) (_delays st).

(** The counter is a [uint32_t] and every index below it is backed by
    storage. *)
Definition wf (st : TimestampDiff) : Prop :=
  is_uint32 (_nd st) /\ _nd st <= Z.of_nat (length (_delays st)).

(** [for (uint32_t i = first; i < last; i++) acc = body(i, v[i], acc);]
    unrolled [count = last - first] times. *)
Fixpoint for_each_index {A : Type} (v : list Delay) (count : nat) (i : Z)
    (body : Z -> Delay -> A -> A) (acc : A) : option A :=
  match count with
  | O => Some acc
  | S count' =>
      match at_index v i with
      | None => None
      | Some d => for_each_index v count' (i + 1) body (body i d acc)
      end
  end.

(* ================================================================= *)
(** ** min_mean_max *)

Record Scan : Type := mkScan {
  scan_sum : double; scan_min : Z; scan_max : Z; scan_n : Z
}.

(** One iteration of the scan of [min_mean_max]. *)
Definition scan_step (tc_filter : Z) (d : Delay) (s : Scan) : Scan :=
  if (tc_filter >? -1) && negb (tc d =? tc_filter) then s
  else
    mkScan (dadd (scan_sum s) (of_unsigned (delay d)))
           (if delay d <? scan_min s then delay d else scan_min s)
           (if delay d >? scan_max s then delay d else scan_max s)
           (scan_n s + 1).

(** [min_mean_max(min, mean, max, begin, tc)]: the three references are
    passed in and returned. *)
Definition min_mean_max (st : TimestampDiff) (min : Z) (mean : double)
    (max : Z) (begin : Z) (tc_filter : Z) : option (Z * double * Z) :=
  let current_vector_length := _nd st in
  match for_each_index (_delays st)
          (Z.to_nat (current_vector_length - begin)) begin
          (fun _ d s => scan_step tc_filter d s)
          (mkScan (Fin 0) min max 0) with
  | None => None
  | Some s =>
      let min := if scan_min s =? UINT_MAX then 0 else scan_min s in
      if current_vector_length =? 0 then Some (min, Fin 0, scan_max s)
      else Some (min, ddiv_unsigned (scan_sum s) (scan_n s), scan_max s)
  end.

(* ================================================================= *)
(** ** standard_deviation *)

Definition standard_deviation (st : TimestampDiff) (mean : double)
    (begin : Z) : option root :=
  let current_vector_length := _nd st in
  match for_each_index (_delays st)
          (Z.to_nat (current_vector_length - begin)) begin
          (fun _ d var => dadd var (dsquare (dsub (of_unsigned (delay d)) mean)))
          (Fin 0) with
  | None => None
  | Some var =>
      if dis_zero var then Some (Sqrt (Fin 0))
      else Some (Sqrt (ddiv_unsigned var current_vector_length))
  end.

(* ================================================================= *)
(** ** percentile *)

(** [std::min_element]: the first smallest element of a range. *)
Definition min_element (l : list Delay) : option Delay :=
  match l with
  | [] => None
  | x :: l' =>
      Some (fold_left (fun smallest y => if Delay_lt y smallest then y else smallest) l' x)
  end.

(** [std::max_element]: the first largest element of a range. *)
Definition max_element (l : list Delay) : option Delay :=
  match l with
  | [] => None
  | x :: l' =>
      Some (fold_left (fun largest y => if Delay_lt largest y then y else largest) l' x)
  end.

(** [std::nth_element(first, nth, last)] is given by the C++ standard as a
    contract, not as an algorithm: the range is rearranged, the element at
    [nth] is the one a full sort would put there, and no element after it is
    less than an element before it; in one condition, no element at or after
    [nth] is less than an element at or before [nth].  An implementation is
    any function on the range (with [k = nth - first]) that meets it. *)
Class NthElement : Type := {
  nth_element : list Delay -> nat -> list Delay;
  nth_element_rearranges :
    forall l k, Permutation l (nth_element l k);
  nth_element_partitions :
    forall l k i j x y,
      (i <= k)%nat -> (k <= j)%nat ->
      nth_error (nth_element l k) i = Some x ->
      nth_error (nth_element l k) j = Some y ->
      Delay_lt y x = false
}.

(** The vector with the elements of [b, e) replaced by [r]. *)
Definition splice {A : Type} (v : list A) (b e : Z) (r : list A) : list A :=
  firstn (Z.to_nat b) v ++ r ++ skipn (Z.to_nat e) v.

(** The local [idx] of [percentile]:
    [(percent * (current_vector_length - begin)) / 100 + begin], computed in
    doubles and converted to [size_t]. *)
Definition percentile_idx (percent : Q) (current_vector_length begin : Z)
    : option Z :=
  to_size_t
    (dadd (ddiv_unsigned
             (dmul (Fin percent) (of_unsigned (current_vector_length - begin)))
             100)
          (of_unsigned begin)).

(** [percentile(percent, begin)] returns its result and the element, whose
    vector [std::nth_element] may have reordered. *)
Definition percentile {NE : NthElement} (st : TimestampDiff) (percent : Q)
    (begin : Z) : option (double * TimestampDiff) :=
  let current_vector_length := _nd st in
  if (current_vector_length =? 0) || (begin >=? current_vector_length)
  then Some (Fin 0, st)
  else
    match percentile_idx percent current_vector_length begin with
    | None => None
    | Some idx =>
        match range (_delays st) begin current_vector_length with
        | None => None
        | Some r =>
            if idx <=? begin then
              option_map (fun m => (of_unsigned (delay m), st)) (min_element r)
            else if idx >=? current_vector_length then
              option_map (fun m => (of_unsigned (delay m), st)) (max_element r)
            else
              let v := splice (_delays st) begin current_vector_length
                         (nth_element r (Z.to_nat (idx - begin))) in
              option_map (fun nth => (of_unsigned (delay nth), set_delays st v))
                (at_index v idx)
        end
    end.

(* ================================================================= *)
(** ** last_value_seen *)

Definition to_int32 (z : Z) : Z := (z + 2 ^ 31) mod 2 ^ 32 - 2 ^ 31.

Definition last_value_seen (st : TimestampDiff) : option Z :=
  let last_vector_index := to_int32 (to_uint32 (_nd st - 1)) in
  if last_vector_index <? 0 then Some 0
  else option_map delay (at_index (_delays st) last_vector_index).

(* ================================================================= *)
(** ** The read handlers *)

Inductive Operation : Type :=
| TSD_AVG_HANDLER
| TSD_AVG_TC_HANDLER
| TSD_MIN_HANDLER
| TSD_MAX_HANDLER
| TSD_STD_HANDLER
| TSD_PERC_00_HANDLER
| TSD_PERC_01_HANDLER
| TSD_PERC_05_HANDLER
| TSD_PERC_10_HANDLER
| TSD_PERC_25_HANDLER
| TSD_MED_HANDLER
| TSD_PERC_75_HANDLER
| TSD_PERC_90_HANDLER
| TSD_PERC_95_HANDLER
| TSD_PERC_99_HANDLER
| TSD_PERC_100_HANDLER
| TSD_PERC_HANDLER
| TSD_LAST_SEEN
| TSD_CURRENT_INDEX
| TSD_DUMP_HANDLER
| TSD_DUMP_LIST_HANDLER.

(** Modelled from the spec: Click's [String(unsigned)] and
    [StringAccum::operator<<(size_t)] live in the Click library; the spec has
    them print the number ("<index>: <delay>", bare "<delay>"), here in
    decimal. *)
Definition decimal (n : Z) : string :=
  NilZero.string_of_uint (N.to_uint (Z.to_N n)).

Definition newline : string := String (ascii_of_nat 10) EmptyString.

(** The text of a handler call that is not empty, already split: what
    [DoubleArg] (for [perc]) and [IntArg] (for [avg_tc]) make of the leading
    token, [None] when they reject it, and the [int] that [atoi] reads from
    the rest. *)
Record Param : Type := mkParam {
  param_perc : option Q;
  param_tc : option Z;
  param_begin : Z
}.

(** What a handler leaves in [data]: the [String] of an [unsigned], of an
    [int32_t], of a [double], of the [double] that [standard_deviation]
    returns; a text; and what the assignment [data = 0] leaves. *)
Inductive Reply : Type :=
| ReplyUnsigned (u : Z)
| ReplyInt (i : Z)
| ReplyDouble (d : double)
| ReplyRoot (r : root)
| ReplyText (s : string)
| ReplyZero.

(** One line of [dump] or [dump_list]. *)
Definition dump_line (opt : Operation) (i : Z) (d : Delay) (s : string) : string :=
  match opt with
  | TSD_DUMP_HANDLER => s ++ decimal i ++ ": " ++ decimal (delay d) ++ newline
  | _ => s ++ decimal (delay d) ++ newline
  end.

(** [handler]: [opt] is the operation registered with the handler, [param]
    the parsed text of [data] ([None] when [data] is empty); the result is
    the returned [int], [data] afterwards, and the element. *)
Definition handler {NE : NthElement} (opt : Operation) (param : option Param)
    (tsd : TimestampDiff) : option (Z * Reply * TimestampDiff) :=
  let min := UINT_MAX in
  let mean := Fin 0 in
  let max := 0 in
  let leading :=
    match param, opt with
    | Some p, TSD_PERC_HANDLER => option_map (fun perc => (perc, -1)) (param_perc p)
    | Some p, TSD_AVG_TC_HANDLER => option_map (fun tc => (0%Q, tc)) (param_tc p)
    | _, _ => Some (0%Q, -1)
    end in
  match leading with
  | None => Some (-1, ReplyText "<error>", tsd)
  | Some (perc, tc) =>
      let begin :=
        match param with
        | Some p => to_uint32 (param_begin p)
        | None => 0
        end in
      let stat (pick : Z * double * Z -> Reply) (tc : Z) :=
        option_map (fun r => (0, pick r, tsd))
          (min_mean_max tsd min mean max begin tc) in
      let perc_reply (percent : Q) :=
        option_map (fun r => (0, ReplyDouble (fst r), snd r))
          (percentile tsd percent begin) in
      let out_of_range :=
        match param with
        | Some _ => begin >=? _nd tsd
        | None => false
        end in
      if out_of_range then Some (1, ReplyZero, tsd)
      else
        match opt with
        | TSD_MIN_HANDLER => stat (fun r => ReplyUnsigned (fst (fst r))) (-1)
        | TSD_AVG_HANDLER => stat (fun r => ReplyDouble (snd (fst r))) (-1)
        | TSD_AVG_TC_HANDLER => stat (fun r => ReplyDouble (snd (fst r))) tc
        | TSD_MAX_HANDLER => stat (fun r => ReplyUnsigned (snd r)) (-1)
        | TSD_STD_HANDLER =>
            option_map (fun r => (0, ReplyRoot r, tsd))
              (standard_deviation tsd mean 0)
        | TSD_PERC_00_HANDLER => stat (fun r => ReplyUnsigned (fst (fst r))) (-1)
        | TSD_PERC_01_HANDLER => perc_reply 1%Q
        | TSD_PERC_05_HANDLER => perc_reply 5%Q
        | TSD_PERC_10_HANDLER => perc_reply 10%Q
        | TSD_PERC_25_HANDLER => perc_reply 25%Q
        | TSD_MED_HANDLER => perc_reply 50%Q
        | TSD_PERC_75_HANDLER => perc_reply 75%Q
        | TSD_PERC_90_HANDLER => perc_reply 90%Q
        | TSD_PERC_95_HANDLER => perc_reply 95%Q
        | TSD_PERC_99_HANDLER => perc_reply 99%Q
        | TSD_PERC_100_HANDLER => stat (fun r => ReplyUnsigned (snd r)) (-1)
        | TSD_PERC_HANDLER => perc_reply perc
        | TSD_LAST_SEEN =>
            option_map (fun r => (0, ReplyUnsigned r, tsd)) (last_value_seen tsd)
        | TSD_CURRENT_INDEX =>
            Some (0, ReplyInt (to_int32 (to_uint32 (_nd tsd - 1))), tsd)
        | TSD_DUMP_LIST_HANDLER | TSD_DUMP_HANDLER =>
            option_map (fun s => (0, ReplyText s, tsd))
              (for_each_index (_delays tsd) (Z.to_nat (_nd tsd)) 0
                 (dump_line opt) EmptyString)
        end
  end.

(* ================================================================= *)
(** ** The ingestion path *)

Definition byte_value (b : Byte.byte) : Z := Z.of_N (Byte.to_N b).

(** The number whose big-endian bytes are [bytes]. *)
Definition big_endian (bytes : list Z) : Z :=
  fold_left (fun acc b => acc * 256 + b) bytes 0.

(** Modelled from the spec: [NumberPacket::read_number_of_packet] is declared
    in [numberpacket.hh]; the spec has it extract a 64-bit sequence number
    from the payload at a byte offset, in network byte order or in host byte
    order (little-endian here). *)
Definition read_number_of_packet (p : list Z) (offset : Z) (net_order : bool)
    : option Z :=
  match range p offset (offset + 8) with
  | None => None
  | Some bytes => Some (big_endian (if net_order then bytes else rev bytes))
  end.

(** Modelled from the spec: [atomic_uint32_t::fetch_and_add] is declared in
    the Click library; the spec has the counter hand out the next slot by an
    atomic fetch-and-increment.  It returns the old value and the counter
    after the call. *)
Definition fetch_and_add (counter delta : Z) : Z * Z :=
  (counter, to_uint32 (counter + delta)).

(** Modelled from the spec: [nsecval] and [usecval] of a timestamp
    difference, "expressed in the configured time unit". *)
Definition nsecval (diff : Timestamp) : Z := diff.
Definition usecval (diff : Timestamp) : Z := diff / 1000.

(** A line written by [click_chatter]: the three values of its format. *)
Record Chatter : Type := mkChatter {
  chatter_packet : Z;
  chatter_delay_ms : Z;
  chatter_max_ms : Z
}.

(** The local [usec] of [smaction]. *)
Definition usec_of (st : TimestampDiff) (now old : Timestamp) : Z :=
  let diff := now - old in
  to_uint32 (if _nano st then nsecval diff else usecval diff).

(** [_max_delay_ms * (_nano ? 1000000 : 1000)], an unsigned product. *)
Definition max_delay_of (st : TimestampDiff) : Z :=
  to_uint32 (_max_delay_ms st * (if _nano st then 1000000 else 1000)).

(** The branch of [smaction] that stores a sample. *)
Definition store_sample (st : TimestampDiff) (p : Packet) (usec : Z)
    : option TimestampDiff :=
  let '(next_index, nd) := fetch_and_add (_nd st) 1 in
  let tc :=
    if _tc_offset st >=? 0
    then option_map (fun b => Z.land b (_tc_mask st))
           (at_index (map byte_value (data p)) (_tc_offset st))
    else Some 0 in
  match tc with
  | None => None
  | Some tc =>
      if negb (_limit st =? 0) then
        option_map (fun v => set_delays (set_nd st nd) v)
          (update (_delays st) (Z.to_nat next_index) (mkDelay usec tc))
      else
        Some (set_delays (set_nd st nd) (_delays st ++ [mkDelay usec tc]))
  end.

(** [smaction(p)] at the instant [now]: the output port, the element
    afterwards and the lines written. *)
Definition smaction (st : TimestampDiff) (now : Timestamp) (p : Packet)
    : option (Z * TimestampDiff * list Chatter) :=
  match read_number_of_packet (map byte_value (data p)) (_offset st)
          (_net_order st) with
  | None => None
  | Some i =>
      match _rt st i with
      | None => Some (1, st, [])
      | Some old =>
          let skipped :=
            if negb (_sample st =? 1) then
              if _sample st =? 0 then None
              else Some (negb (to_uint32 i mod _sample st =? 0))
            else Some false in
          match skipped with
          | None => None
          | Some true => Some (0, st, [])
          | Some false =>
              let usec := usec_of st now old in
              if usec >? max_delay_of st then
                if _verbose st then
                  Some (0, st,
                        [mkChatter i
                           (usec / (if _nano st then 1000000 else 1000))
                           (_max_delay_ms st)])
                else Some (0, st, [])
              else
                option_map (fun st' => (0, st', [])) (store_sample st p usec)
          end
      end
  end.

(** [push(port, p)]: the last component is the call
    [checked_output_push(o, p)], the port it names and the packet handed
    to it. *)
Definition push (st : TimestampDiff) (now : Timestamp) (p : Packet)
    : option (TimestampDiff * list Chatter * (Z * Packet)) :=
  option_map (fun r => (snd (fst r), snd r, (fst (fst r), p)))
    (smaction st now p).

(** The port of the element's first output, where measured traffic
    continues. *)
Definition normal_output : Z := 0.

(** The sequence number [i] that [smaction] reads from a packet. *)
Definition sequence_number (st : TimestampDiff) (p : Packet) : option Z :=
  read_number_of_packet (map byte_value (data p)) (_offset st) (_net_order st).

(** The number of configured time units in a millisecond. *)
Definition ticks_per_ms (st : TimestampDiff) : Z :=
  if _nano st then 1000000 else 1000.

(** The accesses of the storing branch stay inside the packet and the
    vector. *)
Definition storable (st : TimestampDiff) (p : Packet) : Prop :=
  is_uint32 (_nd st) /\
  (0 <= _tc_offset st -> _tc_offset st < Z.of_nat (length (data p))) /\
  (_limit st <> 0 -> _nd st < Z.of_nat (length (_delays st))).

(** The indices [0, 1, ..., n - 1]. *)
Definition indices (n : nat) : list Z := map Z.of_nat (seq 0 n).

(* ================================================================= *)
(** ** Concurrent ingestion in Bounded mode *)

(** Several ingestion operations run the storing branch of [smaction]
    against one element.  Each touches the shared state twice, first
    [_nd.fetch_and_add(1)], an atomic step, then the write
    [_delays[next_index] = {usec, tc}]; a scheduler interleaves these steps
    in any order. *)
Module Concurrent.

Inductive Thread : Type :=
| Ready (s : Delay)
| Claimed (next_index : Z) (s : Delay)
| Written (next_index : Z) (s : Delay).

Record Shared : Type := mkShared { counter : Z; storage : list Delay }.

Definition Config : Type := (Shared * list Thread)%type.

Definition step_thread (sh : Shared) (t : Thread) : option (Shared * Thread) :=
  match t with
  | Ready s =>
      let '(next_index, nd) := fetch_and_add (counter sh) 1 in
      Some (mkShared nd (storage sh), Claimed next_index s)
  | Claimed next_index s =>
      option_map (fun v => (mkShared (counter sh) v, Written next_index s))
        (update (storage sh) (Z.to_nat next_index) s)
  | Written _ _ => None
  end.

(** The scheduler lets thread [tid] take its next step. *)
Definition step (c : Config) (tid : nat) : option Config :=
  match nth_error (snd c) tid with
  | None => None
  | Some t =>
      match step_thread (fst c) t with
      | None => None
      | Some (sh, t') => option_map (pair sh) (update (snd c) tid t')
      end
  end.

Fixpoint run (c : Config) (schedule : list nat) : option Config :=
  match schedule with
  | [] => Some c
  | tid :: rest =>
      match step c tid with
      | None => None
      | Some c' => run c' rest
      end
  end.

(** [configure] with [N = limit]: [_delays.resize(_limit, {0,0})], the
    counter at 0, and one pending operation per sample. *)
Definition initial (limit : Z) (work : list Delay) : Config :=
  (mkShared 0 (repeat (mkDelay 0 0) (Z.to_nat limit)), map Ready work).

Definition claimed (t : Thread) : option Z :=
  match t with
  | Ready _ => None
  | Claimed i _ | Written i _ => Some i
  end.

Definition sample_of (t : Thread) : Delay :=
  match t with
  | Ready s | Claimed _ s | Written _ s => s
  end.

Definition is_written (t : Thread) : bool :=
  match t with
  | Written _ _ => true
  | _ => false
  end.

(** The schedule in which the operations run one after the other. *)
Definition sequential (n : nat) : list nat :=
  flat_map (fun tid => [tid; tid]) (seq 0 n).

(** The slot indices handed out so far, in thread order. *)
Definition claimed_indices (ts : list Thread) : list Z :=
  flat_map (fun t => match claimed t with Some i => [i] | None => [] end) ts.

(** A finished write is in the storage. *)
Definition written_ok (v : list Delay) (t : Thread) : Prop :=
  match t with
  | Written i s => at_index v i = Some s
  | _ => True
  end.

(** What every interleaving preserves. *)
Definition invariant (limit : Z) (work : list Delay) (c : Config) : Prop :=
  Z.of_nat (length (storage (fst c))) = limit /\
  0 <= counter (fst c) /\
  Permutation (claimed_indices (snd c)) (indices (Z.to_nat (counter (fst c)))) /\
  map sample_of (snd c) = work /\
  Forall (written_ok (storage (fst c))) (snd c).

End Concurrent.

(* ================================================================= *)
(** ** Reference notions of the specification *)

(** The delays of the range [begin, _nd) of the store. *)
Definition delays_from (st : TimestampDiff) (begin : Z) : list Z :=
  map delay (skipn (Z.to_nat begin) (samples st)).

(** [m] is the minimum of the delays [l]. *)
Definition is_minimum (l : list Z) (m : Z) : Prop :=
  In m l /\ forall x, In x l -> m <= x.

(** [m] is the maximum of the delays [l]. *)
Definition is_maximum (l : list Z) (m : Z) : Prop :=
  In m l /\ forall x, In x l -> x <= m.

(** A full ascending sort of delays, by insertion. *)
Fixpoint insert_sorted (x : Z) (l : list Z) : list Z :=
  match l with
  | [] => [x]
  | y :: l' => if x <=? y then x :: l else y :: insert_sorted x l'
  end.

Definition full_sort (l : list Z) : list Z :=
  fold_right insert_sorted [] l.

(** The same sort on samples, ordered by delay: a conforming
    [std::nth_element]. *)
Fixpoint insert_delay (x : Delay) (l : list Delay) : list Delay :=
  match l with
  | [] => [x]
  | y :: l' => if delay x <=? delay y then x :: l else y :: insert_delay x l'
  end.

Definition sort_delays (l : list Delay) : list Delay :=
  fold_right insert_delay [] l.

(** The index that the specification computes for a percentile. *)
Definition target_index (st : TimestampDiff) (p : Q) (begin : Z) : Z :=
  begin + Qfloor (p * inject_Z (_nd st - begin) / 100).

(** The sum of the delays considered by a class filter, and their count. *)
Definition considered (tc_filter : Z) (l : list Delay) : list Delay :=
  filter (fun d => negb ((tc_filter >? -1) && negb (tc d =? tc_filter))) l.

Definition sum_delays (l : list Delay) : Z :=
  fold_right Z.add 0 (map delay l).

(** The running sum of [min_mean_max] after the delays of [l], from [s]:
    every addition is rounded. *)
Definition double_sum (s : double) (l : list Delay) : double :=
  fold_left (fun acc d => dadd acc (of_unsigned (delay d))) l s.

(** The standard deviation of the specification: the mean comes from a
    [min_mean_max] pass over the same range, as in the sibling handlers. *)
Definition stddev_as_specified (st : TimestampDiff) (begin : Z) : option root :=
  match min_mean_max st UINT_MAX (Fin 0) 0 begin (-1) with
  | None => None
  | Some r => standard_deviation st (snd (fst r)) begin
  end.

(** Every visible delay is an [unsigned]. *)
Definition unsigned_delays (st : TimestampDiff) : Prop :=
  Forall (fun d => 0 <= delay d) (samples st).

(** The text of one line of a dump, without its newline. *)
Definition line_text (opt : Operation) (i : Z) (d : Delay) : string :=
  match opt with
  | TSD_DUMP_HANDLER => decimal i ++ ": " ++ decimal (delay d)
  | _ => decimal (delay d)
  end.

(** No character of a string is [c]. *)
Fixpoint free_of (c : ascii) (s : string) : bool :=
  match s with
  | EmptyString => true
  | String a s' => negb (Ascii.eqb a c) && free_of c s'
  end.

(** The text that the dump loop appends for the indexed samples [l]. *)
Definition text_of (opt : Operation) (l : list (Z * Delay)) : string :=
  fold_right (fun p acc => line_text opt (fst p) (snd p) ++ newline ++ acc)%string
    EmptyString l.

(** Reading a dump back. *)
Fixpoint lines_from (cur s : string) : list string :=
  match s with
  | EmptyString =>
      match cur with
      | EmptyString => []
      | _ => [cur]
      end
  | String c s' =>
      if Ascii.eqb c (ascii_of_nat 10) then cur :: lines_from EmptyString s'
      else lines_from (cur ++ String c EmptyString) s'
  end.

Definition lines (s : string) : list string := lines_from EmptyString s.

Definition parse_decimal (s : string) : option Z :=
  option_map (fun u => Z.of_N (N.of_uint u)) (NilZero.uint_of_string s).

Fixpoint parse_each {A : Type} (f : string -> option A) (l : list string)
    : option (list A) :=
  match l with
  | [] => Some []
  | s :: l' =>
      match f s, parse_each f l' with
      | Some x, Some xs => Some (x :: xs)
      | _, _ => None
      end
  end.

(** One delay per line. *)
Definition parse_dump_list (s : string) : option (list Z) :=
  parse_each parse_decimal (lines s).

Fixpoint split_colon (cur s : string) : option (string * string) :=
  match s with
  | EmptyString => None
  | String c s' =>
      if Ascii.eqb c ":" then Some (cur, s')
      else split_colon (cur ++ String c EmptyString) s'
  end.

(** A line ["<index>: <delay>"]. *)
Definition parse_indexed (line : string) : option (Z * Z) :=
  match split_colon EmptyString line with
  | Some (i, String " " d) =>
      match parse_decimal i, parse_decimal d with
      | Some i, Some d => Some (i, d)
      | _, _ => None
      end
  | _ => None
  end.

Definition parse_dump (s : string) : option (list (Z * Z)) :=
  parse_each parse_indexed (lines s).

(* ================================================================= *)
(** ** Sample elements and packets *)

(** An element with the default configuration over the vector [v] and the
    counter [nd]; its recorder holds no timestamp. *)
Definition element_of (v : list Delay) (nd : Z) : TimestampDiff :=
  mkTimestampDiff v 0 0 false 1000 (fun _ => None) nd 1 false (-1) 255 false.

(** Samples with the given delays and class tag 0. *)
Definition untagged (delays : list Z) : list Delay :=
  map (fun x => mkDelay x 0) delays.

(** A store of five untagged samples. *)
Definition five_samples : TimestampDiff :=
  element_of (untagged [30; 10; 50; 20; 40]) 5.

(** The double nearest to 2.4, which lies below it. *)
Definition double_2_4 : Q := 5404319552844595 # 2251799813685248.

(** A store of the 125 untagged samples 0, 1, ..., 124. *)
Definition ramp_samples : TimestampDiff :=
  element_of (untagged (indices 125)) 125.

(** The eight payload bytes of a sequence number, in host order. *)
Definition number_bytes (n : Z) : list Byte.byte :=
  map (fun k =>
         match Byte.of_N (Z.to_N ((n / 256 ^ k) mod 256)) with
         | Some b => b
         | None => Byte.x00
         end)
      [0; 1; 2; 3; 4; 5; 6; 7].

(** An element in Unbounded mode with an empty store, the default maximum
    delay, and a recorder that holds the timestamp 0 for the sequence
    numbers satisfying [known]. *)
Definition fresh_element (sample : Z) (verbose : bool) (known : Z -> bool)
    : TimestampDiff :=
  mkTimestampDiff [] 0 0 false 1000
    (fun i => if known i then Some 0 else None)
    0 sample verbose (-1) 255 false.

(** The packet whose payload is the sequence number [n]. *)
Definition packet_of (n : Z) : Packet := mkPacket (number_bytes n).

(** A verbose element that samples every packet and knows every timestamp. *)
Definition verbose_element : TimestampDiff :=
  fresh_element 1 true (fun _ => true).

(** An element that measures in nanoseconds, with the default maximum
    delay of 1000 ms, and knows every timestamp. *)
Definition nano_element : TimestampDiff :=
  mkTimestampDiff [] 0 0 false 1000 (fun _ => Some 0) 0 1 false (-1) 255 true.

(** An element whose recorder holds no timestamp. *)
Definition element_without_timestamps : TimestampDiff :=
  fresh_element 1 false (fun _ => false).

(** An element whose recorder holds the timestamp of packet 7 only. *)
Definition element_knowing_7 : TimestampDiff :=
  fresh_element 1 false (fun i => i =? 7).

(** An element with sampling rate 3 that knows every timestamp. *)
Definition element_sampling_3 : TimestampDiff :=
  fresh_element 3 false (fun _ => true).

(** A store of one sample with class tag 0. *)
Definition one_sample : TimestampDiff := element_of [mkDelay 10 0] 1.

(** A store of two untagged samples. *)
Definition two_samples : TimestampDiff := element_of (untagged [10; 30]) 2.

(* ================================================================= *)
(** ** Configuration and start-up *)

(** The peer element named by RECORDER, seen through the two members that
    [TimestampDiff] calls. *)
Record RecordTimestamp : Type := mkRecordTimestamp {
  get : Z -> option Timestamp;
  has_net_order : bool
}.

(** The configuration string after [Args] has parsed it: an argument that
    is absent is [None]; for RECORDER, [None] also stands for an element that
    is not a RecordTimestamp. *)
Record Conf : Type := mkConf {
  conf_RECORDER : option RecordTimestamp;
  conf_OFFSET : option Z;
  conf_N : option Z;
  conf_MAXDELAY : option Z;
  conf_NANO : option bool;
  conf_SAMPLE : option Z;
  conf_VERBOSE : option bool;
  conf_TC_OFFSET : option Z;
  conf_TC_MASK : option Z
}.

(** [.read(NAME, field)] keeps the field when the argument is absent;
    [.read_or_set(NAME, field, value)] sets it to [value]. *)
Definition read {A : Type} (arg : option A) (field : A) : A :=
  match arg with
  | Some v => v
  | None => field
  end.

(** The constructor followed by [configure(conf)]; [None] when [configure]
    returns a negative value.  The constructor leaves [_nano] without a value
    and [.read("NANO", _nano)] keeps whatever it holds: that value is the
    argument [nano]. *)
Definition configure (conf : Conf) (nano : bool) : option TimestampDiff :=
  match conf_RECORDER conf with
  | None => None
  | Some rt =>
      let limit := read (conf_N conf) 0 in
      Some (mkTimestampDiff
              (if negb (limit =? 0) then repeat (mkDelay 0 0) (Z.to_nat limit)
               else [])
              (read (conf_OFFSET conf) 40)
              limit
              (has_net_order rt)
              (read (conf_MAXDELAY conf) 1000)
              (get rt)
              0
              (read (conf_SAMPLE conf) 1)
              (read (conf_VERBOSE conf) false)
              (read (conf_TC_OFFSET conf) (-1))
              (read (conf_TC_MASK conf) 255)
              (read (conf_NANO conf) nano))
  end.

(** [initialize]: [true] when it returns 0, [false] when it reports the
    error; [passing_threads] is [get_passing_threads().weight()]. *)
Definition initialize (st : TimestampDiff) (passing_threads : Z) : bool :=
  negb ((passing_threads >? 1) && (_limit st =? 0)).

(* ================================================================= *)
(** ** A run of the ingestion path *)

(** [push] called for one arrival after the other, as the upstream element
    does: the element afterwards, the lines written, and the calls of
    [checked_output_push] in order. *)
Fixpoint push_each (st : TimestampDiff) (arrivals : list (Timestamp * Packet))
    : option (TimestampDiff * list Chatter * list (Z * Packet)) :=
  match arrivals with
  | [] => Some (st, [], [])
  | (now, p) :: rest =>
      match push st now p with
      | None => None
      | Some (st1, log1, out) =>
          match push_each st1 rest with
          | None => None
          | Some (st2, log2, outs) => Some (st2, log1 ++ log2, out :: outs)
          end
      end
  end.

(** The vector and the counter agree with the mode: in Unbounded mode the
    vector holds exactly the samples, in Bounded mode it has [_limit] slots
    and the counter has not passed them. *)
Definition mode_ok (st : TimestampDiff) : Prop :=
  is_uint32 (_nd st) /\
  if _limit st =? 0
  then Z.of_nat (length (_delays st)) = _nd st
  else Z.of_nat (length (_delays st)) = _limit st /\ _nd st <= _limit st.

(** The configuration of [st'] is that of [st]: only the vector and the
    counter may differ. *)
Definition same_configuration (st st' : TimestampDiff) : Prop :=
  st' = set_delays (set_nd st (_nd st')) (_delays st').

(** The class tag that [smaction] reads for a packet. *)
Definition class_tag (st : TimestampDiff) (p : Packet) : option Z :=
  if _tc_offset st >=? 0
  then option_map (fun b => Z.land b (_tc_mask st))
         (at_index (map byte_value (data p)) (_tc_offset st))
  else Some 0.

(** A sample that the ingestion path of [st] can have stored: its delay is
    within the threshold and its tag within the mask. *)
Definition admissible (st : TimestampDiff) (d : Delay) : Prop :=
  0 <= delay d <= max_delay_of st /\ Z.land (tc d) (_tc_mask st) = tc d.

(** The sum of the squared deviations of the delays [l] from [m]. *)
Definition squared_sum (m : Z) (l : list Delay) : Z :=
  fold_right (fun d acc => (delay d - m) * (delay d - m) + acc) 0 l.


(* ================================================================= *)
(** ** Notions for the properties of the handlers *)

(** The index that [percentile] computes, where it computes one. *)
Definition selected_index (st : TimestampDiff) (p : Q) (begin : Z) : Z :=
  match percentile_idx p (_nd st) begin with
  | Some idx => idx
  | None => begin
  end.

(** The position, in the sorted range, of the delay that [percentile]
    returns: the computed index, kept inside the range. *)
Definition sorted_position (st : TimestampDiff) (p : Q) (begin : Z) : nat :=
  Z.to_nat
    (Z.max 0 (Z.min (selected_index st p begin - begin) (_nd st - begin - 1))).

(** The begin index that [handler] reads from its text. *)
Definition begin_of (param : option Param) : Z :=
  match param with
  | Some p => to_uint32 (param_begin p)
  | None => 0
  end.

(** What each handler answers, with an empty text, on a store that has no
    sample. *)
Definition empty_reply (opt : Operation) : Reply :=
  match opt with
  | TSD_MIN_HANDLER | TSD_MAX_HANDLER
  | TSD_PERC_00_HANDLER | TSD_PERC_100_HANDLER | TSD_LAST_SEEN => ReplyUnsigned 0
  | TSD_AVG_HANDLER | TSD_AVG_TC_HANDLER => ReplyDouble (Fin 0)
  | TSD_STD_HANDLER => ReplyRoot (Sqrt (Fin 0))
  | TSD_CURRENT_INDEX => ReplyInt (-1)
  | TSD_DUMP_HANDLER | TSD_DUMP_LIST_HANDLER => ReplyText EmptyString
  | _ => ReplyDouble (Fin 0)
  end.

(** The leading token of a handler's text is rejected: [perc] wants a
    double there and [avg_tc] an integer. *)
Definition rejected (opt : Operation) (p : Param) : bool :=
  match opt with
  | TSD_PERC_HANDLER =>
      match param_perc p with
      | None => true
      | Some _ => false
      end
  | TSD_AVG_TC_HANDLER =>
      match param_tc p with
      | None => true
      | Some _ => false
      end
  | _ => false
  end.

(** What a read handler may do to the element: keep the counter and every
    field but the vector, keep the size of the vector, and keep the visible
    samples up to their order. *)
Definition read_only (st st' : TimestampDiff) : Prop :=
  st' = set_delays st (_delays st') /\
  length (_delays st') = length (_delays st) /\
  Permutation (samples st) (samples st').

(** An element in Bounded mode with two slots and no sample. *)
Definition bounded_element : TimestampDiff :=
  mkTimestampDiff (repeat (mkDelay 0 0) 2) 0 2 false 1000 (fun _ => Some 0)
    0 1 false (-1) 255 false.

(* ================================================================= *)
(** ** Powers of two *)

Lemma pow2_pos (e : Z) : (0 < pow2 e)%Q.
Proof. unfold pow2. apply Qpower_0_lt. reflexivity. Qed.

Lemma pow2_add (n m : Z) : (pow2 (n + m) == pow2 n * pow2 m)%Q.
Proof. unfold pow2. apply Qpower_plus. discriminate. Qed.

Lemma pow2_Z (e : Z) : 0 <= e -> (pow2 e == inject_Z (2 ^ e))%Q.
Proof. intros H. unfold pow2. rewrite Zpower_Qpower by exact H. reflexivity. Qed.

Lemma pow2_succ (e : Z) : (pow2 (e + 1) == 2 * pow2 e)%Q.
Proof. rewrite pow2_add. change (pow2 1) with 2%Q. ring. Qed.

Lemma pow2_le (n m : Z) : n <= m -> (pow2 n <= pow2 m)%Q.
Proof.
  intros H. replace m with (n + (m - n)) by lia. rewrite pow2_add.
  pose proof (pow2_Z (m - n) ltac:(lia)) as E.
  assert (1 <= 2 ^ (m - n)) by (apply (Z.pow_le_mono_r 2 0); lia).
  assert (1 <= inject_Z (2 ^ (m - n)))%Q by (change 1%Q with (inject_Z 1); rewrite <- Zle_Qle; exact H0).
  pose proof (pow2_pos n). rewrite E. nra.
Qed.

Lemma pow2_lt (n m : Z) : n < m -> (pow2 n < pow2 m)%Q.
Proof.
  intros H. apply Qlt_le_trans with (pow2 (n + 1)).
  - rewrite pow2_succ. pose proof (pow2_pos n). lra.
  - apply pow2_le. lia.
Qed.

Lemma pow2_cancel (e : Z) : (pow2 (- e) * pow2 e == 1)%Q.
Proof. rewrite <- pow2_add. replace (- e + e) with 0 by lia. reflexivity. Qed.

Lemma nearest_even_bounds (x : Q) :
  Qfloor x <= nearest_even x <= Qfloor x + 1.
Proof.
  unfold nearest_even.
  destruct (x - inject_Z (Qfloor x) ?= 1 # 2)%Q; [destruct (Z.even _)| |]; lia.
Qed.

Lemma nearest_even_Z (z : Z) : nearest_even (inject_Z z) = z.
Proof.
  unfold nearest_even. rewrite Qfloor_Z.
  assert (E : (inject_Z z - inject_Z z ?= 1 # 2)%Q = Lt).
  { rewrite <- Qlt_alt. lra. }
  rewrite E. reflexivity.
Qed.

Lemma nearest_even_integer (x : Q) (z : Z) :
  (x == inject_Z z)%Q -> nearest_even x = z.
Proof.
  intros E. unfold nearest_even.
  assert (Ef : Qfloor x = z) by (rewrite E; apply Qfloor_Z).
  rewrite Ef.
  assert (El : (x - inject_Z z ?= 1 # 2)%Q = Lt) by (rewrite <- Qlt_alt; lra).
  rewrite El. reflexivity.
Qed.

Lemma nearest_even_monotone (x y : Q) :
  (x <= y)%Q -> nearest_even x <= nearest_even y.
Proof.
  intros Hxy.
  pose proof (Qfloor_resp_le x y Hxy) as Hf.
  pose proof (nearest_even_bounds x) as Bx.
  pose proof (nearest_even_bounds y) as By.
  destruct (Z.eq_dec (Qfloor x) (Qfloor y)) as [E|N]; [|lia].
  unfold nearest_even in *. rewrite <- E in *.
  destruct (x - inject_Z (Qfloor x) ?= 1 # 2)%Q eqn:Cx;
    destruct (y - inject_Z (Qfloor x) ?= 1 # 2)%Q eqn:Cy;
    try (destruct (Z.even (Qfloor x))); try lia;
    try rewrite <- Qeq_alt in *; try rewrite <- Qlt_alt in *;
    try rewrite <- Qgt_alt in *; lra.
Qed.

Lemma nearest_even_ge (x : Q) (z : Z) :
  (inject_Z z <= x)%Q -> z <= nearest_even x.
Proof.
  intros H. rewrite <- (nearest_even_Z z). now apply nearest_even_monotone.
Qed.

Lemma nearest_even_le (x : Q) (z : Z) :
  (x <= inject_Z z)%Q -> nearest_even x <= z.
Proof.
  intros H. pose proof (nearest_even_monotone _ _ H) as M.
  now rewrite nearest_even_Z in M.
Qed.

Lemma Qabs_num_den (x : Q) :
  (Qabs x * inject_Z (Zpos (Qden x)) == inject_Z (Z.abs (Qnum x)))%Q.
Proof.
  destruct x as [n d]. unfold Qabs, Qeq, Qmult, inject_Z; simpl. lia.
Qed.

Lemma ilog2_spec (x : Q) :
  ~ (x == 0)%Q -> (pow2 (ilog2 x) <= Qabs x < pow2 (ilog2 x + 1))%Q.
Proof.
  intros Hx.
  assert (Ha : 0 < Z.abs (Qnum x)).
  { destruct x as [n d]. unfold Qeq in Hx; simpl in *. lia. }
  set (a := Z.abs (Qnum x)) in *. set (b := Zpos (Qden x)).
  assert (Hb : 0 < b) by (unfold b; lia).
  pose proof (Z.log2_spec a Ha) as La. pose proof (Z.log2_spec b Hb) as Lb.
  pose proof (Z.log2_nonneg a) as Na. pose proof (Z.log2_nonneg b) as Nb.
  pose proof (Qabs_num_den x) as E. fold a b in E.
  pose proof (Qabs_nonneg x) as HX.
  set (X := Qabs x) in *.
  pose proof (pow2_Z (Z.log2 a) Na) as EA. pose proof (pow2_Z (Z.log2 b) Nb) as EB.
  pose proof (pow2_succ (Z.log2 a)) as SA. pose proof (pow2_succ (Z.log2 b)) as SB.
  replace (Z.succ (Z.log2 a)) with (Z.log2 a + 1) in La by lia.
  replace (Z.succ (Z.log2 b)) with (Z.log2 b + 1) in Lb by lia.
  pose proof (pow2_Z (Z.log2 a + 1) ltac:(lia)) as EA1.
  pose proof (pow2_Z (Z.log2 b + 1) ltac:(lia)) as EB1.
  destruct La as [La1 La2]. destruct Lb as [Lb1 Lb2].
  rewrite Zle_Qle in La1, Lb1. rewrite Zlt_Qlt in La2, Lb2.
  rewrite <- EA in La1. rewrite <- EB in Lb1. rewrite <- EA1, SA in La2. rewrite <- EB1, SB in Lb2.
  set (e := Z.log2 a - Z.log2 b).
  assert (Ee : (pow2 e * pow2 (Z.log2 b) == pow2 (Z.log2 a))%Q).
  { rewrite <- pow2_add. unfold e. replace (Z.log2 a - Z.log2 b + Z.log2 b) with (Z.log2 a) by lia. reflexivity. }
  pose proof (pow2_pos e) as Pe. pose proof (pow2_pos (Z.log2 b)) as Pb.
  pose proof (pow2_pos (Z.log2 a)) as Pa.
  unfold ilog2. fold a b e X.
  destruct (Qle_bool (pow2 e) X) eqn:C.
  - apply Qle_bool_iff in C. split; [exact C|].
    rewrite pow2_succ.
    apply Qnot_le_lt. intros Hge.
    assert (2 * pow2 e * pow2 (Z.log2 b) <= X * inject_Z b)%Q.
    { apply Qmult_le_compat_nonneg; split; lra. }
    lra.
  - assert (C' : (X < pow2 e)%Q).
    { apply Qnot_le_lt. intros Hle. apply Qle_bool_iff in Hle. congruence. }
    replace (e - 1 + 1) with e by lia. split; [|exact C'].
    assert (E1 : (pow2 (e - 1) * 2 == pow2 e)%Q).
    { replace e with (e - 1 + 1) at 2 by lia. rewrite pow2_succ. ring. }
    apply Qnot_lt_le. intros Hlt.
    assert (X * inject_Z b <= pow2 (e - 1) * (2 * pow2 (Z.log2 b)))%Q.
    { apply Qmult_le_compat_nonneg; split; lra. }
    assert (pow2 (e - 1) * (2 * pow2 (Z.log2 b)) == pow2 (Z.log2 a))%Q.
    { rewrite <- Ee, <- E1. ring. }
    assert (0 < X)%Q.
    { apply Qnot_le_lt. intros Hneg. assert (Ex0 : (X == 0)%Q) by lra.
      rewrite Ex0 in E. assert (Ea0 : (inject_Z a == 0)%Q) by lra.
      change 0%Q with (inject_Z 0) in Ea0. rewrite inject_Z_injective in Ea0. lia. }
    assert (X * inject_Z b < pow2 (e - 1) * (2 * pow2 (Z.log2 b)))%Q; [|lra].
    pose proof (pow2_pos (e - 1)).
    apply Qle_lt_trans with (X * (2 * pow2 (Z.log2 b)))%Q.
    + apply Qmult_le_l; lra.
    + apply Qmult_lt_r; lra.
Qed.

Lemma round64_eq (x y : Q) : (x == y)%Q -> round64 x = round64 y.
Proof. intros E. unfold round64. now rewrite (Qred_complete x y E). Qed.

Lemma round64_0 (x : Q) : (x == 0)%Q -> round64 x = 0%Q.
Proof. intros E. rewrite (round64_eq x 0 E). reflexivity. Qed.

Lemma round64_unfold (x : Q) :
  ~ (x == 0)%Q ->
  exists x', (x' == x)%Q /\
    (round64 x ==
     inject_Z (nearest_even (x' * pow2 (- quantum x'))) * pow2 (quantum x'))%Q.
Proof.
  intros Hx. exists (Qred x). split; [apply Qred_correct|].
  unfold round64. cbv zeta.
  destruct (Qeq_bool (Qred x) 0) eqn:C.
  - apply Qeq_bool_iff in C. rewrite Qred_correct in C. contradiction.
  - apply Qred_correct.
Qed.

Lemma ilog2_monotone (x y : Q) :
  (0 < x)%Q -> (x <= y)%Q -> ilog2 x <= ilog2 y.
Proof.
  intros Hx Hxy.
  assert (Nx : ~ (x == 0)%Q) by lra. assert (Ny : ~ (y == 0)%Q) by lra.
  pose proof (ilog2_spec x Nx) as [Lx _]. pose proof (ilog2_spec y Ny) as [_ Uy].
  rewrite Qabs_pos in Lx by lra. rewrite Qabs_pos in Uy by lra.
  destruct (Z_lt_le_dec (ilog2 y) (ilog2 x)) as [H|H]; [|exact H].
  pose proof (pow2_le (ilog2 y + 1) (ilog2 x) ltac:(lia)). lra.
Qed.

(** Scaling by the quantum and back. *)
Lemma scale_back (x : Q) (q : Z) : (x * pow2 (- q) * pow2 q == x)%Q.
Proof. rewrite <- Qmult_assoc, pow2_cancel. ring. Qed.

Lemma round64_nonneg (x : Q) : (0 <= x)%Q -> (0 <= round64 x)%Q.
Proof.
  intros Hx. destruct (Qeq_dec x 0) as [E|N].
  - rewrite (round64_0 x E). lra.
  - destruct (round64_unfold x N) as [x' [Ex ->]].
    pose proof (pow2_pos (quantum x')). pose proof (pow2_pos (- quantum x')).
    assert (0 <= nearest_even (x' * pow2 (- quantum x'))).
    { apply nearest_even_ge. change (inject_Z 0) with 0%Q.
      assert (0 <= x')%Q by lra. nra. }
    rewrite Zle_Qle in H1. change (inject_Z 0) with 0%Q in H1. nra.
Qed.

Lemma round64_exact (x : Q) (m j : Z) :
  Z.abs m < 2 ^ 53 -> -1074 <= j ->
  (x == inject_Z m * pow2 j)%Q -> (round64 x == x)%Q.
Proof.
  intros Hm Hj E. destruct (Qeq_dec x 0) as [E0|N].
  - rewrite (round64_0 x E0). lra.
  - destruct (round64_unfold x N) as [x' [Ex ->]].
    assert (N' : ~ (x' == 0)%Q) by (rewrite Ex; exact N).
    pose proof (ilog2_spec x' N') as [L _].
    assert (Hq : quantum x' <= j).
    { unfold quantum.
      assert (ilog2 x' < 53 + j); [|lia].
      destruct (Z_lt_le_dec (ilog2 x') (53 + j)) as [H|H]; [exact H|exfalso].
      pose proof (pow2_le (53 + j) (ilog2 x') H) as P.
      rewrite pow2_add in P.
      assert (A : (Qabs x' == inject_Z (Z.abs m) * pow2 j)%Q).
      { rewrite Ex, E, Qabs_Qmult.
        rewrite (Qabs_pos (pow2 j)) by (pose proof (pow2_pos j); lra).
        destruct m; reflexivity. }
      rewrite A in L. rewrite (pow2_Z 53) in P by lia.
      rewrite Zlt_Qlt in Hm. pose proof (pow2_pos j). nra. }
    set (q := quantum x') in *.
    assert (Es : (x' * pow2 (- q) == inject_Z (m * 2 ^ (j - q)))%Q).
    { rewrite Ex, E, inject_Z_mult, <- (pow2_Z (j - q)) by lia.
      replace (j - q) with (j + - q) by lia. rewrite pow2_add. ring. }
    rewrite (nearest_even_integer _ _ Es), <- Es, <- Ex. apply scale_back.
Qed.

Lemma round64_canonical (x : Q) : Qred (round64 x) = round64 x.
Proof.
  unfold round64. cbv zeta. destruct (Qeq_bool (Qred x) 0); [reflexivity|].
  apply Qcanon.Qred_involutive.
Qed.

Lemma round64_is (x y : Q) : (round64 x == y)%Q -> round64 x = Qred y.
Proof. intros E. rewrite <- round64_canonical. now apply Qred_complete. Qed.

Lemma Qred_inject_Z (z : Z) : Qred (inject_Z z) = inject_Z z.
Proof. apply Qcanon.Qred_identity. simpl. apply Z.gcd_1_r. Qed.

Lemma round64_Z (z : Z) : Z.abs z < 2 ^ 53 -> round64 (inject_Z z) = inject_Z z.
Proof.
  intros H. rewrite <- (Qred_inject_Z z) at 2. apply round64_is.
  apply (round64_exact _ z 0); [exact H|lia|]. change (pow2 0) with 1%Q. ring.
Qed.

Lemma round64_monotone (x y : Q) :
  (0 <= x)%Q -> (x <= y)%Q -> (round64 x <= round64 y)%Q.
Proof.
  intros Hx Hxy. destruct (Qeq_dec x 0) as [E0|N].
  - rewrite (round64_0 x E0). apply round64_nonneg. lra.
  - assert (Ny : ~ (y == 0)%Q) by lra.
    destruct (round64_unfold x N) as [x' [Ex ->]].
    destruct (round64_unfold y Ny) as [y' [Ey ->]].
    assert (Hx' : (0 < x')%Q) by lra. assert (Hxy' : (x' <= y')%Q) by lra.
    clear Ex Ey Hx Hxy N Ny. 
    assert (Nx : ~ (x' == 0)%Q) by lra. assert (Ny : ~ (y' == 0)%Q) by lra.
    pose proof (ilog2_monotone x' y' Hx' Hxy') as He.
    pose proof (ilog2_spec x' Nx) as [Lx Ux]. pose proof (ilog2_spec y' Ny) as [Ly Uy].
    rewrite Qabs_pos in Lx, Ux by lra. rewrite Qabs_pos in Ly, Uy by lra.
    unfold quantum.
    destruct (Z.eq_dec (Z.max (ilog2 x') (-1022)) (Z.max (ilog2 y') (-1022))) as [Eq|Nq].
    + rewrite Eq. set (q := Z.max (ilog2 y') (-1022) - 52).
      pose proof (pow2_pos q). pose proof (pow2_pos (- q)).
      assert (M : nearest_even (x' * pow2 (- q)) <= nearest_even (y' * pow2 (- q))).
      { apply nearest_even_monotone. nra. }
      rewrite Zle_Qle in M. nra.
    + assert (Hlt : ilog2 x' < ilog2 y') by lia.
      assert (Hy : -1022 < ilog2 y') by lia.
      replace (Z.max (ilog2 y') (-1022)) with (ilog2 y') by lia.
      set (ey := ilog2 y') in *. set (qx := Z.max (ilog2 x') (-1022) - 52).
      assert (Hq : qx < ey - 52) by (unfold qx; lia).
      apply Qle_trans with (pow2 ey).
      * assert (B : (x' <= pow2 ey)%Q).
        { pose proof (pow2_le (ilog2 x' + 1) ey ltac:(lia)). lra. }
        assert (S : (x' * pow2 (- qx) <= inject_Z (2 ^ (ey - qx)))%Q).
        { rewrite <- pow2_Z by lia. replace (ey - qx) with (ey + - qx) by lia.
          rewrite pow2_add. pose proof (pow2_pos (- qx)). nra. }
        apply nearest_even_le in S. rewrite Zle_Qle in S.
        rewrite <- (pow2_Z (ey - qx)) in S by lia.
        replace (ey - qx) with (ey + - qx) in S by lia. rewrite pow2_add in S.
        pose proof (pow2_pos qx). pose proof (pow2_cancel qx).
        assert (inject_Z (nearest_even (x' * pow2 (- qx))) * pow2 qx
                <= pow2 ey * pow2 (- qx) * pow2 qx)%Q by nra.
        rewrite <- Qmult_assoc, pow2_cancel in H1. lra.
      * assert (S : (inject_Z (2 ^ 52) <= y' * pow2 (- (ey - 52)))%Q).
        { rewrite <- pow2_Z by lia.
          assert (E52 : (pow2 52 == pow2 ey * pow2 (- (ey - 52)))%Q).
          { rewrite <- pow2_add. replace (ey + - (ey - 52)) with 52 by lia. reflexivity. }
          rewrite E52. pose proof (pow2_pos (- (ey - 52))). nra. }
        apply nearest_even_ge in S. rewrite Zle_Qle in S.
        rewrite <- (pow2_Z 52) in S by lia.
        assert (E52 : (pow2 52 * pow2 (ey - 52) == pow2 ey)%Q).
        { rewrite <- pow2_add. replace (52 + (ey - 52)) with ey by lia. reflexivity. }
        pose proof (pow2_pos (ey - 52)). rewrite <- E52. nra.
Qed.

(* ================================================================= *)
(** ** Results that stay finite *)

Lemma round64_le_exact (x y : Q) :
  (0 <= x)%Q -> (x <= y)%Q -> (round64 y == y)%Q -> (round64 x <= y)%Q.
Proof.
  intros Hx Hxy E. rewrite <- E. now apply round64_monotone.
Qed.

Lemma round64_ge_exact (x y : Q) :
  (0 <= y)%Q -> (y <= x)%Q -> (round64 y == y)%Q -> (y <= round64 x)%Q.
Proof.
  intros Hy Hxy E. rewrite <- E. now apply round64_monotone.
Qed.

Lemma round64_Z_eq (z : Z) : Z.abs z < 2 ^ 53 -> (round64 (inject_Z z) == inject_Z z)%Q.
Proof. intros H. now rewrite round64_Z. Qed.

(** A rounded value below 2^53 is a finite double. *)
Lemma binary64_finite (x : Q) (hi : Z) :
  (0 <= x)%Q -> hi < 2 ^ 53 -> (round64 x <= inject_Z hi)%Q ->
  binary64 x = Fin (round64 x).
Proof.
  intros Hx Hhi Hle. unfold binary64. cbv zeta.
  pose proof (round64_nonneg x Hx) as H0.
  destruct (Qle_bool (pow2 1024) (Qabs (round64 x))) eqn:C; [|reflexivity].
  exfalso. apply Qle_bool_iff in C. rewrite Qabs_pos in C by exact H0.
  pose proof (pow2_lt 53 1024 ltac:(lia)) as P.
  pose proof (pow2_Z 53 ltac:(lia)) as E. rewrite E in P.
  rewrite Zlt_Qlt in Hhi. lra.
Qed.

Lemma binary64_between (x : Q) (lo hi : Z) :
  0 <= lo -> hi < 2 ^ 53 -> (inject_Z lo <= x <= inject_Z hi)%Q ->
  binary64 x = Fin (round64 x) /\
  (inject_Z lo <= round64 x <= inject_Z hi)%Q.
Proof.
  intros Hlo Hhi [H1 H2].
  assert (L0 : (0 <= inject_Z lo)%Q) by (change 0%Q with (inject_Z 0); now rewrite <- Zle_Qle).
  assert (Hlh : lo <= hi) by (rewrite Zle_Qle; lra).
  assert (U : (round64 x <= inject_Z hi)%Q).
  { apply round64_le_exact; [lra|exact H2|apply round64_Z_eq; lia]. }
  split; [apply (binary64_finite x hi); [lra|exact Hhi|exact U]|].
  split; [|exact U].
  apply round64_ge_exact; [exact L0|exact H1|apply round64_Z_eq; lia].
Qed.

Lemma binary64_Z (z : Z) : Z.abs z < 2 ^ 53 -> binary64 (inject_Z z) = Fin (inject_Z z).
Proof.
  intros H. unfold binary64. cbv zeta. rewrite round64_Z by exact H.
  destruct (Qle_bool (pow2 1024) (Qabs (inject_Z z))) eqn:C; [|reflexivity].
  exfalso. apply Qle_bool_iff in C.
  pose proof (pow2_lt 53 1024 ltac:(lia)) as P.
  pose proof (pow2_Z 53 ltac:(lia)) as E. rewrite E in P.
  assert (A : (Qabs (inject_Z z) == inject_Z (Z.abs z))%Q) by (destruct z; reflexivity).
  rewrite A in C. rewrite Zlt_Qlt in H. lra.
Qed.

(** An exact result that is an integer below 2^53 is returned as it is. *)
Lemma binary64_integer (x : Q) (z : Z) :
  Z.abs z < 2 ^ 53 -> (x == inject_Z z)%Q -> binary64 x = Fin (inject_Z z).
Proof.
  intros H E. unfold binary64. rewrite (round64_eq x (inject_Z z) E).
  exact (binary64_Z z H).
Qed.

(* ================================================================= *)
(** ** The index of a percentile *)

Lemma Qfloor_between (x : Q) (lo hi : Z) :
  (inject_Z lo <= x)%Q -> (x < inject_Z hi + 1)%Q -> lo <= Qfloor x <= hi.
Proof.
  intros H1 H2. split.
  - apply Qfloor_resp_le in H1. now rewrite Qfloor_Z in H1.
  - pose proof (Qfloor_le x) as F.
    assert (L : (inject_Z (Qfloor x) < inject_Z (hi + 1))%Q).
    { rewrite inject_Z_plus. change (inject_Z 1) with 1%Q. lra. }
    rewrite <- Zlt_Qlt in L. lia.
Qed.

Lemma to_size_t_floor (q : Q) :
  (0 <= q)%Q -> Qfloor q < 2 ^ 64 -> to_size_t (Fin q) = Some (Qfloor q).
Proof.
  destruct q as [n d]. unfold Qle, to_size_t, Qfloor; cbn [Qnum Qden].
  intros H Hlt. rewrite Z.quot_div_nonneg by lia.
  assert (0 <= n / Z.pos d) by (apply Z.div_pos; lia).
  destruct (Z.leb_spec 0 (n / Z.pos d)); [|lia].
  destruct (Z.ltb_spec (n / Z.pos d) (2 ^ 64)); [reflexivity|lia].
Qed.

Section Index.

Variables (p : Q) (len begin : Z).
Hypothesis Hp : (0 <= p <= 100)%Q.
Hypothesis Hb : 0 <= begin < len.
Hypothesis Hlen : len < 2 ^ 32.

Let n := len - begin.
Let a := round64 (p * inject_Z n).
Let b := round64 (a / inject_Z 100).
Let c := round64 (b + inject_Z begin).

Lemma idx_range_positive : (0 < inject_Z n)%Q.
Proof. change 0%Q with (inject_Z 0). rewrite <- Zlt_Qlt. unfold n. lia. Qed.

Lemma idx_product :
  dmul (Fin p) (of_unsigned n) = Fin a /\ (0 <= a <= inject_Z (100 * n))%Q.
Proof.
  pose proof idx_range_positive as Hn.
  assert (H : (inject_Z 0 <= p * inject_Z n <= inject_Z (100 * n))%Q).
  { rewrite inject_Z_mult. change (inject_Z 0) with 0%Q.
    change (inject_Z 100) with 100%Q. split; nra. }
  destruct (binary64_between _ 0 (100 * n) ltac:(lia) ltac:(unfold n; lia) H)
    as [E B].
  split; [exact E|exact B].
Qed.

Lemma idx_quotient :
  ddiv_unsigned (Fin a) 100 = Fin b /\ (0 <= b <= inject_Z n)%Q.
Proof.
  destruct idx_product as [_ [A0 A1]].
  assert (H : (inject_Z 0 <= a / inject_Z 100 <= inject_Z n)%Q).
  { rewrite inject_Z_mult in A1. change (inject_Z 0) with 0%Q.
    change (inject_Z 100) with 100%Q in *.
    split.
    - apply Qle_shift_div_l; lra.
    - apply Qle_shift_div_r; lra. }
  destruct (binary64_between _ 0 n ltac:(lia) ltac:(unfold n; lia) H) as [E B].
  split; [exact E|exact B].
Qed.

Lemma idx_sum :
  dadd (Fin b) (of_unsigned begin) = Fin c /\
  (inject_Z begin <= c <= inject_Z len)%Q.
Proof.
  destruct idx_quotient as [_ [B0 B1]].
  assert (H : (inject_Z begin <= b + inject_Z begin <= inject_Z len)%Q).
  { unfold n in B1. unfold Zminus in B1. rewrite inject_Z_plus, inject_Z_opp in B1.
    split; lra. }
  destruct (binary64_between _ begin len ltac:(lia) ltac:(lia) H) as [E B].
  split; [exact E|exact B].
Qed.

(** The index is the integer part of three rounded operations. *)
Lemma percentile_idx_floor :
  percentile_idx p len begin = Some (Qfloor c) /\ begin <= Qfloor c <= len.
Proof.
  destruct idx_product as [Ea _]. destruct idx_quotient as [Eb _].
  destruct idx_sum as [Ec [C0 C1]].
  assert (F : begin <= Qfloor c <= len).
  { apply Qfloor_between; [exact C0|]. lra. }
  split; [|exact F].
  unfold percentile_idx. fold n. rewrite Ea, Eb, Ec.
  apply to_size_t_floor; [|lia].
  assert (0 <= inject_Z begin)%Q
    by (change 0%Q with (inject_Z 0); rewrite <- Zle_Qle; lia).
  lra.
Qed.

(** The index is not below the one of exact arithmetic. *)
Lemma idx_at_least (k : Z) :
  0 <= k -> (inject_Z k <= p * inject_Z n / 100)%Q -> begin + k <= Qfloor c.
Proof.
  intros Hk H.
  pose proof idx_range_positive as Hn.
  destruct idx_product as [_ [_ A1]]. destruct idx_quotient as [_ [_ B1]].
  assert (Kn : k <= n).
  { rewrite Zle_Qle. apply Qle_trans with (1 := H).
    apply Qle_shift_div_r; [reflexivity|]. nra. }
  assert (Ha : (inject_Z (100 * k) <= a)%Q).
  { apply round64_ge_exact.
    - change 0%Q with (inject_Z 0). rewrite <- Zle_Qle. lia.
    - rewrite inject_Z_mult. change (inject_Z 100) with 100%Q.
      apply (Qmult_le_r _ _ 100) in H; [|reflexivity].
      assert (E : (p * inject_Z n / 100 * 100 == p * inject_Z n)%Q) by field.
      rewrite E in H. lra.
    - apply round64_Z_eq. unfold n in Kn. lia. }
  assert (Hb' : (inject_Z k <= b)%Q).
  { apply round64_ge_exact.
    - change 0%Q with (inject_Z 0). rewrite <- Zle_Qle. lia.
    - apply Qle_shift_div_l; [reflexivity|].
      rewrite inject_Z_mult in Ha. change (inject_Z 100) with 100%Q in *. lra.
    - apply round64_Z_eq. unfold n in Kn. lia. }
  assert (Hc : (inject_Z (begin + k) <= c)%Q).
  { apply round64_ge_exact.
    - change 0%Q with (inject_Z 0). rewrite <- Zle_Qle. lia.
    - rewrite inject_Z_plus. lra.
    - apply round64_Z_eq. unfold n in Kn. lia. }
  apply Qfloor_resp_le in Hc. now rewrite Qfloor_Z in Hc.
Qed.

(** When the product is a whole number the index is the one of exact
    arithmetic. *)
Lemma idx_exact (w : Z) :
  (p * inject_Z n == inject_Z w)%Q -> Qfloor c = begin + w / 100.
Proof.
  intros E.
  pose proof idx_range_positive as Hn.
  assert (W0 : 0 <= w).
  { rewrite Zle_Qle. rewrite <- E. change (inject_Z 0) with 0%Q. nra. }
  assert (W1 : w <= 100 * n).
  { rewrite Zle_Qle. rewrite <- E, inject_Z_mult.
    change (inject_Z 100) with 100%Q. nra. }
  set (k := w / 100).
  pose proof (Z.div_mod w 100 ltac:(lia)) as D.
  pose proof (Z.mod_pos_bound w 100 ltac:(lia)) as M. fold k in D.
  assert (K0 : 0 <= k) by (unfold k; apply Z.div_pos; lia).
  assert (Kn : k <= n) by lia.
  assert (Lower : begin + k <= Qfloor c).
  { apply idx_at_least; [exact K0|]. rewrite E.
    apply Qle_shift_div_l; [reflexivity|].
    change 100%Q with (inject_Z 100). rewrite <- inject_Z_mult, <- Zle_Qle. lia. }
  assert (Ea : a = inject_Z w).
  { unfold a. rewrite (round64_eq _ _ E). apply round64_Z. unfold n in W1. lia. }
  set (u := (inject_Z (256 * k + 255) * pow2 (-8))%Q).
  assert (Eu : (u == inject_Z k + (255 # 256))%Q).
  { unfold u. rewrite inject_Z_plus, inject_Z_mult.
    change (pow2 (-8)) with (1 # 256)%Q. change (inject_Z 256) with 256%Q.
    change (inject_Z 255) with 255%Q. field. }
  assert (Ru : (round64 u == u)%Q).
  { apply (round64_exact u (256 * k + 255) (-8)); [unfold n in Kn; lia|lia|reflexivity]. }
  assert (Hb' : (b <= u)%Q).
  { unfold b. apply round64_le_exact; [| |exact Ru].
    - rewrite Ea. apply Qle_shift_div_l; [reflexivity|].
      rewrite Qmult_0_l. change 0%Q with (inject_Z 0). now rewrite <- Zle_Qle.
    - rewrite Ea, Eu. apply Qle_shift_div_r; [reflexivity|].
      assert (Hw : (inject_Z w <= inject_Z (100 * k + 99))%Q)
        by (rewrite <- Zle_Qle; lia).
      rewrite inject_Z_plus, inject_Z_mult in Hw.
      change (inject_Z 100) with 100%Q in *. change (inject_Z 99) with 99%Q in Hw.
      lra. }
  set (v := (inject_Z (256 * (begin + k) + 255) * pow2 (-8))%Q).
  assert (Ev : (v == inject_Z (begin + k) + (255 # 256))%Q).
  { unfold v. rewrite !inject_Z_plus, !inject_Z_mult, !inject_Z_plus.
    change (pow2 (-8)) with (1 # 256)%Q. change (inject_Z 256) with 256%Q.
    change (inject_Z 255) with 255%Q. field. }
  assert (Rv : (round64 v == v)%Q).
  { apply (round64_exact v (256 * (begin + k) + 255) (-8));
      [unfold n in Kn; lia|lia|reflexivity]. }
  assert (Hc : (c <= v)%Q).
  { destruct idx_quotient as [_ [B0 _]].
    unfold c. apply round64_le_exact; [| |exact Rv].
    - assert (0 <= inject_Z begin)%Q
        by (change 0%Q with (inject_Z 0); rewrite <- Zle_Qle; lia).
      fold b. lra.
    - fold b. rewrite Ev, inject_Z_plus. lra. }
  assert (Upper : Qfloor c <= begin + k).
  { destruct idx_sum as [_ [C0 _]].
    apply (Qfloor_between c begin (begin + k)); [exact C0|].
    rewrite Ev in Hc. lra. }
  lia.
Qed.

End Index.

(** The index of a percentile in [0, 100] over a range that is not empty. *)
Lemma percentile_idx_defined (p : Q) (len begin : Z) :
  (0 <= p <= 100)%Q -> 0 <= begin < len -> len < 2 ^ 32 ->
  exists idx, percentile_idx p len begin = Some idx /\ begin <= idx <= len.
Proof.
  intros Hp Hb Hlen.
  destruct (percentile_idx_floor p len begin Hp Hb Hlen) as [E B].
  eexists. split; [exact E|exact B].
Qed.

(** Exact arithmetic never gives a larger index. *)
Lemma percentile_idx_lower (p : Q) (len begin idx : Z) :
  (0 <= p <= 100)%Q -> 0 <= begin < len -> len < 2 ^ 32 ->
  percentile_idx p len begin = Some idx ->
  begin + Qfloor (p * inject_Z (len - begin) / 100) <= idx.
Proof.
  intros Hp Hb Hlen E.
  destruct (percentile_idx_floor p len begin Hp Hb Hlen) as [E' _].
  rewrite E' in E. inversion E; subst idx.
  apply idx_at_least; try assumption.
  - pose proof (idx_range_positive len begin Hb) as Hn.
    assert (H : (0 <= p * inject_Z (len - begin) / 100)%Q).
    { apply Qle_shift_div_l; [reflexivity|]. nra. }
    apply Qfloor_resp_le in H. exact H.
  - apply Qfloor_le.
Qed.

(** For a whole-number percentile the index is the one of exact
    arithmetic. *)
Lemma percentile_idx_whole (p : Q) (w len begin : Z) :
  (0 <= p <= 100)%Q -> 0 <= begin < len -> len < 2 ^ 32 ->
  (p == inject_Z w)%Q ->
  percentile_idx p len begin =
  Some (begin + Qfloor (p * inject_Z (len - begin) / 100)).
Proof.
  intros Hp Hb Hlen E.
  destruct (percentile_idx_floor p len begin Hp Hb Hlen) as [E' _].
  rewrite E'. f_equal.
  assert (Ew : (p * inject_Z (len - begin) == inject_Z (w * (len - begin)))%Q).
  { rewrite E, inject_Z_mult. reflexivity. }
  rewrite (idx_exact p len begin Hp Hb Hlen _ Ew). f_equal.
  rewrite Ew. change 100%Q with (inject_Z 100). now rewrite <- Zdiv_Qdiv.
Qed.

Lemma percentile_idx_0 (len begin : Z) :
  0 <= begin < len -> len < 2 ^ 32 -> percentile_idx 0 len begin = Some begin.
Proof.
  intros Hb Hlen.
  rewrite (percentile_idx_whole 0 0 len begin ltac:(lra) Hb Hlen ltac:(reflexivity)).
  f_equal.
  assert (E : (0 * inject_Z (len - begin) / 100 == 0)%Q) by field.
  rewrite E. change (Qfloor 0) with 0. lia.
Qed.

Lemma percentile_idx_100 (len begin : Z) :
  0 <= begin < len -> len < 2 ^ 32 -> percentile_idx 100 len begin = Some len.
Proof.
  intros Hb Hlen.
  rewrite (percentile_idx_whole 100 100 len begin ltac:(lra) Hb Hlen ltac:(reflexivity)).
  f_equal.
  assert (E : (100 * inject_Z (len - begin) / 100 == inject_Z (len - begin))%Q)
    by field.
  rewrite E, Qfloor_Z. lia.
Qed.

(** A larger percentile never gives a smaller index. *)
Lemma percentile_idx_monotone (p q : Q) (len begin i j : Z) :
  (0 <= p)%Q -> (p <= q)%Q -> (q <= 100)%Q -> 0 <= begin < len -> len < 2 ^ 32 ->
  percentile_idx p len begin = Some i -> percentile_idx q len begin = Some j ->
  i <= j.
Proof.
  intros Hp Hpq Hq Hb Hlen Ei Ej.
  assert (Hp' : (0 <= p <= 100)%Q) by lra. assert (Hq' : (0 <= q <= 100)%Q) by lra.
  destruct (percentile_idx_floor p len begin Hp' Hb Hlen) as [Ei' _].
  destruct (percentile_idx_floor q len begin Hq' Hb Hlen) as [Ej' _].
  rewrite Ei' in Ei. rewrite Ej' in Ej. inversion Ei; inversion Ej; subst.
  pose proof (idx_range_positive len begin Hb) as Hn.
  destruct (idx_product p len begin Hp' Hb Hlen) as [_ [A0 _]].
  destruct (idx_quotient p len begin Hp' Hb Hlen) as [_ [B0 _]].
  apply Qfloor_resp_le.
  assert (0 <= inject_Z begin)%Q
    by (change 0%Q with (inject_Z 0); rewrite <- Zle_Qle; lia).
  apply round64_monotone; [lra|].
  apply Qplus_le_l.
  apply round64_monotone; [apply Qle_shift_div_l; [reflexivity|lra]|].
  apply Qmult_le_compat_r; [|apply Qlt_le_weak, Qinv_lt_0_compat; reflexivity].
  apply round64_monotone; nra.
Qed.

(* ================================================================= *)
(** ** Lists, indices and loops *)

Lemma nth_error_skipn_cons {A : Type} (v : list A) (n : nat) (x : A) :
  nth_error v n = Some x -> skipn n v = x :: skipn (S n) v.
Proof.
  revert v; induction n as [|n IH]; intros [|y v] H; simpl in *; try discriminate.
  - now inversion H.
  - now apply IH.
Qed.

Lemma at_index_Some {A : Type} (v : list A) (i : Z) :
  0 <= i < Z.of_nat (length v) -> exists x, at_index v i = Some x.
Proof.
  intros Hi. unfold at_index.
  destruct (Z.ltb_spec i 0); [lia|].
  destruct (nth_error v (Z.to_nat i)) eqn:E; [eauto|].
  apply nth_error_None in E. lia.
Qed.

Lemma at_index_nth_error {A : Type} (v : list A) (i : Z) :
  0 <= i -> at_index v i = nth_error v (Z.to_nat i).
Proof.
  intros Hi. unfold at_index. now destruct (Z.ltb_spec i 0); [lia|].
Qed.

(** A loop over indices backed by storage is a fold over the elements it
    visits, each paired with its index. *)
Lemma for_each_index_fold {A : Type} (v : list Delay) (body : Z -> Delay -> A -> A) :
  forall (count : nat) (i : Z) (acc : A),
    0 <= i -> i + Z.of_nat count <= Z.of_nat (length v) ->
    for_each_index v count i body acc =
    Some (fold_left (fun a p => body (fst p) (snd p) a)
            (combine (map (fun k => i + Z.of_nat k) (seq 0 count))
                     (firstn count (skipn (Z.to_nat i) v)))
            acc).
Proof.
  induction count as [|count IH]; intros i acc Hi Hlen; [reflexivity|].
  cbn [for_each_index].
  destruct (at_index_Some v i) as [d Hd]; [lia|]. rewrite Hd.
  rewrite at_index_nth_error in Hd by lia.
  rewrite (nth_error_skipn_cons _ _ _ Hd).
  rewrite IH by lia.
  cbn [seq map firstn combine fold_left fst snd].
  rewrite <- seq_shift, map_map.
  replace (i + Z.of_nat 0) with i by lia.
  replace (Z.to_nat (i + 1)) with (S (Z.to_nat i)) by lia.
  do 3 f_equal. apply map_ext. intros k. lia.
Qed.

(** When the body does not look at the index, the loop folds over the
    range. *)
Lemma for_each_index_elements {A : Type} (v : list Delay) (f : Delay -> A -> A) :
  forall (count : nat) (i : Z) (acc : A),
    0 <= i -> i + Z.of_nat count <= Z.of_nat (length v) ->
    for_each_index v count i (fun _ d a => f d a) acc =
    Some (fold_left (fun a d => f d a) (firstn count (skipn (Z.to_nat i) v)) acc).
Proof.
  induction count as [|count IH]; intros i acc Hi Hlen; [reflexivity|].
  cbn [for_each_index].
  destruct (at_index_Some v i) as [d Hd]; [lia|]. rewrite Hd.
  rewrite at_index_nth_error in Hd by lia.
  rewrite (nth_error_skipn_cons _ _ _ Hd).
  rewrite IH by lia.
  replace (Z.to_nat (i + 1)) with (S (Z.to_nat i)) by lia.
  reflexivity.
Qed.

(** Under [wf] the range [begin, _nd) of the vector is the tail of the
    visible samples. *)
Lemma firstn_skipn_samples (st : TimestampDiff) (begin : Z) :
  0 <= begin ->
  firstn (Z.to_nat (_nd st - begin)) (skipn (Z.to_nat begin) (_delays st)) =
  skipn (Z.to_nat begin) (samples st).
Proof.
  intros Hb. unfold samples. rewrite skipn_firstn_comm. f_equal. lia.
Qed.

Lemma range_samples (st : TimestampDiff) (begin : Z) :
  wf st -> 0 <= begin <= _nd st ->
  range (_delays st) begin (_nd st) = Some (skipn (Z.to_nat begin) (samples st)).
Proof.
  intros [_ Hlen] Hb. unfold range.
  destruct (Z.leb_spec 0 begin); [|lia].
  destruct (Z.leb_spec begin (_nd st)); [|lia].
  destruct (Z.leb_spec (_nd st) (Z.of_nat (length (_delays st)))); [|lia].
  simpl. now rewrite firstn_skipn_samples.
Qed.

Lemma length_samples (st : TimestampDiff) :
  wf st -> Z.of_nat (length (samples st)) = _nd st.
Proof.
  intros [[H0 _] Hlen]. unfold samples. rewrite length_firstn. lia.
Qed.

(* ================================================================= *)
(** ** Minimum and maximum of a range *)

Lemma min_element_fold (l : list Delay) :
  forall x,
    let m := fold_left (fun smallest y => if Delay_lt y smallest then y else smallest) l x in
    In m (x :: l) /\ forall y, In y (x :: l) -> delay m <= delay y.
Proof.
  induction l as [|a l IH]; intros x; cbn [fold_left].
  - split; [now left|]. intros y [<-|[]]. lia.
  - specialize (IH (if Delay_lt a x then a else x)). cbv zeta in IH.
    destruct IH as [Hin Hle]. split.
    + destruct Hin as [Hin|Hin]; [|now right; right].
      rewrite <- Hin. destruct (Delay_lt a x); [right; now left|now left].
    + intros y Hy.
      assert (Hax : delay (if Delay_lt a x then a else x) <= delay a /\
                    delay (if Delay_lt a x then a else x) <= delay x).
      { unfold Delay_lt. destruct (Z.ltb_spec (delay a) (delay x)); lia. }
      pose proof (Hle _ (or_introl eq_refl)) as H0.
      destruct Hy as [<-|[<-|Hy]]; [lia|lia|].
      apply Hle. now right.
Qed.

Lemma max_element_fold (l : list Delay) :
  forall x,
    let m := fold_left (fun largest y => if Delay_lt largest y then y else largest) l x in
    In m (x :: l) /\ forall y, In y (x :: l) -> delay y <= delay m.
Proof.
  induction l as [|a l IH]; intros x; cbn [fold_left].
  - split; [now left|]. intros y [<-|[]]. lia.
  - specialize (IH (if Delay_lt x a then a else x)). cbv zeta in IH.
    destruct IH as [Hin Hle]. split.
    + destruct Hin as [Hin|Hin]; [|now right; right].
      rewrite <- Hin. destruct (Delay_lt x a); [right; now left|now left].
    + intros y Hy.
      assert (Hax : delay a <= delay (if Delay_lt x a then a else x) /\
                    delay x <= delay (if Delay_lt x a then a else x)).
      { unfold Delay_lt. destruct (Z.ltb_spec (delay x) (delay a)); lia. }
      pose proof (Hle _ (or_introl eq_refl)) as H0.
      destruct Hy as [<-|[<-|Hy]]; [lia|lia|].
      apply Hle. now right.
Qed.

Lemma min_element_minimum (l : list Delay) :
  l <> [] ->
  exists m, min_element l = Some m /\ is_minimum (map delay l) (delay m).
Proof.
  destruct l as [|x l]; [congruence|]. intros _.
  eexists; split; [reflexivity|].
  destruct (min_element_fold l x) as [Hin Hle]. split.
  - now apply in_map.
  - intros z Hz. apply in_map_iff in Hz as [y [<- Hy]]. now apply Hle.
Qed.

Lemma max_element_maximum (l : list Delay) :
  l <> [] ->
  exists m, max_element l = Some m /\ is_maximum (map delay l) (delay m).
Proof.
  destruct l as [|x l]; [congruence|]. intros _.
  eexists; split; [reflexivity|].
  destruct (max_element_fold l x) as [Hin Hle]. split.
  - now apply in_map.
  - intros z Hz. apply in_map_iff in Hz as [y [<- Hy]]. now apply Hle.
Qed.

(* ================================================================= *)
(** ** Sorting and selection *)

Section Counting.

Variable f : Z -> bool.

Lemma count_permutation (l l' : list Z) :
  Permutation l l' -> length (filter f l) = length (filter f l').
Proof.
  induction 1 as [|x l l' _ IH|x y l|l l' l'' _ IH1 _ IH2]; simpl.
  - reflexivity.
  - destruct (f x); simpl; congruence.
  - destruct (f x), (f y); reflexivity.
  - congruence.
Qed.

Lemma filter_none (l : list Z) :
  Forall (fun y => f y = false) l -> filter f l = [].
Proof.
  induction 1 as [|y l Hy _ IH]; simpl; [reflexivity|]. now rewrite Hy.
Qed.

Lemma filter_all (l : list Z) :
  Forall (fun y => f y = true) l -> filter f l = l.
Proof.
  induction 1 as [|y l Hy _ IH]; simpl; [reflexivity|]. rewrite Hy. congruence.
Qed.

(** If nothing from position [k] on passes the test, at most [k]
    elements pass it. *)
Lemma count_at_most (l : list Z) (k : nat) :
  Forall (fun y => f y = false) (skipn k l) ->
  (length (filter f l) <= k)%nat.
Proof.
  intros H. rewrite <- (firstn_skipn k l), filter_app, length_app.
  rewrite (filter_none _ H). simpl.
  pose proof (filter_length_le f (firstn k l)) as H1.
  pose proof (firstn_le_length k l) as H2. lia.
Qed.

(** If everything up to position [k] passes the test, at least [k + 1]
    elements pass it. *)
Lemma count_at_least (l : list Z) (k : nat) :
  (k < length l)%nat ->
  Forall (fun y => f y = true) (firstn (S k) l) ->
  (S k <= length (filter f l))%nat.
Proof.
  intros Hk H. rewrite <- (firstn_skipn (S k) l), filter_app, length_app.
  rewrite (filter_all _ H), length_firstn. lia.
Qed.

End Counting.

Lemma Forall_firstn_nth {A : Type} (P : A -> Prop) (l : list A) (n : nat) :
  (forall i x, (i < n)%nat -> nth_error l i = Some x -> P x) ->
  Forall P (firstn n l).
Proof.
  revert n; induction l as [|a l IH]; intros [|n] H; simpl; auto.
  constructor.
  - apply (H 0%nat); [lia|reflexivity].
  - apply IH. intros i x Hi Hx. apply (H (S i)); [lia|exact Hx].
Qed.

Lemma Forall_skipn_nth {A : Type} (P : A -> Prop) (l : list A) (n : nat) :
  (forall j x, (n <= j)%nat -> nth_error l j = Some x -> P x) ->
  Forall P (skipn n l).
Proof.
  revert n; induction l as [|a l IH]; intros [|n] H; simpl; auto.
  - constructor.
    + apply (H 0%nat); [lia|reflexivity].
    + apply (IH 0%nat). intros j x Hj Hx. apply (H (S j)); [lia|exact Hx].
  - apply IH. intros j x Hj Hx. apply (H (S j)); [lia|exact Hx].
Qed.

(** In a sorted list, positions are ordered as their contents. *)
Lemma sorted_nth_le (s : list Z) :
  StronglySorted Z.le s ->
  forall i j x y, (i <= j)%nat ->
    nth_error s i = Some x -> nth_error s j = Some y -> x <= y.
Proof.
  induction 1 as [|a s Hs IH Ha]; intros i j x y Hij Hx Hy.
  - destruct i; discriminate.
  - destruct i as [|i], j as [|j]; simpl in *; try lia.
    + inversion Hx; inversion Hy; lia.
    + inversion Hx; subst. rewrite Forall_forall in Ha.
      apply Ha. eapply nth_error_In; eauto.
    + eapply IH; [|eassumption|eassumption]. lia.
Qed.

(** The element a selection leaves at position [k] is the one a sort puts
    there. *)
Lemma selected_is_sorted_nth (l s : list Z) (k : nat) (v : Z) :
  Permutation l s -> StronglySorted Z.le s ->
  nth_error l k = Some v ->
  (forall i x, (i <= k)%nat -> nth_error l i = Some x -> x <= v) ->
  (forall j y, (k <= j)%nat -> nth_error l j = Some y -> v <= y) ->
  nth_error s k = Some v.
Proof.
  intros Hperm Hsorted Hk Hbefore Hafter.
  assert (Hlen : (k < length l)%nat) by (apply nth_error_Some; congruence).
  assert (Hlen' : (k < length s)%nat) by (rewrite <- (Permutation_length Hperm); exact Hlen).
  destruct (nth_error s k) as [w|] eqn:Hw; [|apply nth_error_None in Hw; lia].
  f_equal.
  assert (Hlt : (length (filter (fun y : Z => (y <? v)%Z) l) <= k)%nat).
  { apply count_at_most. apply Forall_skipn_nth. intros j y Hj Hy.
    apply Z.ltb_ge. eauto. }
  assert (Hle : (S k <= length (filter (fun y : Z => (y <=? v)%Z) l))%nat).
  { apply count_at_least; [exact Hlen|]. apply Forall_firstn_nth. intros i x Hi Hx.
    apply Z.leb_le. apply (Hbefore i); [lia|exact Hx]. }
  rewrite (count_permutation _ _ _ Hperm) in Hlt.
  rewrite (count_permutation _ _ _ Hperm) in Hle.
  destruct (Z.lt_trichotomy w v) as [Hwv|[Hwv|Hwv]]; [|exact Hwv|]; exfalso.
  - assert ((S k <= length (filter (fun y : Z => (y <? v)%Z) s))%nat); [|lia].
    apply count_at_least; [exact Hlen'|]. apply Forall_firstn_nth. intros i x Hi Hx.
    apply Z.ltb_lt.
    assert (x <= w) by (apply (sorted_nth_le s Hsorted i k); [lia|assumption|assumption]).
    lia.
  - assert ((length (filter (fun y : Z => (y <=? v)%Z) s) <= k)%nat); [|lia].
    apply count_at_most. apply Forall_skipn_nth. intros j y Hj Hy.
    apply Z.leb_gt.
    assert (w <= y) by (apply (sorted_nth_le s Hsorted k j); assumption).
    lia.
Qed.

Lemma insert_sorted_permutation (x : Z) (l : list Z) :
  Permutation (x :: l) (insert_sorted x l).
Proof.
  induction l as [|y l IH]; simpl; [reflexivity|].
  destruct (x <=? y); [reflexivity|].
  rewrite perm_swap. now constructor.
Qed.

Lemma full_sort_permutation (l : list Z) : Permutation l (full_sort l).
Proof.
  induction l as [|x l IH]; simpl; [reflexivity|].
  rewrite <- insert_sorted_permutation. now constructor.
Qed.

Lemma insert_sorted_sorted (x : Z) (l : list Z) :
  StronglySorted Z.le l -> StronglySorted Z.le (insert_sorted x l).
Proof.
  induction 1 as [|y l Hl IH Hy]; simpl.
  - repeat constructor.
  - destruct (Z.leb_spec x y).
    + constructor; [now constructor|].
      constructor; [assumption|].
      eapply Forall_impl; [|exact Hy]. intros; simpl in *; lia.
    + constructor; [exact IH|].
      rewrite <- insert_sorted_permutation. constructor; [lia|exact Hy].
Qed.

Lemma full_sort_sorted (l : list Z) : StronglySorted Z.le (full_sort l).
Proof.
  induction l as [|x l IH]; simpl; [constructor|]. now apply insert_sorted_sorted.
Qed.

Lemma insert_delay_permutation (x : Delay) (l : list Delay) :
  Permutation (x :: l) (insert_delay x l).
Proof.
  induction l as [|y l IH]; simpl; [reflexivity|].
  destruct (delay x <=? delay y); [reflexivity|].
  rewrite perm_swap. now constructor.
Qed.

Lemma sort_delays_permutation (l : list Delay) : Permutation l (sort_delays l).
Proof.
  induction l as [|x l IH]; simpl; [reflexivity|].
  rewrite <- insert_delay_permutation. now constructor.
Qed.

Lemma map_delay_insert (x : Delay) (l : list Delay) :
  map delay (insert_delay x l) = insert_sorted (delay x) (map delay l).
Proof.
  induction l as [|y l IH]; simpl; [reflexivity|].
  destruct (delay x <=? delay y); simpl; congruence.
Qed.

Lemma map_delay_sort (l : list Delay) :
  map delay (sort_delays l) = full_sort (map delay l).
Proof.
  induction l as [|x l IH]; simpl; [reflexivity|].
  now rewrite map_delay_insert, IH.
Qed.

(** A full sort meets the contract of [std::nth_element]. *)
#[export] Instance sort_nth_element : NthElement.
Proof.
  refine {| nth_element := fun l _ => sort_delays l |}.
  - intros l _. apply sort_delays_permutation.
  - intros l k i j x y Hi Hj Hx Hy. unfold Delay_lt. apply Z.ltb_ge.
    apply (sorted_nth_le (map delay (sort_delays l))) with (i := i) (j := j).
    + rewrite map_delay_sort. apply full_sort_sorted.
    + lia.
    + now rewrite nth_error_map, Hx.
    + now rewrite nth_error_map, Hy.
Defined.

(* ================================================================= *)
(** ** Splicing a rearranged range back *)

Lemma splice_nth_inside {A : Type} (v r : list A) (b e : Z) (k : nat) :
  0 <= b -> b <= Z.of_nat (length v) ->
  nth_error (splice v b e r) (Z.to_nat b + k) =
  if (k <? length r)%nat then nth_error r k
  else nth_error (skipn (Z.to_nat e) v) (k - length r).
Proof.
  intros Hb Hlen. unfold splice.
  rewrite nth_error_app2 by (rewrite length_firstn; lia).
  replace (Z.to_nat b + k - length (firstn (Z.to_nat b) v))%nat with k
    by (rewrite length_firstn; lia).
  destruct (Nat.ltb_spec k (length r)).
  - now apply nth_error_app1.
  - now apply nth_error_app2.
Qed.

Lemma splice_nth_before {A : Type} (v r : list A) (b e : Z) (i : nat) :
  (i < Z.to_nat b)%nat -> b <= Z.of_nat (length v) ->
  nth_error (splice v b e r) i = nth_error v i.
Proof.
  intros Hi Hlen. unfold splice.
  rewrite nth_error_app1 by (rewrite length_firstn; lia).
  rewrite nth_error_firstn.
  now destruct (Nat.ltb_spec i (Z.to_nat b)); [|lia].
Qed.

Lemma splice_nth_after {A : Type} (v r : list A) (b e : Z) (i : nat) :
  0 <= b <= e -> e <= Z.of_nat (length v) ->
  length r = Z.to_nat (e - b) -> (Z.to_nat e <= i)%nat ->
  nth_error (splice v b e r) i = nth_error v i.
Proof.
  intros Hb Hlen Hr Hi. unfold splice.
  rewrite nth_error_app2 by (rewrite length_firstn; lia).
  rewrite nth_error_app2 by (rewrite length_firstn; lia).
  rewrite nth_error_skipn. f_equal. rewrite length_firstn. lia.
Qed.

Lemma splice_length {A : Type} (v r : list A) (b e : Z) :
  0 <= b <= e -> e <= Z.of_nat (length v) ->
  length r = Z.to_nat (e - b) ->
  length (splice v b e r) = length v.
Proof.
  intros Hb Hlen Hr. unfold splice.
  rewrite !length_app, length_firstn, length_skipn. lia.
Qed.

(** The range [b, e) of the spliced vector is the spliced range. *)
Lemma splice_range {A : Type} (v r : list A) (b e : Z) :
  0 <= b <= e -> e <= Z.of_nat (length v) ->
  length r = Z.to_nat (e - b) ->
  skipn (Z.to_nat b) (firstn (Z.to_nat e) (splice v b e r)) = r.
Proof.
  intros Hb Hlen Hr. unfold splice.
  assert (Hf : length (firstn (Z.to_nat b) v) = Z.to_nat b)
    by (rewrite length_firstn; lia).
  rewrite firstn_app, Hf.
  rewrite (firstn_all2 (n := Z.to_nat e)) by lia.
  rewrite skipn_app, Hf, Nat.sub_diag. simpl.
  rewrite (skipn_all2 (n := Z.to_nat b)) by lia. simpl.
  rewrite firstn_app.
  replace (Z.to_nat e - Z.to_nat b - length r)%nat with 0%nat by lia.
  simpl. rewrite firstn_all2 by lia. apply app_nil_r.
Qed.

(* ================================================================= *)
(** ** The branches of percentile *)

Lemma length_tail_samples (st : TimestampDiff) (begin : Z) :
  wf st -> 0 <= begin <= _nd st ->
  length (skipn (Z.to_nat begin) (samples st)) = Z.to_nat (_nd st - begin).
Proof.
  intros Hwf Hb. pose proof (length_samples st Hwf). rewrite length_skipn. lia.
Qed.

Section Percentile.

Context {NE : NthElement}.
Variables (st : TimestampDiff) (p : Q) (begin : Z).
Hypothesis Hwf : wf st.
Hypothesis Hbegin : is_uint32 begin.
Hypothesis Hp : (0 <= p <= 100)%Q.

Let r := skipn (Z.to_nat begin) (samples st).
Let idx := selected_index st p begin.

(** On a range that is not empty the index is computed, and lies between
    the ends of the range. *)
Lemma selected_index_is :
  begin < _nd st ->
  percentile_idx p (_nd st) begin = Some idx /\ begin <= idx <= _nd st.
Proof.
  intros H. destruct Hbegin as [Hb0 _]. destruct Hwf as [[_ Hn] _].
  destruct (percentile_idx_defined p (_nd st) begin Hp ltac:(lia) Hn)
    as [i [E B]].
  unfold idx, selected_index. rewrite E. now split.
Qed.

Lemma percentile_empty :
  _nd st <= begin -> percentile st p begin = Some (Fin 0, st).
Proof.
  intros H. unfold percentile.
  destruct (Z.eqb_spec (_nd st) 0); [reflexivity|].
  destruct (Z.geb_spec begin (_nd st)); [reflexivity|lia].
Qed.

Lemma percentile_unfold :
  begin < _nd st ->
  percentile st p begin =
  if idx <=? begin then
    option_map (fun m => (of_unsigned (delay m), st)) (min_element r)
  else if idx >=? _nd st then
    option_map (fun m => (of_unsigned (delay m), st)) (max_element r)
  else
    let v := splice (_delays st) begin (_nd st)
               (nth_element r (Z.to_nat (idx - begin))) in
    option_map (fun nth => (of_unsigned (delay nth), set_delays st v))
      (at_index v idx).
Proof.
  intros H. destruct Hbegin as [Hb0 _]. unfold percentile.
  destruct (Z.eqb_spec (_nd st) 0); [lia|].
  destruct (Z.geb_spec begin (_nd st)); [lia|]. cbn [orb].
  destruct (selected_index_is H) as [-> _].
  rewrite range_samples by (auto; lia).
  reflexivity.
Qed.

Lemma percentile_min :
  begin < _nd st -> idx <= begin ->
  exists m, percentile st p begin = Some (of_unsigned m, st) /\
            is_minimum (map delay r) m.
Proof.
  intros H Hidx. rewrite percentile_unfold by assumption.
  destruct (Z.leb_spec idx begin); [|lia].
  destruct (min_element_minimum r) as [m [Hm Hmin]].
  { intros E. pose proof (length_tail_samples st begin Hwf) as L.
    unfold r in E. rewrite E in L. simpl in L. destruct Hbegin. lia. }
  exists (delay m). rewrite Hm. now split.
Qed.

Lemma percentile_max :
  begin < _nd st -> _nd st <= idx ->
  exists m, percentile st p begin = Some (of_unsigned m, st) /\
            is_maximum (map delay r) m.
Proof.
  intros H Hidx. rewrite percentile_unfold by assumption.
  destruct (Z.leb_spec idx begin); [lia|].
  destruct (Z.geb_spec idx (_nd st)); [|lia].
  destruct (max_element_maximum r) as [m [Hm Hmax]].
  { intros E. pose proof (length_tail_samples st begin Hwf) as L.
    unfold r in E. rewrite E in L. simpl in L. destruct Hbegin. lia. }
  exists (delay m). rewrite Hm. now split.
Qed.

Lemma percentile_select :
  begin < idx < _nd st ->
  let k := Z.to_nat (idx - begin) in
  exists d,
    nth_error (nth_element r k) k = Some d /\
    percentile st p begin =
    Some (of_unsigned (delay d),
          set_delays st (splice (_delays st) begin (_nd st) (nth_element r k))).
Proof.
  intros Hidx k. destruct Hbegin as [Hb0 _]. destruct Hwf as [_ Hlen].
  rewrite percentile_unfold by lia.
  destruct (Z.leb_spec idx begin); [lia|].
  destruct (Z.geb_spec idx (_nd st)); [lia|]. cbv zeta. fold k.
  assert (Hr : length (nth_element r k) = Z.to_nat (_nd st - begin)).
  { rewrite <- (Permutation_length (nth_element_rearranges r k)).
    apply length_tail_samples; [assumption|lia]. }
  destruct (nth_error (nth_element r k) k) as [d|] eqn:Hd;
    [|apply nth_error_None in Hd; lia].
  exists d. split; [reflexivity|].
  rewrite at_index_nth_error by lia.
  replace (Z.to_nat idx) with (Z.to_nat begin + k)%nat by lia.
  rewrite splice_nth_inside by lia.
  destruct (Nat.ltb_spec k (length (nth_element r k))); [|lia].
  now rewrite Hd.
Qed.

(** The selected element is the one a full sort puts at the index. *)
Lemma percentile_select_sorted :
  begin < idx < _nd st ->
  exists m, (exists st', percentile st p begin = Some (of_unsigned m, st')) /\
            nth_error (full_sort (map delay r)) (Z.to_nat (idx - begin)) = Some m.
Proof.
  intros Hidx. destruct (percentile_select Hidx) as [d [Hd Hperc]].
  exists (delay d). split; [eauto|].
  set (k := Z.to_nat (idx - begin)) in *.
  apply (selected_is_sorted_nth (map delay (nth_element r k))).
  - rewrite <- full_sort_permutation. apply Permutation_map.
    symmetry. apply nth_element_rearranges.
  - apply full_sort_sorted.
  - now rewrite nth_error_map, Hd.
  - intros i x Hi Hx. rewrite nth_error_map in Hx.
    destruct (nth_error (nth_element r k) i) as [a|] eqn:Ha; [|discriminate].
    inversion Hx; subst x.
    pose proof (nth_element_partitions r k i k a d Hi (le_n k) Ha Hd) as Hlt.
    unfold Delay_lt in Hlt. now apply Z.ltb_ge in Hlt.
  - intros j y Hj Hy. rewrite nth_error_map in Hy.
    destruct (nth_error (nth_element r k) j) as [a|] eqn:Ha; [|discriminate].
    inversion Hy; subst y.
    pose proof (nth_element_partitions r k k j d a (le_n k) Hj Hd Ha) as Hlt.
    unfold Delay_lt in Hlt. now apply Z.ltb_ge in Hlt.
Qed.

End Percentile.

(* ================================================================= *)
(** ** The percentile query *)

Lemma selected_index_0 (st : TimestampDiff) (begin : Z) :
  wf st -> 0 <= begin < _nd st -> selected_index st 0 begin = begin.
Proof.
  intros [[_ Hn] _] Hb. unfold selected_index.
  now rewrite percentile_idx_0.
Qed.

Lemma selected_index_100 (st : TimestampDiff) (begin : Z) :
  wf st -> 0 <= begin < _nd st -> selected_index st 100 begin = _nd st.
Proof.
  intros [[_ Hn] _] Hb. unfold selected_index.
  now rewrite percentile_idx_100.
Qed.

Lemma percent_0 : (0 <= 0 <= 100)%Q.
Proof. lra. Qed.

Lemma percent_100 : (0 <= 100 <= 100)%Q.
Proof. lra. Qed.

(** C1 as stated fails: the index is computed in doubles, and a rounded
    product can reach the next whole number.  On the 125 samples 0, ..., 124
    and the double nearest to 2.4, [begin + floor(p * n / 100)] is 2, since
    that double lies below 2.4, and the delay a full sort puts at position 2
    is 2; but [p * n] rounds to 300, the index is 3, and [percentile] returns
    the delay 3. *)
Lemma percentile_index_is_rounded :
  wf ramp_samples /\ (0 <= double_2_4 <= 100)%Q /\
  target_index ramp_samples double_2_4 0 = 2 /\
  nth_error (full_sort (delays_from ramp_samples 0)) 2 = Some 2 /\
  percentile_idx double_2_4 125 0 = Some 3 /\
  exists st', percentile ramp_samples double_2_4 0 = Some (of_unsigned 3, st').
Proof.
  split; [unfold wf, is_uint32; simpl; lia|].
  split; [unfold double_2_4; lra|].
  split; [vm_compute; reflexivity|].
  split; [vm_compute; reflexivity|].
  split; [vm_compute; reflexivity|].
  eexists. vm_compute. reflexivity.
Qed.

(** C1, amended.  On a well-formed store, for a percentile [p] in [0, 100]
    and a begin index, [percentile] returns 0 when the range [begin, _nd) is
    empty.  Otherwise it computes [idx = (p * n) / 100 + begin], with
    [n = _nd - begin], in doubles, each operation rounded, and drops the
    fraction: an index that is at least [begin + floor(p * n / 100)], at most
    [_nd], and equal to [begin + floor(p * n / 100)] whenever [p] is a whole
    number.  It returns the minimum delay of the range when [idx <= begin],
    the maximum delay of the range when [idx >= _nd], and else the delay at
    position [idx] of the range sorted in ascending order.  In particular, on
    a store that is not empty, [percentile(0, 0)] is the minimum stored delay
    and [percentile(100, 0)] the maximum. *)
Theorem percentile_query {NE : NthElement} (st : TimestampDiff) (p : Q) (begin : Z) :
  wf st -> is_uint32 begin -> (0 <= p <= 100)%Q ->
  let r := delays_from st begin in
  (_nd st <= begin -> percentile st p begin = Some (Fin 0, st)) /\
  (begin < _nd st ->
     exists idx result st',
       percentile_idx p (_nd st) begin = Some idx /\
       target_index st p begin <= idx <= _nd st /\
       (forall w, (p == inject_Z w)%Q -> idx = target_index st p begin) /\
       percentile st p begin = Some (result, st') /\
       (idx <= begin ->
          exists m, result = of_unsigned m /\ is_minimum r m) /\
       (_nd st <= idx ->
          exists m, result = of_unsigned m /\ is_maximum r m) /\
       (begin < idx < _nd st ->
          exists m, result = of_unsigned m /\
                    nth_error (full_sort r) (Z.to_nat (idx - begin)) = Some m)) /\
  (0 < _nd st ->
     (exists m st', percentile st 0 0 = Some (of_unsigned m, st') /\
                    is_minimum (map delay (samples st)) m) /\
     (exists m st', percentile st 100 0 = Some (of_unsigned m, st') /\
                    is_maximum (map delay (samples st)) m)).
Proof.
  intros Hwf Hbegin Hp r. split; [|split].
  - now apply percentile_empty.
  - intros Hsome. pose proof Hwf as [[_ Hn] _]. pose proof Hbegin as [Hb0 _].
    destruct (selected_index_is st p begin Hwf Hbegin Hp Hsome) as [Ei Bi].
    set (idx := selected_index st p begin) in *.
    assert (Hidx : target_index st p begin <= idx <= _nd st /\
                   (forall w, (p == inject_Z w)%Q -> idx = target_index st p begin)).
    { split; [split; [|lia]|].
      - now apply (percentile_idx_lower p (_nd st) begin idx Hp ltac:(lia) Hn).
      - intros w Ew.
        rewrite (percentile_idx_whole p w (_nd st) begin Hp ltac:(lia) Hn Ew) in Ei.
        now inversion Ei. }
    destruct Hidx as [Hlower Hwhole].
    destruct (Z.le_gt_cases idx begin) as [Hlow|Hlow].
    { destruct (percentile_min st p begin Hwf Hbegin Hp Hsome Hlow) as [m [E Hm]].
      exists idx, (of_unsigned m), st. repeat (split; [assumption|]).
      repeat split; intros; try lia. exists m. now split. }
    destruct (Z.le_gt_cases (_nd st) idx) as [Hhigh|Hhigh].
    { destruct (percentile_max st p begin Hwf Hbegin Hp Hsome Hhigh) as [m [E Hm]].
      exists idx, (of_unsigned m), st. repeat (split; [assumption|]).
      repeat split; intros; try lia. exists m. now split. }
    destruct (percentile_select_sorted st p begin Hwf Hbegin Hp (conj Hlow Hhigh))
      as [m [[st' E] Hm]].
    exists idx, (of_unsigned m), st'. repeat (split; [assumption|]).
    repeat split; intros; try lia. exists m. now split.
  - intros Hsome.
    assert (H0 : is_uint32 0) by (unfold is_uint32; lia).
    split.
    + destruct (percentile_min st 0 0 Hwf H0 percent_0 Hsome) as [m [E Hm]].
      { rewrite selected_index_0 by (auto; lia). lia. }
      exists m, st. now split.
    + destruct (percentile_max st 100 0 Hwf H0 percent_100 Hsome) as [m [E Hm]].
      { rewrite selected_index_100 by (auto; lia). lia. }
      exists m, st. now split.
Qed.

Lemma five_samples_wf : wf five_samples.
Proof. unfold wf, is_uint32; simpl; lia. Defined.

Lemma percentile_query_witness :
  wf five_samples /\ is_uint32 0 /\ (0 <= 50 <= 100)%Q /\
  exists result st',
    percentile five_samples 50 0 = Some (result, st') /\ result = of_unsigned 30.
Proof.
  assert (Hwf : wf five_samples) by exact five_samples_wf.
  assert (H0 : is_uint32 0) by (unfold is_uint32; lia).
  assert (Hp : (0 <= 50 <= 100)%Q) by (unfold Qle; simpl; lia).
  repeat (split; [assumption|]).
  destruct (percentile_query five_samples 50 0 Hwf H0 Hp) as [_ [Hsome _]].
  destruct (Hsome eq_refl)
    as [idx [result [st' [Ei [_ [_ [E [_ [_ Hsel]]]]]]]]].
  exists result, st'. split; [exact E|].
  assert (Hidx : idx = 2).
  { assert (E2 : percentile_idx 50 (_nd five_samples) 0 = Some 2)
      by (vm_compute; reflexivity).
    rewrite E2 in Ei. now inversion Ei. }
  subst idx.
  destruct Hsel as [m [-> Hm]]; [split; reflexivity|].
  vm_compute in Hm. now inversion Hm.
Defined.

(* ================================================================= *)
(** ** What a percentile query leaves behind *)

(** C8.  On a well-formed store, a call [percentile(p, begin)] returns and
    changes nothing but the order of the vector: the counter is as it was,
    the vector keeps its size, every sample at an index outside
    [begin, _nd) is as it was, and inside [begin, _nd) there is the same
    multiset of (delay, tag) samples: the selection only moves samples
    within the range. *)
Theorem percentile_frame {NE : NthElement} (st : TimestampDiff) (p : Q) (begin : Z) :
  wf st -> is_uint32 begin -> (0 <= p <= 100)%Q ->
  exists result st',
    percentile st p begin = Some (result, st') /\
    st' = set_delays st (_delays st') /\
    _nd st' = _nd st /\
    length (_delays st') = length (_delays st) /\
    (forall i, ~ begin <= i < _nd st ->
       at_index (_delays st') i = at_index (_delays st) i) /\
    Permutation (skipn (Z.to_nat begin) (samples st))
                (skipn (Z.to_nat begin) (samples st')).
Proof.
  intros Hwf Hbegin Hp.
  assert (Hsame : forall result,
    percentile st p begin = Some (result, st) ->
    exists result st',
      percentile st p begin = Some (result, st') /\
      st' = set_delays st (_delays st') /\
      _nd st' = _nd st /\
      length (_delays st') = length (_delays st) /\
      (forall i, ~ begin <= i < _nd st ->
         at_index (_delays st') i = at_index (_delays st) i) /\
      Permutation (skipn (Z.to_nat begin) (samples st))
                  (skipn (Z.to_nat begin) (samples st'))).
  { intros result E. exists result, st. repeat split; auto. now destruct st. }
  destruct (Z.le_gt_cases (_nd st) begin) as [Hempty|Hsome].
  { eapply Hsame. now apply percentile_empty. }
  destruct (Z.le_gt_cases (selected_index st p begin) begin) as [Hlow|Hlow].
  { destruct (percentile_min st p begin Hwf Hbegin Hp Hsome Hlow) as [m [E _]].
    eapply Hsame. exact E. }
  destruct (Z.le_gt_cases (_nd st) (selected_index st p begin)) as [Hhigh|Hhigh].
  { destruct (percentile_max st p begin Hwf Hbegin Hp Hsome Hhigh) as [m [E _]].
    eapply Hsame. exact E. }
  destruct (percentile_select st p begin Hwf Hbegin Hp (conj Hlow Hhigh))
    as [d [_ E]].
  cbv zeta in E.
  set (r := skipn (Z.to_nat begin) (samples st)) in *.
  set (k := Z.to_nat (selected_index st p begin - begin)) in *.
  destruct Hbegin as [Hb0 _]. pose proof Hwf as [[Hn0 _] Hlen].
  assert (Hr : length (nth_element r k) = Z.to_nat (_nd st - begin)).
  { rewrite <- (Permutation_length (nth_element_rearranges r k)).
    apply length_tail_samples; [assumption|lia]. }
  eexists _, _. split; [exact E|].
  split; [reflexivity|]. split; [reflexivity|]. split; [|split].
  - cbn [set_delays _delays]. apply splice_length; lia.
  - intros i Hi. cbn [set_delays _delays]. unfold at_index.
    destruct (Z.ltb_spec i 0); [reflexivity|].
    destruct (Z.lt_ge_cases i begin).
    + apply splice_nth_before; lia.
    + apply splice_nth_after; lia.
  - unfold samples. cbn [set_delays _delays _nd].
    rewrite splice_range by lia. apply nth_element_rearranges.
Qed.

Lemma percentile_frame_witness :
  wf five_samples /\ is_uint32 1 /\ (0 <= 50 <= 100)%Q /\
  exists result st',
    percentile five_samples 50 1 = Some (result, st') /\
    _nd st' = 5 /\ at_index (_delays st') 0 = Some (mkDelay 30 0).
Proof.
  assert (Hwf : wf five_samples) by exact five_samples_wf.
  assert (H1 : is_uint32 1) by (unfold is_uint32; lia).
  assert (Hp : (0 <= 50 <= 100)%Q) by (unfold Qle; simpl; lia).
  repeat (split; [assumption|]).
  destruct (percentile_frame five_samples 50 1 Hwf H1 Hp)
    as [result [st' [E [_ [Hnd [_ [Hout _]]]]]]].
  exists result, st'. split; [exact E|]. split; [exact Hnd|].
  rewrite Hout; [reflexivity|]. lia.
Defined.

(* ================================================================= *)
(** ** The ingestion path *)

Lemma update_defined {A : Type} (v : list A) (i : nat) (x : A) :
  (i < length v)%nat -> exists v', update v i x = Some v'.
Proof.
  revert i; induction v as [|y v IH]; intros [|i] H; simpl in *; try lia; eauto.
  destruct (IH i) as [v' ->]; [lia|]. simpl. eauto.
Qed.

Lemma counter_advances (n : Z) : is_uint32 n -> to_uint32 (n + 1) <> n.
Proof.
  unfold is_uint32, to_uint32. intros H.
  destruct (Z.eq_dec n (2 ^ 32 - 1)) as [->|Hn]; [now vm_compute|].
  rewrite Z.mod_small; lia.
Qed.

(** The storing branch is defined on a storable packet, and consumes a
    slot. *)
Lemma store_sample_defined (st : TimestampDiff) (p : Packet) (usec : Z) :
  storable st p ->
  exists st', store_sample st p usec = Some st' /\
              _nd st' = to_uint32 (_nd st + 1) /\ _nd st' <> _nd st.
Proof.
  intros [Hnd [Htc Hlimit]]. unfold store_sample, fetch_and_add.
  assert (Htag : exists t,
    (if _tc_offset st >=? 0
     then option_map (fun b => Z.land b (_tc_mask st))
            (at_index (map byte_value (data p)) (_tc_offset st))
     else Some 0) = Some t).
  { destruct (Z.geb_spec (_tc_offset st) 0); [|eauto].
    destruct (at_index_Some (map byte_value (data p)) (_tc_offset st)) as [b ->];
      [rewrite length_map; lia|simpl; eauto]. }
  destruct Htag as [t ->].
  destruct (Z.eqb_spec (_limit st) 0) as [E|E]; cbn [negb].
  - eexists; split; [reflexivity|]. cbn. split; [reflexivity|].
    now apply counter_advances.
  - destruct (update_defined (_delays st) (Z.to_nat (_nd st)) (mkDelay usec t))
      as [v' ->]; [destruct Hnd; specialize (Hlimit E); lia|].
    eexists; split; [reflexivity|]. cbn. split; [reflexivity|].
    now apply counter_advances.
Qed.

(** [smaction] on a packet whose timestamp is recorded, once the sampling
    test is decided. *)
Lemma smaction_recorded (st : TimestampDiff) (now : Timestamp) (p : Packet)
    (i : Z) (old : Timestamp) :
  sequence_number st p = Some i -> _rt st i = Some old -> _sample st <> 0 ->
  smaction st now p =
  if negb (_sample st =? 1) && negb (to_uint32 i mod _sample st =? 0)
  then Some (0, st, [])
  else if usec_of st now old >? max_delay_of st then
    Some (0, st,
          if _verbose st
          then [mkChatter i (usec_of st now old / ticks_per_ms st) (_max_delay_ms st)]
          else [])
  else option_map (fun st' => (0, st', [])) (store_sample st p (usec_of st now old)).
Proof.
  unfold sequence_number, smaction, ticks_per_ms. intros -> -> Hs.
  destruct (Z.eqb_spec (_sample st) 1); cbn [negb andb].
  - destruct (usec_of st now old >? max_delay_of st); [|reflexivity].
    now destruct (_verbose st).
  - destruct (Z.eqb_spec (_sample st) 0); [contradiction|].
    destruct (to_uint32 i mod _sample st =? 0); cbn [negb]; [|reflexivity].
    destruct (usec_of st now old >? max_delay_of st); [|reflexivity].
    now destruct (_verbose st).
Qed.

Lemma usec_is_uint32 (st : TimestampDiff) (now old : Timestamp) :
  is_uint32 (usec_of st now old).
Proof. unfold usec_of, to_uint32, is_uint32. apply Z.mod_pos_bound. lia. Qed.

(** A delay above the configured maximum is above the threshold the code
    compares with. *)
Lemma above_maximum (st : TimestampDiff) (now old : Timestamp) :
  0 <= _max_delay_ms st ->
  usec_of st now old > _max_delay_ms st * ticks_per_ms st ->
  (usec_of st now old >? max_delay_of st) = true.
Proof.
  intros Hm H. pose proof (usec_is_uint32 st now old) as [_ Hu].
  unfold max_delay_of, to_uint32. fold (ticks_per_ms st).
  assert (0 < ticks_per_ms st) by (unfold ticks_per_ms; destruct (_nano st); lia).
  rewrite Z.mod_small by nia. apply Z.gtb_lt. lia.
Qed.

(** A delay above the threshold that [smaction] compares with is not
    stored. *)
Lemma over_threshold_not_stored (st : TimestampDiff) (now : Timestamp)
    (p : Packet) (i : Z) (old : Timestamp) :
  sequence_number st p = Some i -> _rt st i = Some old -> _sample st <> 0 ->
  usec_of st now old > max_delay_of st ->
  exists log,
    smaction st now p = Some (normal_output, st, log) /\
    (_verbose st = false -> log = []).
Proof.
  intros Hi Hold Hs Hover.
  rewrite (smaction_recorded st now p i old Hi Hold Hs).
  destruct (Z.gtb_spec (usec_of st now old) (max_delay_of st)); [|lia].
  destruct (negb (_sample st =? 1) && negb (to_uint32 i mod _sample st =? 0)).
  - exists []. now split.
  - eexists. split; [reflexivity|]. now intros ->.
Qed.

(** X17.  A packet whose delay, as the 32-bit value [usec] that [smaction]
    compares and stores, exceeds the configured maximum ([_max_delay_ms]
    milliseconds in the configured time unit) is not stored: [smaction]
    returns the element as it was, so every later query sees the store it
    saw before; a line is written only if [_verbose] is set. *)
Theorem over_maximum_not_stored (st : TimestampDiff) (now : Timestamp)
    (p : Packet) (i : Z) (old : Timestamp) :
  sequence_number st p = Some i -> _rt st i = Some old -> _sample st <> 0 ->
  0 <= _max_delay_ms st ->
  usec_of st now old > _max_delay_ms st * ticks_per_ms st ->
  exists log,
    smaction st now p = Some (normal_output, st, log) /\
    (_verbose st = false -> log = []).
Proof.
  intros Hi Hold Hs Hm Hover.
  apply (over_threshold_not_stored st now p i old Hi Hold Hs).
  apply Z.lt_gt, Z.gtb_lt. now apply above_maximum.
Qed.

Lemma over_maximum_not_stored_witness :
  usec_of verbose_element 2000000000 0 >
    _max_delay_ms verbose_element * ticks_per_ms verbose_element /\
  exists log,
    smaction verbose_element 2000000000 (packet_of 7) =
      Some (normal_output, verbose_element, log) /\
    (_verbose verbose_element = false -> log = []).
Proof.
  split; [vm_compute; reflexivity|].
  apply (over_maximum_not_stored verbose_element 2000000000 (packet_of 7) 7 0).
  - reflexivity.
  - reflexivity.
  - vm_compute; discriminate.
  - vm_compute; discriminate.
  - vm_compute; reflexivity.
Defined.

(** C3, where the code departs from it.  The element measures in
    nanoseconds with the default maximum of 1000 ms, and a packet arrives
    4294967301 ns after its timestamp was recorded: the delay exceeds the
    maximum of 10^9 ns, but [smaction] keeps it in the [uint32_t usec], where
    it is 5, compares that with the maximum, and stores the sample
    [{5, 0}], advancing the counter. *)
Theorem wrapped_delay_is_stored :
  sequence_number nano_element (packet_of 7) = Some 7 /\
  _rt nano_element 7 = Some 0 /\
  _max_delay_ms nano_element * ticks_per_ms nano_element = 1000000000 /\
  nsecval (4294967301 - 0) > _max_delay_ms nano_element * ticks_per_ms nano_element /\
  usec_of nano_element 4294967301 0 = 5 /\
  exists st',
    smaction nano_element 4294967301 (packet_of 7) =
      Some (normal_output, st', []) /\
    _nd nano_element = 0 /\ _nd st' = 1 /\ samples st' = [mkDelay 5 0].
Proof.
  repeat (split; [vm_compute; reflexivity|]).
  eexists. split; [vm_compute; reflexivity|]. repeat split.
Qed.

(** C4 as stated fails: a packet whose sequence number has no recorded
    timestamp leaves [push] for output port 1, not for the normal output. *)
Lemma unrecorded_packet_leaves_on_port_1 :
  sequence_number element_without_timestamps (packet_of 7) = Some 7 /\
  _rt element_without_timestamps 7 = None /\
  push element_without_timestamps 5000 (packet_of 7) =
    Some (element_without_timestamps, [], (1, packet_of 7)) /\
  1 <> normal_output.
Proof.
  repeat split. unfold normal_output. lia.
Qed.

(** C4, amended.  Whenever [push] is defined for a packet that holds a
    sequence number, it hands the packet it received, unchanged, to
    [checked_output_push]: for port 0, the normal output, when the sequence
    number has a recorded timestamp, whatever the measurement did; for port 1
    when it has none.  Without a recorded timestamp [push] is always
    defined, and nothing is measured or written, whatever the configuration
    and the store.  With one and a sampling rate other than 0 it is defined,
    with the element as it was, when the packet is sampled out or over the
    maximum delay, and in every case when the tag byte and the slot of the
    store exist. *)
Theorem push_hands_packet_on (st : TimestampDiff) (now : Timestamp)
    (p : Packet) (i : Z) :
  sequence_number st p = Some i ->
  (forall st' log out,
     push st now p = Some (st', log, out) ->
     out = (match _rt st i with
            | Some _ => normal_output
            | None => 1
            end, p)) /\
  (_rt st i = None -> push st now p = Some (st, [], (1, p))) /\
  (forall old,
     _rt st i = Some old -> _sample st <> 0 ->
     (_sample st <> 1 -> to_uint32 i mod _sample st <> 0 ->
      push st now p = Some (st, [], (normal_output, p))) /\
     (usec_of st now old > max_delay_of st ->
      exists log, push st now p = Some (st, log, (normal_output, p))) /\
     (storable st p ->
      exists st' log, push st now p = Some (st', log, (normal_output, p)))).
Proof.
  intros Hi. split; [|split].
  - intros st' log out. unfold push.
    destruct (smaction st now p) as [[[port st1] log1]|] eqn:E; [|discriminate].
    cbn [option_map fst snd]. intros H. inversion H; subst; clear H.
    f_equal. unfold sequence_number in Hi. unfold smaction in E.
    rewrite Hi in E. destruct (_rt st i) as [old|]; [|now inversion E].
    destruct (if negb (_sample st =? 1)
              then if _sample st =? 0 then None
                   else Some (negb (to_uint32 i mod _sample st =? 0))
              else Some false) as [[|]|]; [now inversion E| |discriminate].
    destruct (usec_of st now old >? max_delay_of st).
    + destruct (_verbose st); now inversion E.
    + destruct (store_sample st p (usec_of st now old)); [|discriminate].
      now inversion E.
  - intros Hnone. unfold sequence_number in Hi. unfold push, smaction.
    now rewrite Hi, Hnone.
  - intros old Hold Hs. unfold push.
    rewrite (smaction_recorded st now p i old Hi Hold Hs).
    split; [|split].
    + intros H1 Hmod.
      destruct (Z.eqb_spec (_sample st) 1); [contradiction|].
      destruct (Z.eqb_spec (to_uint32 i mod _sample st) 0); [contradiction|].
      reflexivity.
    + intros Hover.
      destruct (negb (_sample st =? 1) && negb (to_uint32 i mod _sample st =? 0)).
      { now exists []. }
      destruct (Z.gtb_spec (usec_of st now old) (max_delay_of st)); [|lia].
      eexists. reflexivity.
    + intros Hst.
      destruct (negb (_sample st =? 1) && negb (to_uint32 i mod _sample st =? 0)).
      { now exists st, []. }
      destruct (usec_of st now old >? max_delay_of st).
      { eexists st, _. reflexivity. }
      destruct (store_sample_defined st p (usec_of st now old) Hst) as [st' [-> _]].
      now exists st', [].
Qed.

Lemma push_hands_packet_on_witness :
  sequence_number element_knowing_7 (packet_of 7) = Some 7 /\
  exists st' log,
    push element_knowing_7 5000 (packet_of 7) =
      Some (st', log, (normal_output, packet_of 7)).
Proof.
  split; [reflexivity|].
  assert (Hst : storable element_knowing_7 (packet_of 7)).
  { unfold storable, is_uint32; simpl. repeat split; lia. }
  destruct (push_hands_packet_on element_knowing_7 5000 (packet_of 7) 7 eq_refl)
    as [_ [_ H]].
  destruct (H 0 eq_refl ltac:(vm_compute; discriminate)) as [_ [_ Hstore]].
  exact (Hstore Hst).
Defined.

(** C5 as stated fails: with a sampling rate of 3 the sequence number 2^32,
    which is not a multiple of 3, is sampled all the same. *)
Lemma non_multiple_is_sampled :
  _sample element_sampling_3 = 3 /\
  sequence_number element_sampling_3 (packet_of (2 ^ 32)) = Some (2 ^ 32) /\
  _rt element_sampling_3 (2 ^ 32) = Some 0 /\
  (2 ^ 32) mod 3 <> 0 /\
  exists st',
    smaction element_sampling_3 5000 (packet_of (2 ^ 32)) = Some (0, st', []) /\
    _nd element_sampling_3 = 0 /\ _nd st' = 1 /\ samples st' = [mkDelay 5 0].
Proof.
  split; [reflexivity|]. split; [reflexivity|]. split; [reflexivity|].
  split; [vm_compute; discriminate|].
  eexists. split; [vm_compute; reflexivity|]. repeat split.
Qed.

(** C5, amended.  With a sampling rate [k > 1], a packet with a recorded
    timestamp whose sequence number, truncated to its low 32 bits, is not a
    multiple of [k] appends no sample and consumes no slot: [smaction]
    returns the element as it was.  For a sequence number below 2^32 this is
    the test on the number itself. *)
Theorem sampling_skips_non_multiples (st : TimestampDiff) (now : Timestamp)
    (p : Packet) (i : Z) (old : Timestamp) :
  sequence_number st p = Some i -> _rt st i = Some old -> 1 < _sample st ->
  (to_uint32 i mod _sample st <> 0 ->
   smaction st now p = Some (normal_output, st, [])) /\
  (0 <= i < 2 ^ 32 -> i mod _sample st <> 0 ->
   smaction st now p = Some (normal_output, st, [])).
Proof.
  intros Hi Hold Hk.
  assert (H : to_uint32 i mod _sample st <> 0 ->
              smaction st now p = Some (normal_output, st, [])).
  { intros Hmod. rewrite (smaction_recorded st now p i old Hi Hold) by lia.
    destruct (Z.eqb_spec (_sample st) 1); [lia|].
    destruct (Z.eqb_spec (to_uint32 i mod _sample st) 0); [contradiction|].
    reflexivity. }
  split; [exact H|].
  intros Hsmall Hmod. apply H. unfold to_uint32. now rewrite (Z.mod_small i) by lia.
Qed.

Lemma sampling_skips_non_multiples_witness :
  to_uint32 4 mod _sample element_sampling_3 <> 0 /\
  smaction element_sampling_3 5000 (packet_of 4) =
    Some (normal_output, element_sampling_3, []).
Proof.
  assert (Hmod : to_uint32 4 mod _sample element_sampling_3 <> 0)
    by (vm_compute; discriminate).
  split; [exact Hmod|].
  destruct (sampling_skips_non_multiples element_sampling_3 5000 (packet_of 4) 4 0
              eq_refl eq_refl
              ltac:(vm_compute; reflexivity)) as [H _].
  exact (H Hmod).
Defined.

(* ================================================================= *)
(** ** Strings *)

Lemma append_assoc (a b c : string) : ((a ++ b) ++ c = a ++ (b ++ c))%string.
Proof. induction a as [|x a IH]; simpl; congruence. Qed.

Lemma append_nil_r (a : string) : (a ++ "" = a)%string.
Proof. induction a as [|x a IH]; simpl; congruence. Qed.

Lemma free_of_append (c : ascii) (a b : string) :
  free_of c (a ++ b) = free_of c a && free_of c b.
Proof.
  induction a as [|x a IH]; simpl; [reflexivity|].
  now rewrite IH, andb_assoc.
Qed.

(** A decimal numeral has no character other than digits. *)
Lemma digits_free_of (c : ascii) (d : Decimal.uint) :
  free_of c "0123456789" = true ->
  free_of c (NilEmpty.string_of_uint d) = true.
Proof.
  intros H. cbn [free_of] in H.
  repeat (apply andb_prop in H as [? H]).
  induction d; cbn [NilEmpty.string_of_uint free_of];
    rewrite ?IHd, ?andb_true_r; auto.
Qed.

Lemma decimal_free_of (c : ascii) (n : Z) :
  free_of c "0123456789" = true -> free_of c (decimal n) = true.
Proof.
  intros Hc. unfold decimal, NilZero.string_of_uint.
  destruct (N.to_uint (Z.to_N n)) eqn:E; try (rewrite <- E; now apply digits_free_of).
  cbn [free_of] in *. apply andb_prop in Hc as [-> _]. reflexivity.
Qed.

Lemma parse_decimal_decimal (n : Z) : 0 <= n -> parse_decimal (decimal n) = Some n.
Proof.
  intros Hn. unfold parse_decimal, decimal.
  rewrite NilZero.usu.
  - simpl. rewrite DecimalN.Unsigned.of_to. f_equal. lia.
  - destruct (Z.to_N n); simpl; [discriminate|]. apply Unsigned.to_uint_nonnil.
Qed.

(** Splitting at newlines returns a line that has none. *)
Lemma lines_from_line (a : string) :
  free_of (ascii_of_nat 10) a = true ->
  forall cur rest,
    lines_from cur (a ++ newline ++ rest) = (cur ++ a)%string :: lines_from "" rest.
Proof.
  induction a as [|x a IH]; intros Ha cur rest.
  - simpl. now rewrite append_nil_r.
  - simpl in Ha. apply andb_prop in Ha as [Hx Ha].
    cbn [append lines_from]. apply negb_true_iff in Hx. rewrite Hx.
    rewrite IH by assumption. now rewrite append_assoc.
Qed.

Lemma split_colon_prefix (a : string) :
  free_of ":" a = true ->
  forall cur rest,
    split_colon cur (a ++ String ":" rest) = Some ((cur ++ a)%string, rest).
Proof.
  induction a as [|x a IH]; intros Ha cur rest.
  - simpl. now rewrite append_nil_r.
  - simpl in Ha. apply andb_prop in Ha as [Hx Ha].
    cbn [append split_colon]. apply negb_true_iff in Hx. rewrite Hx.
    rewrite IH by assumption. now rewrite append_assoc.
Qed.

(* ================================================================= *)
(** ** The dump handlers *)

Lemma dump_line_text (opt : Operation) (i : Z) (d : Delay) (s : string) :
  dump_line opt i d s = (s ++ line_text opt i d ++ newline)%string.
Proof.
  destruct opt; unfold dump_line, line_text; try reflexivity.
  now rewrite !append_assoc.
Qed.

Lemma dump_loop_text (opt : Operation) (l : list (Z * Delay)) :
  forall s,
    fold_left (fun a p => dump_line opt (fst p) (snd p) a) l s =
    (s ++ text_of opt l)%string.
Proof.
  induction l as [|p l IH]; intros s; simpl.
  - now rewrite append_nil_r.
  - rewrite IH, dump_line_text. now rewrite !append_assoc.
Qed.

Lemma line_text_one_line (opt : Operation) (i : Z) (d : Delay) :
  free_of (ascii_of_nat 10) (line_text opt i d) = true.
Proof.
  assert (H : forall n, free_of (ascii_of_nat 10) (decimal n) = true)
    by (intros n; now apply decimal_free_of).
  destruct opt; unfold line_text; rewrite ?free_of_append, ?H; reflexivity.
Qed.

Lemma lines_text_of (opt : Operation) (l : list (Z * Delay)) :
  lines (text_of opt l) = map (fun p => line_text opt (fst p) (snd p)) l.
Proof.
  unfold lines. induction l as [|p l IH]; [reflexivity|].
  cbn [text_of fold_right map].
  rewrite lines_from_line by apply line_text_one_line.
  f_equal. exact IH.
Qed.

Lemma parse_each_map {A B : Type} (f : string -> option B) (g : A -> string)
    (h : A -> B) (l : list A) :
  Forall (fun x => f (g x) = Some (h x)) l ->
  parse_each f (map g l) = Some (map h l).
Proof.
  induction 1 as [|x l Hx _ IH]; simpl; [reflexivity|]. now rewrite Hx, IH.
Qed.

Lemma parse_indexed_line (i d : Z) :
  0 <= i -> 0 <= d ->
  parse_indexed (decimal i ++ ": " ++ decimal d) = Some (i, d).
Proof.
  intros Hi Hd. unfold parse_indexed.
  change (decimal i ++ ": " ++ decimal d)%string
    with (decimal i ++ String ":" (String " " (decimal d)))%string.
  rewrite split_colon_prefix by now apply decimal_free_of.
  cbn [append]. now rewrite !parse_decimal_decimal.
Qed.

Lemma combine_indices_snd {A : Type} (l : list A) (f : nat -> Z) :
  forall start, map snd (combine (map f (seq start (length l))) l) = l.
Proof.
  induction l as [|x l IH]; intros start; simpl; [reflexivity|]. now rewrite IH.
Qed.

Lemma combine_indices_map {A B : Type} (g : A -> B) (l : list A) (f : nat -> Z) :
  forall start,
    map (fun p => (fst p, g (snd p))) (combine (map f (seq start (length l))) l) =
    combine (map f (seq start (length l))) (map g l).
Proof.
  induction l as [|x l IH]; intros start; simpl; [reflexivity|]. now rewrite IH.
Qed.

Lemma combine_indices_bounds {A : Type} (l : list A) :
  forall start,
    Forall (fun p => 0 <= fst p)
      (combine (map Z.of_nat (seq start (length l))) l).
Proof.
  induction l as [|x l IH]; intros start; simpl; constructor; [simpl; lia|apply IH].
Qed.

(** The dump loop over a well-formed store returns the text of the visible
    samples paired with their indices. *)
Lemma dump_loop (opt : Operation) (st : TimestampDiff) :
  wf st ->
  for_each_index (_delays st) (Z.to_nat (_nd st)) 0 (dump_line opt) EmptyString =
  Some (text_of opt (combine (indices (length (samples st))) (samples st))) /\
  length (samples st) = Z.to_nat (_nd st).
Proof.
  intros Hwf. pose proof (length_samples st Hwf) as Hlen. destruct Hwf as [[Hn _] Hv].
  split; [|lia].
  rewrite for_each_index_fold by lia.
  rewrite dump_loop_text. cbn [append Z.to_nat skipn]. fold (samples st).
  replace (length (samples st)) with (Z.to_nat (_nd st)) by lia.
  reflexivity.
Qed.

(** C9.  On a well-formed store, [dump_list] writes one line per visible
    sample, in index order, holding the delay alone, so that reading its text
    back as one delay per line gives the stored delays in index order; [dump]
    writes the same sequence, each line as ["<index>: <delay>"]. *)
Theorem dump_round_trip {NE : NthElement} (st : TimestampDiff) :
  wf st -> unsigned_delays st ->
  let indexed := combine (indices (length (samples st))) (samples st) in
  exists list_text text,
    handler TSD_DUMP_LIST_HANDLER None st = Some (0, ReplyText list_text, st) /\
    lines list_text = map (fun d => decimal (delay d)) (samples st) /\
    parse_dump_list list_text = Some (map delay (samples st)) /\
    handler TSD_DUMP_HANDLER None st = Some (0, ReplyText text, st) /\
    lines text =
      map (fun p => decimal (fst p) ++ ": " ++ decimal (delay (snd p)))%string indexed /\
    parse_dump text =
      Some (combine (indices (length (samples st))) (map delay (samples st))).
Proof.
  intros Hwf Hdelays indexed.
  destruct (dump_loop TSD_DUMP_LIST_HANDLER st Hwf) as [Hlist _].
  destruct (dump_loop TSD_DUMP_HANDLER st Hwf) as [Hdump _].
  fold indexed in Hlist, Hdump.
  exists (text_of TSD_DUMP_LIST_HANDLER indexed), (text_of TSD_DUMP_HANDLER indexed).
  assert (Hsnd : map snd indexed = samples st) by apply combine_indices_snd.
  assert (Hpos : Forall (fun p => 0 <= fst p /\ 0 <= delay (snd p)) indexed).
  { apply Forall_forall. intros p Hp. split.
    - pose proof (combine_indices_bounds (samples st) 0%nat) as H.
      rewrite Forall_forall in H. now apply H.
    - unfold unsigned_delays in Hdelays. rewrite Forall_forall in Hdelays.
      apply Hdelays. rewrite <- Hsnd. now apply in_map. }
  repeat split.
  - unfold handler. cbn. now rewrite Hlist.
  - rewrite lines_text_of. rewrite <- Hsnd. now rewrite map_map.
  - unfold parse_dump_list. rewrite lines_text_of.
    rewrite <- Hsnd. rewrite map_map.
    apply parse_each_map. eapply Forall_impl; [|exact Hpos].
    intros p [_ Hd]. now apply parse_decimal_decimal.
  - unfold handler. cbn. now rewrite Hdump.
  - now rewrite lines_text_of.
  - unfold parse_dump. rewrite lines_text_of.
    unfold indices. rewrite <- combine_indices_map.
    apply parse_each_map. eapply Forall_impl; [|exact Hpos].
    intros p [Hi Hd]. now apply parse_indexed_line.
Qed.

Lemma dump_round_trip_witness :
  wf five_samples /\ unsigned_delays five_samples /\
  exists list_text text,
    handler TSD_DUMP_LIST_HANDLER None five_samples =
      Some (0, ReplyText list_text, five_samples) /\
    parse_dump_list list_text = Some [30; 10; 50; 20; 40] /\
    handler TSD_DUMP_HANDLER None five_samples =
      Some (0, ReplyText text, five_samples) /\
    parse_dump text = Some [(0, 30); (1, 10); (2, 50); (3, 20); (4, 40)].
Proof.
  assert (Hwf : wf five_samples) by exact five_samples_wf.
  assert (Hd : unsigned_delays five_samples).
  { unfold unsigned_delays. repeat constructor; simpl; lia. }
  split; [exact Hwf|]. split; [exact Hd|].
  destruct (dump_round_trip five_samples Hwf Hd)
    as [list_text [text [H1 [_ [H2 [H3 [_ H4]]]]]]].
  exists list_text, text. repeat split; assumption.
Defined.

(* ================================================================= *)
(** ** min_mean_max *)

(** The scan counts and sums the considered samples, and leaves its
    accumulator alone when there is none. *)
Lemma scan_considered (tc_filter : Z) (l : list Delay) :
  forall s,
    let s' := fold_left (fun a d => scan_step tc_filter d a) l s in
    scan_n s' = scan_n s + Z.of_nat (length (considered tc_filter l)) /\
    scan_sum s' = double_sum (scan_sum s) (considered tc_filter l) /\
    (considered tc_filter l = [] -> s' = s).
Proof.
  induction l as [|d l IH]; intros s; cbn [fold_left considered filter].
  - cbn. split; [lia|]. split; reflexivity.
  - specialize (IH (scan_step tc_filter d s)). cbv zeta in IH.
    destruct IH as [Hn [Hsum Hnil]]. fold (considered tc_filter l).
    unfold scan_step in *.
    destruct ((tc_filter >? -1) && negb (tc d =? tc_filter)); cbn [negb].
    + repeat split; assumption.
    + cbn [scan_n scan_sum] in *. split; [rewrite Hn; cbn [length]; lia|].
      split; [|discriminate].
      rewrite Hsum. reflexivity.
Qed.

(** What [min_mean_max] returns when called as the handlers call it, with
    [min = UINT_MAX] and [max = 0]: the mean is the running sum of the
    considered delays divided by their count when there is one, 0 on a store
    without samples, and NaN when the store has samples but none is
    considered. *)
Lemma min_mean_max_considered (st : TimestampDiff) (mean : double)
    (begin tc_filter : Z) :
  wf st -> 0 <= begin <= _nd st ->
  let c := considered tc_filter (skipn (Z.to_nat begin) (samples st)) in
  exists min m max,
    min_mean_max st UINT_MAX mean 0 begin tc_filter = Some (min, m, max) /\
    (c <> [] ->
       m = ddiv_unsigned (double_sum (Fin 0) c) (Z.of_nat (length c))) /\
    (_nd st = 0 -> min = 0 /\ m = Fin 0 /\ max = 0) /\
    (c = [] -> _nd st <> 0 -> min = 0 /\ m = NaN /\ max = 0).
Proof.
  intros Hwf Hb c. pose proof Hwf as [[Hn _] Hv].
  unfold min_mean_max.
  rewrite for_each_index_elements with (f := scan_step tc_filter) by lia.
  rewrite firstn_skipn_samples by lia.
  destruct (scan_considered tc_filter (skipn (Z.to_nat begin) (samples st))
              (mkScan (Fin 0) UINT_MAX 0 0)) as [Hcount [Hsum Hnil]].
  fold c in Hcount, Hsum, Hnil. cbn [scan_n scan_sum] in Hcount, Hsum.
  set (s := fold_left _ _ _) in *.
  exists (if scan_min s =? UINT_MAX then 0 else scan_min s),
         (if _nd st =? 0 then Fin 0
          else ddiv_unsigned (scan_sum s) (scan_n s)),
         (scan_max s).
  split; [destruct (_nd st =? 0); reflexivity|].
  split; [|split].
  - intros Hc. destruct (Z.eqb_spec (_nd st) 0) as [E|E].
    { exfalso. apply Hc. unfold c, samples. rewrite E. simpl.
      now rewrite skipn_nil. }
    rewrite Hsum, Hcount. reflexivity.
  - intros E. rewrite E. cbn [Z.eqb].
    assert (Hc : c = []).
    { unfold c, samples. rewrite E. simpl. now rewrite skipn_nil. }
    rewrite (Hnil Hc). cbn. auto.
  - intros Hc E. destruct (Z.eqb_spec (_nd st) 0); [contradiction|].
    rewrite (Hnil Hc). cbn. auto.
Qed.

(** C6, where the code departs from it.  The store holds one sample of
    class 0 and the mean of class 5 is asked for: no sample is considered,
    [min] and [max] come back 0, but the mean is 0.0 / 0, NaN, and [avg_tc]
    answers with it. *)
Theorem mean_of_absent_class_is_nan :
  considered 5 (samples one_sample) = [] /\
  min_mean_max one_sample UINT_MAX (Fin 0) 0 0 5 = Some (0, NaN, 0) /\
  handler TSD_AVG_TC_HANDLER (Some (mkParam None (Some 5) 0)) one_sample =
    Some (0, ReplyDouble NaN, one_sample).
Proof. repeat split. Qed.

(* ================================================================= *)
(** ** The stddev handler *)

(** C2, where the code departs from it.  On the delays 10 and 30 the
    population standard deviation about their mean 20 is sqrt(100); the
    [stddev] handler calls [standard_deviation] with the mean 0.0 it was
    initialised with and answers sqrt(500).  It also leaves [begin] out of
    the call: asked from index 1, where the only delay is 30 and the
    deviation 0, it answers sqrt(500) again. *)
Theorem stddev_handler_uses_mean_zero :
  (exists q, stddev_as_specified two_samples 0 = Some (Sqrt (Fin q)) /\ (q == 100)%Q) /\
  (exists q, handler TSD_STD_HANDLER None two_samples =
               Some (0, ReplyRoot (Sqrt (Fin q)), two_samples) /\ (q == 500)%Q) /\
  stddev_as_specified two_samples 1 = Some (Sqrt (Fin 0)) /\
  (exists q, handler TSD_STD_HANDLER (Some (mkParam None None 1)) two_samples =
               Some (0, ReplyRoot (Sqrt (Fin q)), two_samples) /\ (q == 500)%Q).
Proof.
  split; [|split; [|split]].
  - eexists. split; [vm_compute; reflexivity|]. reflexivity.
  - eexists. split; [vm_compute; reflexivity|]. reflexivity.
  - vm_compute. reflexivity.
  - eexists. split; [vm_compute; reflexivity|]. reflexivity.
Qed.

(* ================================================================= *)
(** ** Concurrent claims of slots *)

Section ConcurrentLists.

Import Concurrent.

Lemma update_split {A : Type} (l : list A) (n : nat) (x : A) :
nth_error l n = Some x ->
exists l1 l2, l = l1 ++ x :: l2 /\ length l1 = n /\
              forall y, update l n y = Some (l1 ++ y :: l2).
Proof.
revert n; induction l as [|a l IH]; intros [|n] H; simpl in H; try discriminate.
- inversion H; subst. exists [], l. repeat split.
- destruct (IH n H) as [l1 [l2 [-> [Hlen Hup]]]].
  exists (a :: l1), l2. repeat split; [simpl; congruence|].
  intros y. simpl. now rewrite Hup.
Qed.

Lemma update_nth_same {A : Type} (v v' : list A) (i : nat) (x : A) :
update v i x = Some v' -> nth_error v' i = Some x.
Proof.
revert i v'; induction v as [|a v IH]; intros [|i] v' H; simpl in H; try discriminate.
- now inversion H.
- destruct (update v i x) as [w|] eqn:E; [|discriminate].
  inversion H; subst. simpl. now apply IH.
Qed.

Lemma update_nth_other {A : Type} (v v' : list A) (i j : nat) (x : A) :
update v i x = Some v' -> j <> i -> nth_error v' j = nth_error v j.
Proof.
revert i j v'; induction v as [|a v IH]; intros [|i] j v' H Hj; simpl in H;
  try discriminate.
- inversion H; subst. destruct j; [congruence|reflexivity].
- destruct (update v i x) as [w|] eqn:E; [|discriminate].
  inversion H; subst. destruct j; [reflexivity|]. simpl. apply (IH i); auto.
Qed.

Lemma update_length {A : Type} (v v' : list A) (i : nat) (x : A) :
update v i x = Some v' -> length v' = length v.
Proof.
revert i v'; induction v as [|a v IH]; intros [|i] v' H; simpl in H; try discriminate.
- now inversion H.
- destruct (update v i x) as [w|] eqn:E; [|discriminate].
  inversion H; subst. simpl. f_equal. now apply (IH i).
Qed.

Lemma indices_S (n : nat) : indices (S n) = indices n ++ [Z.of_nat n].
Proof. unfold indices. now rewrite seq_S, map_app. Qed.

Lemma in_indices (n : nat) (i : Z) : In i (indices n) <-> 0 <= i < Z.of_nat n.
Proof.
unfold indices. rewrite in_map_iff. split.
- intros [k [<- Hk]]. apply in_seq in Hk. lia.
- intros Hi. exists (Z.to_nat i). split; [lia|]. apply in_seq. lia.
Qed.

Lemma NoDup_indices (n : nat) : NoDup (indices n).
Proof.
unfold indices. apply Finite.Injective_map_NoDup; [|apply seq_NoDup].
intros a b. apply Nat2Z.inj.
Qed.

Lemma claimed_indices_length (ts : list Thread) :
(length (claimed_indices ts) <= length ts)%nat.
Proof.
induction ts as [|t ts IH]; simpl; [lia|].
rewrite length_app. destruct (claimed t); simpl; lia.
Qed.

Lemma claimed_indices_split (l1 l2 : list Thread) (t : Thread) :
claimed_indices (l1 ++ t :: l2) =
claimed_indices l1 ++
match claimed t with Some i => [i] | None => [] end ++ claimed_indices l2.
Proof. unfold claimed_indices. now rewrite flat_map_app. Qed.

Lemma claimed_in_indices (ts : list Thread) (t : Thread) (i : Z) :
In t ts -> claimed t = Some i -> In i (claimed_indices ts).
Proof.
intros Ht Hi. unfold claimed_indices. apply in_flat_map.
exists t. split; [exact Ht|]. rewrite Hi. now left.
Qed.

Lemma all_written_indices (ts : list Thread) :
forallb is_written ts = true ->
map claimed ts = map Some (claimed_indices ts) /\
length (claimed_indices ts) = length ts.
Proof.
induction ts as [|t ts IH]; simpl; [auto|].
intros H. apply andb_prop in H as [Ht H]. destruct (IH H) as [IH1 IH2].
destruct t; try discriminate. simpl. split; congruence.
Qed.

End ConcurrentLists.

Lemma update_app {A : Type} (l1 l2 : list A) (x y : A) :
  update (l1 ++ x :: l2) (length l1) y = Some (l1 ++ y :: l2).
Proof. induction l1 as [|a l1 IH]; simpl; [reflexivity|]. now rewrite IH. Qed.

Lemma nth_error_middle {A : Type} (l1 l2 : list A) (x : A) :
  nth_error (l1 ++ x :: l2) (length l1) = Some x.
Proof. induction l1 as [|a l1 IH]; simpl; auto. Qed.

Lemma claimed_indices_ready (w : list Delay) :
  Concurrent.claimed_indices (map Concurrent.Ready w) = [].
Proof. induction w as [|s w IH]; simpl; auto. Qed.

Section ConcurrentClaims.

Import Concurrent.

Variables (limit : Z) (work : list Delay).
Hypothesis Hlimit : Z.of_nat (length work) <= limit < 2 ^ 32.

Lemma invariant_initial : invariant limit work (initial limit work).
Proof.
  unfold invariant, initial; cbn [fst snd counter storage].
  rewrite repeat_length. repeat split; try lia.
  - rewrite claimed_indices_ready. constructor.
  - rewrite map_map. cbn [sample_of]. apply map_id.
  - apply Forall_forall. intros t Ht. apply in_map_iff in Ht as [s [<- _]].
    exact I.
Qed.

(** The counter equals the number of claims, which the number of
    operations bounds. *)
Lemma counter_bound (c : Config) :
  invariant limit work c ->
  counter (fst c) = Z.of_nat (length (claimed_indices (snd c))) /\
  length (snd c) = length work.
Proof.
  intros [_ [H0 [Hperm [Hwork _]]]]. split.
  - rewrite (Permutation_length Hperm). unfold indices.
    rewrite length_map, length_seq. lia.
  - rewrite <- Hwork. now rewrite length_map.
Qed.

Lemma claimed_index_bounds (c : Config) (t : Thread) (i : Z) :
  invariant limit work c -> In t (snd c) -> claimed t = Some i ->
  0 <= i < counter (fst c) /\ counter (fst c) <= Z.of_nat (length work).
Proof.
  intros Hinv Ht Hi. destruct (counter_bound c Hinv) as [Hc Hlen].
  destruct Hinv as [_ [H0 [Hperm _]]].
  pose proof (claimed_in_indices _ _ _ Ht Hi) as Hin.
  apply (Permutation_in _ Hperm) in Hin. apply in_indices in Hin.
  pose proof (claimed_indices_length (snd c)). lia.
Qed.

Lemma invariant_step (c c' : Config) (tid : nat) :
  invariant limit work c -> step c tid = Some c' -> invariant limit work c'.
Proof.
  intros Hinv Hstep. destruct (counter_bound c Hinv) as [Hc Hlen].
  pose proof Hinv as [Hstore [H0 [Hperm [Hwork Hok]]]].
  destruct c as [sh ts]. unfold step in Hstep. cbn [fst snd] in *.
  destruct (nth_error ts tid) as [t|] eqn:Ht; [|discriminate].
  destruct (update_split ts tid t Ht) as [l1 [l2 [Hts [Hl1 Hup]]]].
  assert (Hin : In t ts) by (subst ts; apply in_elt).
  destruct t as [s|i s|i s]; cbn [step_thread fetch_and_add] in Hstep.
  - (* the claim: fetch_and_add *)
    rewrite Hup in Hstep. inversion Hstep; subst c'; clear Hstep.
    rewrite Hts, claimed_indices_split in Hperm, Hc. cbn [claimed app] in Hperm, Hc.
    assert (Hroom : counter sh + 1 < 2 ^ 32).
    { pose proof (claimed_indices_length l1). pose proof (claimed_indices_length l2).
      rewrite Hts in Hlen. rewrite length_app in Hlen, Hc. cbn [length] in Hlen. lia. }
    unfold invariant; cbn [fst snd counter storage].
    unfold to_uint32. rewrite Z.mod_small by lia.
    repeat split; try lia.
    + rewrite claimed_indices_split. cbn [claimed app].
      replace (Z.to_nat (counter sh + 1)) with (S (Z.to_nat (counter sh))) by lia.
      rewrite indices_S, Z2Nat.id by lia.
      rewrite <- Permutation_middle, <- Permutation_cons_append.
      now constructor.
    + rewrite <- Hwork, Hts, !map_app. reflexivity.
    + rewrite Hts in Hok. apply Forall_app in Hok as [Hok1 Hok2].
      apply Forall_app. split; [exact Hok1|].
      inversion Hok2; subst. constructor; [exact I|assumption].
  - (* the write *)
    destruct (claimed_index_bounds (sh, ts) (Claimed i s) i Hinv Hin eq_refl)
      as [Hi _]. cbn [fst] in Hi.
    destruct (update (storage sh) (Z.to_nat i) s) as [v'|] eqn:Hv; [|discriminate].
    cbn [option_map] in Hstep. rewrite Hup in Hstep.
    inversion Hstep; subst c'; clear Hstep.
    unfold invariant; cbn [fst snd counter storage].
    assert (Hnodup : NoDup (claimed_indices ts)).
    { apply (Permutation_NoDup (Permutation_sym Hperm)). apply NoDup_indices. }
    repeat split; try lia.
    + rewrite (update_length _ _ _ _ Hv). exact Hstore.
    + rewrite Hts in Hperm. rewrite claimed_indices_split in *. exact Hperm.
    + rewrite <- Hwork, Hts, !map_app. reflexivity.
    + rewrite Hts, claimed_indices_split in Hnodup. cbn [claimed app] in Hnodup.
      apply NoDup_remove_2 in Hnodup.
      assert (Hkeep : forall t', In t' (l1 ++ l2) ->
                written_ok (storage sh) t' -> written_ok v' t').
      { intros [x|j x|j x] Hin' Hw; cbn [written_ok] in *; try exact I.
        assert (j <> i).
        { intros ->. apply Hnodup. apply in_or_app.
          apply in_app_or in Hin' as [Hin'|Hin']; [left|right];
            now apply (claimed_in_indices _ (Written i x)). }
        unfold at_index in *. destruct (Z.ltb_spec j 0); [discriminate|].
        rewrite (update_nth_other _ _ _ _ _ Hv); [exact Hw|lia]. }
      rewrite Hts in Hok. apply Forall_app in Hok as [Hok1 Hok2].
      inversion Hok2 as [|? ? _ Hok2']; subst.
      apply Forall_app. split; [|constructor].
      * apply Forall_forall. intros t' Ht'. apply Hkeep.
        { apply in_or_app. now left. }
        rewrite Forall_forall in Hok1. now apply Hok1.
      * cbn [written_ok]. unfold at_index.
        destruct (Z.ltb_spec i 0); [lia|]. now apply (update_nth_same _ _ _ _ Hv).
      * apply Forall_forall. intros t' Ht'. apply Hkeep.
        { apply in_or_app. now right. }
        rewrite Forall_forall in Hok2'. now apply Hok2'.
  - discriminate.
Qed.

Lemma invariant_run (schedule : list nat) :
  forall c c',
    invariant limit work c -> run c schedule = Some c' -> invariant limit work c'.
Proof.
  induction schedule as [|tid rest IH]; intros c c' Hinv Hrun; simpl in Hrun.
  - inversion Hrun; subst. exact Hinv.
  - destruct (step c tid) as [c1|] eqn:Hstep; [|discriminate].
    apply (IH c1); [|exact Hrun]. now apply (invariant_step c c1 tid).
Qed.

(** An operation that has not finished can always take its next step: a
    claimed slot lies inside the storage. *)
Lemma step_defined (c : Config) (tid : nat) (t : Thread) :
  invariant limit work c -> nth_error (snd c) tid = Some t ->
  is_written t = false -> exists c', step c tid = Some c'.
Proof.
  intros Hinv Ht Hw. unfold step. rewrite Ht.
  destruct (update_split _ _ _ Ht) as [l1 [l2 [Hts [_ Hup]]]].
  assert (Hin : In t (snd c)) by (rewrite Hts; apply in_elt).
  destruct t as [s|i s|i s]; [| |discriminate]; cbn [step_thread fetch_and_add].
  - rewrite Hup. cbn. eauto.
  - destruct (claimed_index_bounds c (Claimed i s) i Hinv Hin eq_refl) as [Hi Hc].
    destruct Hinv as [Hstore _].
    destruct (update_defined (storage (fst c)) (Z.to_nat i) s) as [v' ->]; [lia|].
    cbn. rewrite Hup. cbn. eauto.
Qed.

(** An operation that is scheduled twice in a row claims its slot and
    writes its sample. *)
Lemma run_one_operation (sh : Shared) (done more : list Thread) (s : Delay) :
  invariant limit work (sh, done ++ Ready s :: more) ->
  exists sh' i,
    run (sh, done ++ Ready s :: more) [length done; length done] =
    Some (sh', done ++ Written i s :: more).
Proof.
  intros Hinv. cbn [run].
  assert (Hstep : step (sh, done ++ Ready s :: more) (length done) =
                  Some (mkShared (to_uint32 (counter sh + 1)) (storage sh),
                        done ++ Claimed (counter sh) s :: more)).
  { unfold step. cbn [fst snd]. rewrite nth_error_middle.
    cbn [step_thread fetch_and_add]. now rewrite update_app. }
  rewrite Hstep.
  pose proof (invariant_step _ _ _ Hinv Hstep) as Hinv1.
  destruct (claimed_index_bounds _ (Claimed (counter sh) s) (counter sh)
              Hinv1 ltac:(apply in_elt) eq_refl) as [Hi Hc].
  destruct Hinv1 as [Hstore _]. cbn [fst snd counter storage] in *.
  destruct (update_defined (storage sh) (Z.to_nat (counter sh)) s) as [v' Hv]; [lia|].
  exists (mkShared (to_uint32 (counter sh + 1)) v'), (counter sh).
  unfold step. cbn [fst snd]. rewrite nth_error_middle.
  cbn [step_thread counter storage]. rewrite Hv. cbn [option_map].
  now rewrite update_app.
Qed.

Lemma run_sequential (rest : list Delay) :
  forall (sh : Shared) (done : list Thread),
    invariant limit work (sh, done ++ map Ready rest) ->
    forallb is_written done = true ->
    exists sh' ts',
      run (sh, done ++ map Ready rest)
          (flat_map (fun tid => [tid; tid]) (seq (length done) (length rest))) =
      Some (sh', ts') /\
      forallb is_written ts' = true.
Proof.
  induction rest as [|s rest IH]; intros sh done Hinv Hdone.
  - exists sh, (done ++ []). split; [reflexivity|].
    now rewrite app_nil_r.
  - cbn [map length seq flat_map app] in *.
    destruct (run_one_operation sh done (map Ready rest) s Hinv) as [sh' [i Hrun]].
    cbn [run] in Hrun |- *.
    destruct (step (sh, done ++ Ready s :: map Ready rest) (length done))
      as [c1|] eqn:H1; [|discriminate].
    destruct (step c1 (length done)) as [c2|] eqn:H2; [|discriminate].
    inversion Hrun; subst c2; clear Hrun.
    assert (Hinv2 : invariant limit work (sh', (done ++ [Written i s]) ++ map Ready rest)).
    { rewrite <- app_assoc. cbn [app].
      apply (invariant_step c1 _ (length done)); [|exact H2].
      now apply (invariant_step _ c1 (length done) Hinv). }
    destruct (IH sh' (done ++ [Written i s]) Hinv2) as [sh'' [ts' [Hrun' Hall]]].
    { rewrite forallb_app, Hdone. reflexivity. }
    rewrite length_app in Hrun'. cbn [length] in Hrun'.
    replace (length done + 1)%nat with (S (length done)) in Hrun' by lia.
    rewrite <- app_assoc in Hrun'. cbn [app] in Hrun'.
    exists sh'', ts'. now split.
Qed.

(** The sequential schedule runs all operations to completion. *)
Lemma sequential_completes :
  exists sh ts,
    run (initial limit work) (sequential (length work)) = Some (sh, ts) /\
    forallb is_written ts = true.
Proof.
  apply (run_sequential work (mkShared 0 (repeat (mkDelay 0 0) (Z.to_nat limit))) []).
  - apply invariant_initial.
  - reflexivity.
Qed.

End ConcurrentClaims.

(** C7.  In Bounded mode, let N ingestion operations run their storing
    branch against an empty store of capacity at least N, their steps
    interleaved in any order.  At every point the slot indices returned by
    [fetch_and_add] so far are pairwise distinct and are exactly the indices
    below the counter, and an unfinished operation can take its next step.
    Once all N have finished, the N indices are a rearrangement of
    [0, N): none twice, none missing; the counter is N; and every operation
    finds its own sample in the slot it claimed, so no write was lost to a
    collision. *)
Theorem concurrent_claims_distinct_and_gapless (limit : Z) (work : list Delay)
    (schedule : list nat) (sh : Concurrent.Shared) (ts : list Concurrent.Thread) :
  Z.of_nat (length work) <= limit < 2 ^ 32 ->
  Concurrent.run (Concurrent.initial limit work) schedule = Some (sh, ts) ->
  let slots := Concurrent.claimed_indices ts in
  (NoDup slots /\
   Permutation slots (indices (Z.to_nat (Concurrent.counter sh))) /\
   forall tid t, nth_error ts tid = Some t -> Concurrent.is_written t = false ->
                 exists c', Concurrent.step (sh, ts) tid = Some c') /\
  (forallb Concurrent.is_written ts = true ->
   map Concurrent.claimed ts = map Some slots /\
   length slots = length work /\
   Permutation slots (indices (length work)) /\
   Concurrent.counter sh = Z.of_nat (length work) /\
   forall tid i s,
     nth_error ts tid = Some (Concurrent.Written i s) ->
     nth_error work tid = Some s /\ at_index (Concurrent.storage sh) i = Some s).
Proof.
  intros Hlimit Hrun slots.
  pose proof (invariant_run limit work Hlimit schedule _ _
                (invariant_initial limit work Hlimit) Hrun) as Hinv.
  destruct (counter_bound limit work (sh, ts) Hinv) as [Hc Hlen].
  pose proof Hinv as [_ [H0 [Hperm [Hwork Hok]]]]. cbn [fst snd] in *.
  split.
  - split; [|split].
    + apply (Permutation_NoDup (Permutation_sym Hperm)). apply NoDup_indices.
    + exact Hperm.
    + intros tid t Ht Hw. now apply (step_defined limit work Hlimit (sh, ts) tid t).
  - intros Hall. destruct (all_written_indices ts Hall) as [Hmap Hslots].
    fold slots in Hc, Hmap, Hslots, Hperm.
    assert (Hn : Concurrent.counter sh = Z.of_nat (length work)) by lia.
    split; [exact Hmap|]. split; [lia|]. split.
    { rewrite Hn, Nat2Z.id in Hperm. exact Hperm. }
    split; [exact Hn|].
    intros tid i s Ht. split.
    + rewrite <- Hwork, nth_error_map, Ht. reflexivity.
    + rewrite Forall_forall in Hok.
      apply (Hok (Concurrent.Written i s)). eapply nth_error_In; eauto.
Qed.

Lemma concurrent_claims_witness :
  exists sh ts,
    Concurrent.run (Concurrent.initial 3 (untagged [7; 8; 9])) [2; 0; 0; 1; 2; 1]%nat
      = Some (sh, ts) /\
    Concurrent.claimed_indices ts = [1; 2; 0] /\
    NoDup (Concurrent.claimed_indices ts) /\
    Permutation (Concurrent.claimed_indices ts) (indices 3).
Proof.
  eexists _, _. split; [vm_compute; reflexivity|]. split; [reflexivity|].
  match goal with
  | |- NoDup (Concurrent.claimed_indices ?ts) /\ _ =>
      destruct (concurrent_claims_distinct_and_gapless 3 (untagged [7; 8; 9])
                  [2; 0; 0; 1; 2; 1]%nat
                  (Concurrent.mkShared 3 (untagged [9; 7; 8])) ts
                  ltac:(simpl; lia) ltac:(vm_compute; reflexivity))
        as [[Hnodup _] Hdone]
  end.
  split; [exact Hnodup|].
  destruct (Hdone eq_refl) as [_ [_ [Hperm _]]]. exact Hperm.
Defined.

(* ================================================================= *)
(** ** The store under ingestion *)

Lemma update_inv {A : Type} (l l' : list A) (n : nat) (y : A) :
  update l n y = Some l' ->
  exists l1 x l2, l = l1 ++ x :: l2 /\ length l1 = n /\ l' = l1 ++ y :: l2.
Proof.
  revert n l'; induction l as [|a l IH]; intros [|n] l' H; simpl in H; try discriminate.
  - inversion H; subst. now exists [], a, l.
  - destruct (update l n y) as [w|] eqn:E; [|discriminate].
    inversion H; subst. destruct (IH n w E) as [l1 [x [l2 [-> [Hlen ->]]]]].
    exists (a :: l1), x, l2. simpl. repeat split; congruence.
Qed.

Lemma mode_ok_wf (st : TimestampDiff) : mode_ok st -> wf st.
Proof.
  intros [Hnd Hmode]. split; [exact Hnd|].
  destruct (_limit st =? 0); lia.
Qed.

Lemma same_configuration_refl (st : TimestampDiff) : same_configuration st st.
Proof. unfold same_configuration. now destruct st. Qed.

Lemma same_configuration_trans (a b c : TimestampDiff) :
  same_configuration a b -> same_configuration b c -> same_configuration a c.
Proof.
  unfold same_configuration. intros Hab Hbc. rewrite Hbc. rewrite Hab at 1.
  reflexivity.
Qed.

Lemma same_configuration_admissible (st st' : TimestampDiff) (d : Delay) :
  same_configuration st st' -> admissible st d -> admissible st' d.
Proof. unfold same_configuration. intros ->. exact (fun H => H). Qed.

(** The storing branch puts the sample at the end of the visible samples,
    in either mode. *)
Lemma store_sample_appends (st st' : TimestampDiff) (p : Packet) (usec : Z) :
  mode_ok st -> _nd st + 1 < 2 ^ 32 ->
  store_sample st p usec = Some st' ->
  exists tag,
    class_tag st p = Some tag /\
    samples st' = samples st ++ [mkDelay usec tag] /\
    mode_ok st' /\ same_configuration st st'.
Proof.
  intros [Hnd Hmode] Hroom. unfold store_sample, fetch_and_add.
  fold (class_tag st p). destruct (class_tag st p) as [tag|]; [|discriminate].
  assert (Hnext : to_uint32 (_nd st + 1) = _nd st + 1).
  { unfold to_uint32. destruct Hnd. apply Z.mod_small. lia. }
  rewrite Hnext. destruct Hnd as [Hnd0 Hnd1].
  destruct (Z.eqb_spec (_limit st) 0) as [E|E]; cbn [negb].
  - intros H. inversion H; subst st'; clear H. exists tag.
    split; [reflexivity|]. split; [|split].
    + unfold samples. cbn [set_delays set_nd _delays _nd].
      rewrite firstn_all2 by (rewrite length_app; cbn; lia).
      now rewrite firstn_all2 by lia.
    + unfold mode_ok, is_uint32. cbn [set_delays set_nd _delays _nd _limit].
      destruct (Z.eqb_spec (_limit st) 0); [|contradiction].
      rewrite length_app. cbn [length]. lia.
    + unfold same_configuration. reflexivity.
  - destruct (update (_delays st) (Z.to_nat (_nd st)) (mkDelay usec tag))
      as [v|] eqn:Hv; [|discriminate].
    intros H. inversion H; subst st'; clear H. exists tag.
    destruct (update_inv _ _ _ _ Hv) as [l1 [x [l2 [Hl [Hlen ->]]]]].
    destruct Hmode as [Hcap Hle]. rewrite Hl, length_app in Hcap. cbn [length] in Hcap.
    split; [reflexivity|]. split; [|split].
    + unfold samples. cbn [set_delays set_nd _delays _nd]. rewrite Hl.
      replace (Z.to_nat (_nd st + 1)) with (length l1 + 1)%nat by lia.
      rewrite firstn_app_2. cbn [firstn].
      replace (Z.to_nat (_nd st)) with (length l1 + 0)%nat by lia.
      rewrite firstn_app_2. cbn [firstn]. now rewrite app_nil_r.
    + unfold mode_ok, is_uint32. cbn [set_delays set_nd _delays _nd _limit].
      destruct (Z.eqb_spec (_limit st) 0); [contradiction|].
      rewrite length_app. cbn [length]. lia.
    + unfold same_configuration. reflexivity.
Qed.

Lemma admissible_stored (st : TimestampDiff) (p : Packet) (now old : Timestamp)
    (tag : Z) :
  class_tag st p = Some tag ->
  usec_of st now old <= max_delay_of st ->
  admissible st (mkDelay (usec_of st now old) tag).
Proof.
  intros Htag Hmax. pose proof (usec_is_uint32 st now old) as [H0 _].
  split; [cbn; lia|]. cbn [tc]. unfold class_tag in Htag.
  destruct (_tc_offset st >=? 0).
  - destruct (at_index _ _) as [b|]; [|discriminate]. inversion Htag; subst.
    now rewrite <- Z.land_assoc, Z.land_diag.
  - inversion Htag; subst. apply Z.land_0_l.
Qed.

(** [smaction] only appends, and what it appends is admissible. *)
Lemma smaction_append_only (st st' : TimestampDiff) (now : Timestamp) (p : Packet)
    (port : Z) (log : list Chatter) :
  mode_ok st -> _nd st + 1 < 2 ^ 32 ->
  smaction st now p = Some (port, st', log) ->
  mode_ok st' /\ same_configuration st st' /\
  exists l,
    samples st' = samples st ++ l /\ (length l <= 1)%nat /\
    Forall (admissible st) l.
Proof.
  intros Hmode Hroom Hsm.
  assert (Hsame : st' = st ->
    mode_ok st' /\ same_configuration st st' /\
    exists l, samples st' = samples st ++ l /\ (length l <= 1)%nat /\
              Forall (admissible st) l).
  { intros ->. split; [exact Hmode|]. split; [apply same_configuration_refl|].
    exists []. rewrite app_nil_r. repeat split; auto. }
  unfold smaction in Hsm.
  destruct (read_number_of_packet _ _ _) as [i|]; [|discriminate].
  destruct (_rt st i) as [old|]; [|apply Hsame; congruence].
  destruct (if negb (_sample st =? 1)
            then if _sample st =? 0 then None
                 else Some (negb (to_uint32 i mod _sample st =? 0))
            else Some false) as [[|]|]; [| |discriminate].
  { apply Hsame; congruence. }
  destruct (Z.gtb_spec (usec_of st now old) (max_delay_of st)) as [Hover|Hin].
  { destruct (_verbose st); apply Hsame; congruence. }
  destruct (store_sample st p (usec_of st now old)) as [st1|] eqn:Hstore;
    [|discriminate].
  inversion Hsm; subst; clear Hsm.
  destruct (store_sample_appends st st' p _ Hmode Hroom Hstore)
    as [tag [Htag [Happ [Hmode' Hconf]]]].
  split; [exact Hmode'|]. split; [exact Hconf|].
  exists [mkDelay (usec_of st now old) tag]. split; [exact Happ|].
  split; [cbn; lia|]. constructor; [|constructor].
  now apply (admissible_stored st p).
Qed.

(** X1.  [smaction] only ever appends: whatever it returns, the element
    keeps its configuration and its mode invariant, and the visible samples
    afterwards are those before followed by at most one new sample, whose
    delay is within the threshold and whose tag is within the mask. *)
Theorem smaction_appends (st st' : TimestampDiff) (now : Timestamp) (p : Packet)
    (port : Z) (log : list Chatter) :
  mode_ok st -> _nd st + 1 < 2 ^ 32 ->
  smaction st now p = Some (port, st', log) ->
  mode_ok st' /\ same_configuration st st' /\
  exists l,
    samples st' = samples st ++ l /\ (length l <= 1)%nat /\
    Forall (admissible st) l.
Proof. exact (smaction_append_only st st' now p port log). Qed.

Lemma smaction_appends_witness :
  exists st' l,
    smaction element_sampling_3 5000 (packet_of 9) = Some (0, st', []) /\
    samples st' = samples element_sampling_3 ++ l /\ (length l <= 1)%nat.
Proof.
  assert (Hmode : mode_ok element_sampling_3).
  { unfold mode_ok, is_uint32; simpl. repeat split; lia. }
  assert (E : smaction element_sampling_3 5000 (packet_of 9) =
              Some (0, set_delays (set_nd element_sampling_3 1) [mkDelay 5 0], []))
    by (vm_compute; reflexivity).
  destruct (smaction_appends element_sampling_3 _ 5000 (packet_of 9) 0 [] Hmode
              ltac:(vm_compute; reflexivity) E) as [_ [_ [l [Hl [Hlen _]]]]].
  eexists _, l. split; [exact E|]. split; [exact Hl|exact Hlen].
Defined.

(** X2.  A packet that passes every gate of [smaction] (a recorded
    timestamp, the sampling test, a delay within the threshold) is stored
    at the end of the visible samples, with the delay [usec] and the class
    tag read from the packet, and leaves for port 0 without a line
    written. *)
Theorem smaction_stores (st : TimestampDiff) (now : Timestamp) (p : Packet)
    (i : Z) (old : Timestamp) :
  sequence_number st p = Some i -> _rt st i = Some old ->
  _sample st = 1 \/ (_sample st <> 0 /\ to_uint32 i mod _sample st = 0) ->
  usec_of st now old <= max_delay_of st ->
  storable st p -> mode_ok st -> _nd st + 1 < 2 ^ 32 ->
  exists tag st',
    class_tag st p = Some tag /\
    smaction st now p = Some (normal_output, st', []) /\
    samples st' = samples st ++ [mkDelay (usec_of st now old) tag] /\
    _nd st' = _nd st + 1.
Proof.
  intros Hi Hold Hsample Hdelay Hst Hmode Hroom.
  destruct (store_sample_defined st p (usec_of st now old) Hst)
    as [st' [Hstore [Hnd _]]].
  destruct (store_sample_appends st st' p _ Hmode Hroom Hstore)
    as [tag [Htag [Happ _]]].
  exists tag, st'. split; [exact Htag|]. split; [|split; [exact Happ|]].
  - rewrite (smaction_recorded st now p i old Hi Hold)
      by (destruct Hsample as [E|[E _]]; [rewrite E; discriminate|exact E]).
    replace (negb (_sample st =? 1) && negb (to_uint32 i mod _sample st =? 0))
      with false.
    + destruct (Z.gtb_spec (usec_of st now old) (max_delay_of st)); [lia|].
      now rewrite Hstore.
    + destruct Hsample as [E|[_ E]]; rewrite E; [reflexivity|].
      cbn. now rewrite andb_false_r.
  - rewrite Hnd. unfold to_uint32. destruct Hmode as [[H0 _] _].
    apply Z.mod_small. lia.
Qed.

Lemma smaction_stores_witness :
  exists st',
    smaction element_sampling_3 5000 (packet_of 6) = Some (normal_output, st', []) /\
    samples st' = [mkDelay 5 0] /\ _nd st' = 1.
Proof.
  assert (Hst : storable element_sampling_3 (packet_of 6)).
  { unfold storable, is_uint32; simpl. repeat split; lia. }
  assert (Hmode : mode_ok element_sampling_3).
  { unfold mode_ok, is_uint32; simpl. repeat split; lia. }
  destruct (smaction_stores element_sampling_3 5000 (packet_of 6) 6 0
              eq_refl eq_refl
              ltac:(right; split; [discriminate|reflexivity])
              ltac:(vm_compute; discriminate) Hst Hmode
              ltac:(vm_compute; reflexivity))
    as [tag [st' [Htag [E [Happ Hnd]]]]].
  exists st'. split; [exact E|]. split; [|exact Hnd].
  rewrite Happ. vm_compute in Htag. inversion Htag; subst. reflexivity.
Defined.

(** C10.  With a sampling rate [k > 1], the multiple-of-[k] test of
    [smaction] reads the sequence number truncated to 32 bits: a storable
    packet with a recorded timestamp and a delay within the maximum is
    recorded, its sample written at the end of the visible samples and the
    counter advanced, exactly when [(i mod 2^32) mod k = 0], and is skipped,
    the element staying as it was, exactly when it is not.  So a sequence
    number [i >= 2^32] whose low 32 bits are a multiple of [k] is recorded
    whether or not [i] is a multiple of [k]. *)
Theorem sampling_tests_low_32_bits (st : TimestampDiff) (now : Timestamp)
    (p : Packet) (i : Z) (old : Timestamp) :
  sequence_number st p = Some i -> _rt st i = Some old -> 1 < _sample st ->
  usec_of st now old <= max_delay_of st -> storable st p ->
  mode_ok st -> _nd st + 1 < 2 ^ 32 ->
  exists tag st',
    class_tag st p = Some tag /\
    samples st' = samples st ++ [mkDelay (usec_of st now old) tag] /\
    _nd st' = _nd st + 1 /\
    (smaction st now p = Some (normal_output, st', []) <->
     (i mod 2 ^ 32) mod _sample st = 0) /\
    (smaction st now p = Some (normal_output, st, []) <->
     (i mod 2 ^ 32) mod _sample st <> 0) /\
    (2 ^ 32 <= i -> (i mod 2 ^ 32) mod _sample st = 0 ->
     smaction st now p = Some (normal_output, st', [])).
Proof.
  intros Hi Hold Hk Hdelay Hst Hmode Hroom.
  destruct (store_sample_defined st p (usec_of st now old) Hst)
    as [st' [Hstore [Hnd Hneq]]].
  destruct (store_sample_appends st st' p _ Hmode Hroom Hstore)
    as [tag [Htag [Happ _]]].
  assert (Hnd' : _nd st' = _nd st + 1).
  { rewrite Hnd. unfold to_uint32. destruct Hmode as [[H0 _] _].
    apply Z.mod_small. lia. }
  exists tag, st'. split; [exact Htag|]. split; [exact Happ|].
  split; [exact Hnd'|].
  rewrite (smaction_recorded st now p i old Hi Hold) by lia.
  fold (to_uint32 i).
  destruct (Z.eqb_spec (_sample st) 1); [lia|].
  destruct (Z.gtb_spec (usec_of st now old) (max_delay_of st)); [lia|].
  rewrite Hstore.
  destruct (Z.eqb_spec (to_uint32 i mod _sample st) 0) as [E|E]; cbn.
  - repeat split; auto; congruence.
  - repeat split; auto; congruence.
Qed.

Lemma sampling_tests_low_32_bits_witness :
  (2 ^ 32 + 3) mod 3 <> 0 /\
  exists st',
    smaction element_sampling_3 5000 (packet_of (2 ^ 32 + 3)) =
      Some (normal_output, st', []) /\
    samples st' = [mkDelay 5 0] /\ _nd st' = 1.
Proof.
  split; [vm_compute; discriminate|].
  assert (Hst : storable element_sampling_3 (packet_of (2 ^ 32 + 3))).
  { unfold storable, is_uint32; simpl. repeat split; lia. }
  assert (Hmode : mode_ok element_sampling_3).
  { unfold mode_ok, is_uint32; simpl. repeat split; lia. }
  destruct (sampling_tests_low_32_bits element_sampling_3 5000
              (packet_of (2 ^ 32 + 3)) (2 ^ 32 + 3) 0 eq_refl eq_refl
              ltac:(vm_compute; reflexivity) ltac:(vm_compute; discriminate)
              Hst Hmode ltac:(vm_compute; reflexivity))
    as [tag [st' [Htag [Happ [Hnd [_ [_ H]]]]]]].
  assert (Et : tag = 0) by (vm_compute in Htag; now inversion Htag).
  subst tag.
  exists st'. split; [|split; [exact Happ|exact Hnd]].
  apply H; [vm_compute; discriminate|reflexivity].
Defined.

Lemma push_port (st st' : TimestampDiff) (now : Timestamp) (p : Packet)
    (log : list Chatter) (out : Z * Packet) :
  push st now p = Some (st', log, out) ->
  smaction st now p = Some (fst out, st', log) /\ snd out = p /\
  (fst out = 0 \/ fst out = 1).
Proof.
  unfold push. destruct (smaction st now p) as [[[o s] l]|] eqn:E; [|discriminate].
  cbn. intros H. inversion H; subst; clear H. cbn. repeat split.
  unfold smaction in E.
  destruct (read_number_of_packet _ _ _) as [i|]; [|discriminate].
  destruct (_rt st i) as [old|]; [|inversion E; auto].
  destruct (if negb (_sample st =? 1)
            then if _sample st =? 0 then None
                 else Some (negb (to_uint32 i mod _sample st =? 0))
            else Some false) as [[|]|]; [inversion E; auto| |discriminate].
  destruct (usec_of st now old >? max_delay_of st).
  - destruct (_verbose st); inversion E; auto.
  - destruct (store_sample _ _ _); [|discriminate]. inversion E; auto.
Qed.

(** X3.  However many packets are pushed, the store only grows at its end
    and stays admissible: after a run of [push] the element has its
    configuration and mode invariant, the visible samples are those before
    followed by at most one sample per packet, every sample has a delay
    within the threshold and a tag within the mask, and every packet has
    been handed on once, unchanged and in arrival order, for port 0 or 1. *)
Theorem push_each_keeps_store (arrivals : list (Timestamp * Packet)) :
  forall (st st' : TimestampDiff) (log : list Chatter) (outs : list (Z * Packet)),
    mode_ok st -> _nd st + Z.of_nat (length arrivals) < 2 ^ 32 ->
    Forall (admissible st) (samples st) ->
    push_each st arrivals = Some (st', log, outs) ->
    mode_ok st' /\ same_configuration st st' /\
    Forall (admissible st') (samples st') /\
    (exists l, samples st' = samples st ++ l /\
               (length l <= length arrivals)%nat) /\
    map snd outs = map snd arrivals /\
    Forall (fun out => fst out = 0 \/ fst out = 1) outs.
Proof.
  induction arrivals as [|[now p] rest IH]; intros st st' log outs Hmode Hroom Hadm Hrun.
  - cbn in Hrun. inversion Hrun; subst. split; [exact Hmode|].
    split; [apply same_configuration_refl|]. split; [exact Hadm|].
    split; [exists []; now rewrite app_nil_r|]. split; [reflexivity|constructor].
  - cbn [push_each] in Hrun. cbn [length] in Hroom.
    destruct (push st now p) as [[[st1 log1] out]|] eqn:Hpush; [|discriminate].
    destruct (push_each st1 rest) as [[[st2 log2] outs2]|] eqn:Hrest; [|discriminate].
    inversion Hrun; subst; clear Hrun.
    destruct (push_port _ _ _ _ _ _ Hpush) as [Hsm [Hp Hport]].
    destruct (smaction_append_only st st1 now p _ _ Hmode ltac:(lia) Hsm)
      as [Hmode1 [Hconf1 [l1 [Happ1 [Hlen1 Hadm1]]]]].
    pose proof (length_samples st (mode_ok_wf st Hmode)) as Hn.
    pose proof (length_samples st1 (mode_ok_wf st1 Hmode1)) as Hn1.
    rewrite Happ1, length_app in Hn1.
    assert (Hadm' : Forall (admissible st1) (samples st1)).
    { rewrite Happ1. apply Forall_app. split;
        (eapply Forall_impl; [|eassumption]);
        intros d; now apply same_configuration_admissible. }
    destruct (IH st1 st' log2 outs2 Hmode1 ltac:(lia) Hadm' Hrest)
      as [Hmode2 [Hconf2 [Hadm2 [[l2 [Happ2 Hlen2]] [Hmap Hports]]]]].
    split; [exact Hmode2|].
    split; [now apply (same_configuration_trans st st1 st')|].
    split; [exact Hadm2|]. split; [|split].
    + exists (l1 ++ l2). rewrite Happ2, Happ1, app_assoc. split; [reflexivity|].
      rewrite length_app. cbn [length]. lia.
    + cbn [map snd]. now rewrite Hp, Hmap.
    + constructor; assumption.
Qed.

Lemma push_each_keeps_store_witness :
  exists st' log outs,
    push_each element_sampling_3
      [(5000, packet_of 3); (6000, packet_of 4); (7000, packet_of 6)] =
      Some (st', log, outs) /\
    map delay (samples st') = [5; 7] /\
    Forall (admissible st') (samples st') /\
    map snd outs = [packet_of 3; packet_of 4; packet_of 6].
Proof.
  assert (Hmode : mode_ok element_sampling_3).
  { unfold mode_ok, is_uint32; simpl. repeat split; lia. }
  eexists _, _, _. split; [vm_compute; reflexivity|]. split; [reflexivity|].
  match goal with
  | |- Forall (admissible ?st') _ /\ map snd ?outs = _ =>
      destruct (push_each_keeps_store
                  [(5000, packet_of 3); (6000, packet_of 4); (7000, packet_of 6)]
                  element_sampling_3 st' [] outs Hmode
                  ltac:(vm_compute; reflexivity) ltac:(constructor)
                  ltac:(vm_compute; reflexivity))
        as [_ [_ [Hadm [_ [Hmap _]]]]]
  end.
  split; [exact Hadm|exact Hmap].
Defined.

(* ================================================================= *)
(** ** Configuration *)

(** X4.  [configure] fails only for want of a valid RECORDER.  The element
    it returns has no sample, satisfies the mode invariant, and in Bounded
    mode holds [N] slots of [{0, 0}]; [initialize] then accepts more than one
    passing thread only in Bounded mode, where the element is the initial
    state of concurrent ingestion. *)
Theorem configured_store (conf : Conf) (nano : bool) :
  0 <= read (conf_N conf) 0 < 2 ^ 32 ->
  (configure conf nano = None <-> conf_RECORDER conf = None) /\
  forall st,
    configure conf nano = Some st ->
    mode_ok st /\ samples st = [] /\ _nd st = 0 /\
    _limit st = read (conf_N conf) 0 /\
    _delays st = repeat (mkDelay 0 0) (Z.to_nat (_limit st)) /\
    forall passing_threads,
      1 < passing_threads ->
      (initialize st passing_threads = true <-> _limit st <> 0) /\
      forall work,
        Concurrent.initial (_limit st) work =
        (Concurrent.mkShared (_nd st) (_delays st), map Concurrent.Ready work).
Proof.
  intros HN. unfold configure. split.
  - destruct (conf_RECORDER conf); split; congruence.
  - intros st Hst. destruct (conf_RECORDER conf) as [rt|]; [|discriminate].
    inversion Hst; subst st; clear Hst.
    cbn [_delays _nd _limit samples].
    set (limit := read (conf_N conf) 0) in *.
    assert (Hv : (if negb (limit =? 0)
                  then repeat (mkDelay 0 0) (Z.to_nat limit) else []) =
                 repeat (mkDelay 0 0) (Z.to_nat limit)).
    { destruct (Z.eqb_spec limit 0) as [->|]; reflexivity. }
    rewrite Hv. split; [|split; [reflexivity|]].
    + unfold mode_ok, is_uint32. cbn [_delays _nd _limit]. rewrite repeat_length.
      split; [lia|]. destruct (Z.eqb_spec limit 0); lia.
    + repeat split; try reflexivity.
      * unfold initialize. cbn [_limit]. intros Hinit.
        destruct (Z.gtb_spec passing_threads 1); [|lia].
        destruct (Z.eqb_spec limit 0); [discriminate|assumption].
      * unfold initialize. cbn [_limit]. intros Hl.
        destruct (Z.eqb_spec limit 0); [contradiction|].
        now rewrite andb_false_r.
Qed.

Lemma configured_store_witness :
  exists st,
    configure (mkConf (Some (mkRecordTimestamp (fun _ => None) false))
                 None (Some 4) None None None None None None) false = Some st /\
    mode_ok st /\ _delays st = repeat (mkDelay 0 0) 4 /\
    initialize st 2 = true.
Proof.
  eexists. split; [reflexivity|].
  match goal with
  | |- mode_ok ?st /\ _ =>
      destruct (configured_store
                  (mkConf (Some (mkRecordTimestamp (fun _ => None) false))
                     None (Some 4) None None None None None None) false
                  ltac:(cbn; lia)) as [_ H];
      destruct (H st eq_refl) as [Hmode [_ [_ [_ [Hd Hinit]]]]]
  end.
  split; [exact Hmode|]. split; [exact Hd|].
  destruct (Hinit 2 ltac:(lia)) as [[_ Hi] _]. apply Hi. cbn. discriminate.
Defined.

(* ================================================================= *)
(** ** Percentiles as positions of the sorted range *)

Lemma sorted_permutation_unique (a : list Z) :
  forall b, StronglySorted Z.le a -> StronglySorted Z.le b ->
            Permutation a b -> a = b.
Proof.
  induction a as [|x a IH]; intros b Ha Hb Hperm.
  - now apply Permutation_nil in Hperm.
  - destruct b as [|y b]; [now apply Permutation_sym, Permutation_nil in Hperm|].
    apply StronglySorted_inv in Ha as [Ha Hx], Hb as [Hb Hy].
    rewrite Forall_forall in Hx, Hy.
    assert (x = y).
    { assert (Hyin : In y (x :: a))
        by (apply (Permutation_in _ (Permutation_sym Hperm)); now left).
      assert (Hxin : In x (y :: b)) by (apply (Permutation_in _ Hperm); now left).
      destruct Hyin as [->|Hyin]; [reflexivity|].
      destruct Hxin as [->|Hxin]; [reflexivity|].
      specialize (Hx _ Hyin). specialize (Hy _ Hxin). lia. }
    subst y. f_equal. apply IH; auto. now apply Permutation_cons_inv in Hperm.
Qed.

Lemma full_sort_permuted (l l' : list Z) :
  Permutation l l' -> full_sort l = full_sort l'.
Proof.
  intros H. apply sorted_permutation_unique; try apply full_sort_sorted.
  rewrite <- (full_sort_permutation l), <- (full_sort_permutation l'). exact H.
Qed.

Lemma minimum_is_sorted_first (l : list Z) (m : Z) :
  is_minimum l m -> nth_error (full_sort l) 0 = Some m.
Proof.
  intros [Hin Hle].
  pose proof (full_sort_permutation l) as Hperm.
  pose proof (full_sort_sorted l) as Hsorted.
  destruct (full_sort l) as [|x s].
  - apply Permutation_sym, Permutation_nil in Hperm. subst. destruct Hin.
  - cbn. f_equal.
    assert (Hx : In x l) by (apply (Permutation_in _ (Permutation_sym Hperm)); now left).
    assert (Hm : In m (x :: s)) by now apply (Permutation_in _ Hperm).
    apply StronglySorted_inv in Hsorted as [_ Hs]. rewrite Forall_forall in Hs.
    specialize (Hle _ Hx). destruct Hm as [->|Hm]; [reflexivity|].
    specialize (Hs _ Hm). lia.
Qed.

Lemma maximum_is_sorted_last (l : list Z) (m : Z) :
  is_maximum l m -> nth_error (full_sort l) (length l - 1) = Some m.
Proof.
  intros [Hin Hle].
  pose proof (full_sort_permutation l) as Hperm.
  pose proof (full_sort_sorted l) as Hsorted.
  pose proof (Permutation_length Hperm) as Hlen.
  assert (Hpos : (0 < length l)%nat) by (destruct l; [destruct Hin|cbn; lia]).
  destruct (nth_error (full_sort l) (length l - 1)) as [y|] eqn:Hy;
    [|apply nth_error_None in Hy; lia].
  f_equal.
  assert (Hyl : y <= m).
  { apply Hle. apply (Permutation_in _ (Permutation_sym Hperm)).
    eapply nth_error_In; eauto. }
  apply (Permutation_in _ Hperm) in Hin. apply In_nth_error in Hin as [j Hj].
  assert (j < length (full_sort l))%nat by (apply nth_error_Some; congruence).
  pose proof (sorted_nth_le _ Hsorted j (length l - 1)%nat m y ltac:(lia) Hj Hy).
  lia.
Qed.

Lemma percentile_sorted {NE : NthElement} (st : TimestampDiff) (p : Q) (begin : Z) :
  wf st -> is_uint32 begin -> (0 <= p <= 100)%Q -> begin < _nd st ->
  exists m st',
    percentile st p begin = Some (of_unsigned m, st') /\
    nth_error (full_sort (delays_from st begin)) (sorted_position st p begin) = Some m.
Proof.
  intros Hwf Hb Hp Hsome. unfold sorted_position.
  pose proof (length_tail_samples st begin Hwf ltac:(destruct Hb; lia)) as Hlen.
  destruct (Z.le_gt_cases (selected_index st p begin) begin) as [Hlow|Hlow].
  { destruct (percentile_min st p begin Hwf Hb Hp Hsome Hlow) as [m [E Hm]].
    exists m, st. split; [exact E|].
    replace (Z.to_nat _) with 0%nat by lia. now apply minimum_is_sorted_first. }
  destruct (Z.le_gt_cases (_nd st) (selected_index st p begin)) as [Hhigh|Hhigh].
  { destruct (percentile_max st p begin Hwf Hb Hp Hsome Hhigh) as [m [E Hm]].
    exists m, st. split; [exact E|].
    replace (Z.to_nat _) with (length (delays_from st begin) - 1)%nat
      by (unfold delays_from; rewrite length_map, Hlen; lia).
    now apply maximum_is_sorted_last. }
  destruct (percentile_select_sorted st p begin Hwf Hb Hp (conj Hlow Hhigh))
    as [m [[st' E] Hm]].
  exists m, st'. split; [exact E|].
  replace (Z.to_nat _) with (Z.to_nat (selected_index st p begin - begin)) by lia.
  exact Hm.
Qed.

Lemma selected_index_monotone (st : TimestampDiff) (p q : Q) (begin : Z) :
  wf st -> (0 <= p)%Q -> (p <= q)%Q -> (q <= 100)%Q -> 0 <= begin < _nd st ->
  selected_index st p begin <= selected_index st q begin.
Proof.
  intros [[_ Hn] _] Hp Hpq Hq Hb.
  destruct (percentile_idx_defined p (_nd st) begin ltac:(lra) Hb Hn) as [i [Ei _]].
  destruct (percentile_idx_defined q (_nd st) begin ltac:(lra) Hb Hn) as [j [Ej _]].
  unfold selected_index. rewrite Ei, Ej.
  exact (percentile_idx_monotone p q (_nd st) begin i j Hp Hpq Hq Hb Hn Ei Ej).
Qed.

(** X5.  [percentile] is monotone in the percentile asked for: on the same
    store and begin index, a larger [p] never gives a smaller delay. *)
Theorem percentile_monotone {NE : NthElement} (st : TimestampDiff) (p q : Q)
    (begin : Z) :
  wf st -> is_uint32 begin -> (0 <= p)%Q -> (p <= q)%Q -> (q <= 100)%Q ->
  exists m1 m2 st1 st2,
    percentile st p begin = Some (of_unsigned m1, st1) /\
    percentile st q begin = Some (of_unsigned m2, st2) /\
    m1 <= m2.
Proof.
  intros Hwf Hb Hp0 Hpq Hq100.
  assert (Hp : (0 <= p <= 100)%Q) by lra.
  assert (Hq : (0 <= q <= 100)%Q) by lra.
  destruct (Z.le_gt_cases (_nd st) begin) as [Hempty|Hsome].
  { exists 0, 0, st, st. rewrite !percentile_empty by assumption.
    repeat split; lia. }
  destruct (percentile_sorted st p begin Hwf Hb Hp Hsome) as [m1 [st1 [E1 H1]]].
  destruct (percentile_sorted st q begin Hwf Hb Hq Hsome) as [m2 [st2 [E2 H2]]].
  exists m1, m2, st1, st2. split; [exact E1|]. split; [exact E2|].
  apply (sorted_nth_le _ (full_sort_sorted (delays_from st begin))
           (sorted_position st p begin) (sorted_position st q begin)); auto.
  unfold sorted_position.
  pose proof (selected_index_monotone st p q begin Hwf Hp0 Hpq Hq100
                ltac:(destruct Hb; lia)). lia.
Qed.

Lemma percentile_monotone_witness :
  exists m1 m2 st1 st2,
    percentile five_samples 25 0 = Some (of_unsigned m1, st1) /\
    percentile five_samples 75 0 = Some (of_unsigned m2, st2) /\
    m1 <= m2.
Proof.
  apply (percentile_monotone five_samples 25 75 0 five_samples_wf).
  - unfold is_uint32; lia.
  - unfold Qle; simpl; lia.
  - unfold Qle; simpl; lia.
  - unfold Qle; simpl; lia.
Defined.

(* ================================================================= *)
(** ** Queries after a percentile query *)

(** What a call of [percentile] does to the element: nothing, or a
    rearrangement of the range [begin, _nd) of the vector. *)
Lemma percentile_effect {NE : NthElement} (st st' : TimestampDiff) (p : Q)
    (begin : Z) (result : double) :
  wf st -> is_uint32 begin -> (0 <= p <= 100)%Q ->
  percentile st p begin = Some (result, st') ->
  st' = st \/
  (begin < _nd st /\
   exists r',
     Permutation (skipn (Z.to_nat begin) (samples st)) r' /\
     st' = set_delays st (splice (_delays st) begin (_nd st) r')).
Proof.
  intros Hwf Hb Hp E.
  destruct (Z.le_gt_cases (_nd st) begin) as [Hempty|Hsome].
  { rewrite percentile_empty in E by assumption. left. congruence. }
  destruct (Z.le_gt_cases (selected_index st p begin) begin) as [Hlow|Hlow].
  { destruct (percentile_min st p begin Hwf Hb Hp Hsome Hlow) as [m [E' _]].
    left. congruence. }
  destruct (Z.le_gt_cases (_nd st) (selected_index st p begin)) as [Hhigh|Hhigh].
  { destruct (percentile_max st p begin Hwf Hb Hp Hsome Hhigh) as [m [E' _]].
    left. congruence. }
  destruct (percentile_select st p begin Hwf Hb Hp (conj Hlow Hhigh)) as [d [_ E']].
  cbv zeta in E'. right. split; [exact Hsome|].
  exists (nth_element (skipn (Z.to_nat begin) (samples st))
            (Z.to_nat (selected_index st p begin - begin))).
  split; [apply nth_element_rearranges|]. congruence.
Qed.

(** The visible samples after a rearrangement of the range. *)
Lemma splice_samples (st : TimestampDiff) (begin : Z) (r' : list Delay) :
  wf st -> 0 <= begin <= _nd st ->
  Permutation (skipn (Z.to_nat begin) (samples st)) r' ->
  let st' := set_delays st (splice (_delays st) begin (_nd st) r') in
  wf st' /\ samples st' = firstn (Z.to_nat begin) (samples st) ++ r'.
Proof.
  intros Hwf Hb Hperm st'. pose proof Hwf as [[Hn0 Hn1] Hlen].
  assert (Hr : length r' = Z.to_nat (_nd st - begin)).
  { rewrite <- (Permutation_length Hperm). now apply length_tail_samples. }
  split.
  - split; [exact (proj1 Hwf)|].
    unfold st'. cbn [set_delays _delays _nd]. rewrite splice_length by lia. exact Hlen.
  - unfold st', samples, splice. cbn [set_delays _delays _nd].
    rewrite firstn_firstn. replace (Init.Nat.min _ _) with (Z.to_nat begin) by lia.
    assert (Hf : length (firstn (Z.to_nat begin) (_delays st)) = Z.to_nat begin)
      by (rewrite length_firstn; lia).
    rewrite firstn_app, Hf. rewrite (firstn_all2 (n := Z.to_nat (_nd st))) by lia.
    f_equal. rewrite firstn_app.
    replace (Z.to_nat (_nd st) - Z.to_nat begin - length r')%nat with 0%nat by lia.
    cbn [firstn]. rewrite app_nil_r. apply firstn_all2. lia.
Qed.

(** A rearrangement of [begin, _nd) is a rearrangement of every range that
    starts at or before [begin]. *)
Lemma percentile_keeps_earlier_ranges {NE : NthElement} (st st' : TimestampDiff)
    (p : Q) (begin : Z) (result : double) :
  wf st -> is_uint32 begin -> (0 <= p <= 100)%Q ->
  percentile st p begin = Some (result, st') ->
  wf st' /\ _nd st' = _nd st /\
  forall b, 0 <= b <= begin ->
    Permutation (skipn (Z.to_nat b) (samples st)) (skipn (Z.to_nat b) (samples st')).
Proof.
  intros Hwf Hb Hp E.
  destruct (percentile_effect st st' p begin result Hwf Hb Hp E)
    as [->|[Hsome [r' [Hperm ->]]]].
  { split; [exact Hwf|]. split; [reflexivity|]. intros; reflexivity. }
  destruct (splice_samples st begin r' Hwf ltac:(destruct Hb; lia) Hperm)
    as [Hwf' Hs].
  split; [exact Hwf'|]. split; [reflexivity|].
  intros b Hbb. rewrite Hs.
  rewrite <- (firstn_skipn (Z.to_nat begin) (samples st)) at 1.
  pose proof (length_samples st Hwf) as Hlen.
  assert (Hf : length (firstn (Z.to_nat begin) (samples st)) = Z.to_nat begin)
    by (rewrite length_firstn; lia).
  rewrite !skipn_app, Hf.
  replace (Z.to_nat b - Z.to_nat begin)%nat with 0%nat by lia.
  cbn [skipn]. now apply Permutation_app_head.
Qed.

(** X6.  The reordering done by [percentile(p, begin)] does not change the
    answer of a later percentile query whose begin index is at or before
    [begin]: asked of the element before or after the call, it returns the
    same delay. *)
Theorem percentile_answers_survive_reordering {NE : NthElement}
    (st st' : TimestampDiff) (p q : Q) (begin b : Z) (result : double) :
  wf st -> is_uint32 begin -> (0 <= p <= 100)%Q -> (0 <= q <= 100)%Q ->
  0 <= b <= begin ->
  percentile st p begin = Some (result, st') ->
  exists m s1 s2,
    percentile st q b = Some (of_unsigned m, s1) /\
    percentile st' q b = Some (of_unsigned m, s2).
Proof.
  intros Hwf Hb Hp Hq Hbb E.
  destruct (percentile_keeps_earlier_ranges st st' p begin result Hwf Hb Hp E)
    as [Hwf' [Hnd Hperm]].
  assert (Hb' : is_uint32 b) by (destruct Hb; unfold is_uint32; lia).
  destruct (Z.le_gt_cases (_nd st) b) as [Hempty|Hsome].
  { exists 0, st, st'. rewrite !percentile_empty by (auto; lia). now split. }
  destruct (percentile_sorted st q b Hwf Hb' Hq Hsome) as [m [s1 [E1 H1]]].
  destruct (percentile_sorted st' q b Hwf' Hb' Hq ltac:(lia)) as [m' [s2 [E2 H2]]].
  exists m, s1, s2. split; [exact E1|].
  assert (m' = m); [|now subst].
  unfold sorted_position, selected_index in H1, H2. rewrite Hnd in H2.
  unfold delays_from in H1, H2.
  rewrite (full_sort_permuted _ _ (Permutation_map delay (Hperm b Hbb))) in H1.
  congruence.
Qed.

Lemma percentile_answers_survive_reordering_witness :
  exists result st' m s1 s2,
    percentile five_samples 50 1 = Some (result, st') /\
    percentile five_samples 90 0 = Some (of_unsigned m, s1) /\
    percentile st' 90 0 = Some (of_unsigned m, s2).
Proof.
  eexists _, _.
  assert (E : percentile five_samples 50 1 =
              Some (of_unsigned 40,
                    element_of (untagged [30; 10; 20; 40; 50]) 5))
    by (vm_compute; reflexivity).
  destruct (percentile_answers_survive_reordering five_samples _ 50 90 1 0 _
              five_samples_wf ltac:(unfold is_uint32; lia)
              ltac:(unfold Qle; simpl; lia) ltac:(unfold Qle; simpl; lia)
              ltac:(lia) E) as [m [s1 [s2 [E1 E2]]]].
  exists m, s1, s2. split; [exact E|]. split; [exact E1|exact E2].
Defined.

(* ================================================================= *)
(** ** The extremes and the mean of min_mean_max *)

(** The running minimum and maximum of the scan: each is its initial value
    or a considered delay, and bounds every considered delay. *)
Lemma scan_extremes (tc_filter : Z) (l : list Delay) :
  forall s,
    let s' := fold_left (fun a d => scan_step tc_filter d a) l s in
    let c := considered tc_filter l in
    (scan_min s' <= scan_min s /\
     (forall d, In d c -> scan_min s' <= delay d) /\
     (scan_min s' = scan_min s \/ exists d, In d c /\ scan_min s' = delay d)) /\
    (scan_max s <= scan_max s' /\
     (forall d, In d c -> delay d <= scan_max s') /\
     (scan_max s' = scan_max s \/ exists d, In d c /\ scan_max s' = delay d)).
Proof.
  induction l as [|d l IH]; intros s; cbn [fold_left considered filter].
  - cbn. repeat split; auto; try lia; intros ? [].
  - specialize (IH (scan_step tc_filter d s)). cbv zeta in IH.
    fold (considered tc_filter l).
    destruct IH as [[Hmin1 [Hmin2 Hmin3]] [Hmax1 [Hmax2 Hmax3]]].
    unfold scan_step in *.
    destruct ((tc_filter >? -1) && negb (tc d =? tc_filter)); cbn [negb].
    { repeat split; assumption. }
    cbn [scan_min scan_max] in *.
    destruct (Z.ltb_spec (delay d) (scan_min s));
      destruct (Z.gtb_spec (delay d) (scan_max s));
      (split; [split; [lia|split]|split; [lia|split]]);
      try (intros x [<-|Hx]; [lia|auto]);
      try (destruct Hmin3 as [E|[x [Hx E]]];
           [first [left; lia | right; exists d; split; [now left|lia]]
           |right; exists x; split; [now right|exact E]]);
      try (destruct Hmax3 as [E|[x [Hx E]]];
           [first [left; lia | right; exists d; split; [now left|lia]]
           |right; exists x; split; [now right|exact E]]).
Qed.

Lemma considered_all (l : list Delay) : considered (-1) l = l.
Proof.
  unfold considered. induction l as [|d l IH]; [reflexivity|].
  cbn [filter]. rewrite IH. reflexivity.
Qed.

(** A property of every element that a boolean test decides. *)
Lemma Forall_by_check {A : Type} (P : A -> Prop) (f : A -> bool) (l : list A) :
  (forall x, f x = true -> P x) -> forallb f l = true -> Forall P l.
Proof.
  intros Hf H. apply Forall_forall. intros x Hx.
  rewrite forallb_forall in H. auto.
Qed.

(** The extremes that [min_mean_max] returns. *)
Lemma min_mean_max_returns_extremes (st : TimestampDiff) (mean : double)
    (begin tc_filter : Z) :
  wf st -> 0 <= begin <= _nd st ->
  let c := considered tc_filter (skipn (Z.to_nat begin) (samples st)) in
  c <> [] -> Forall (fun d => 0 <= delay d <= UINT_MAX) c ->
  exists min m max,
    min_mean_max st UINT_MAX mean 0 begin tc_filter = Some (min, m, max) /\
    is_maximum (map delay c) max /\
    ((exists d, In d c /\ delay d < UINT_MAX) -> is_minimum (map delay c) min) /\
    (Forall (fun d => delay d = UINT_MAX) c -> min = 0).
Proof.
  intros Hwf Hb c Hc Hrange. pose proof Hwf as [[Hn _] Hv].
  unfold min_mean_max.
  rewrite for_each_index_elements with (f := scan_step tc_filter) by lia.
  rewrite firstn_skipn_samples by lia.
  destruct (scan_extremes tc_filter (skipn (Z.to_nat begin) (samples st))
              (mkScan (Fin 0) UINT_MAX 0 0))
    as [[Hmin1 [Hmin2 Hmin3]] [Hmax1 [Hmax2 Hmax3]]].
  fold c in Hmin2, Hmin3, Hmax2, Hmax3. cbn [scan_min scan_max] in *.
  set (s := fold_left _ _ _) in *.
  rewrite Forall_forall in Hrange.
  exists (if scan_min s =? UINT_MAX then 0 else scan_min s),
         (if _nd st =? 0 then Fin 0
          else ddiv_unsigned (scan_sum s) (scan_n s)),
         (scan_max s).
  split; [destruct (_nd st =? 0); reflexivity|]. split; [|split].
  - split.
    + destruct Hmax3 as [E|[d [Hd E]]].
      * destruct c as [|d c']; [congruence|]. apply in_map_iff. exists d.
        split; [|now left].
        pose proof (Hmax2 d (or_introl eq_refl)).
        pose proof (Hrange d (or_introl eq_refl)). lia.
      * rewrite E. now apply in_map.
    + intros x Hx. apply in_map_iff in Hx as [d [<- Hd]]. now apply Hmax2.
  - intros [d0 [Hd0 Hlt]]. pose proof (Hmin2 d0 Hd0).
    destruct (Z.eqb_spec (scan_min s) UINT_MAX); [lia|]. split.
    + destruct Hmin3 as [E|[d [Hd E]]]; [contradiction|].
      rewrite E. now apply in_map.
    + intros x Hx. apply in_map_iff in Hx as [d [<- Hd]]. now apply Hmin2.
  - intros Hall. rewrite Forall_forall in Hall.
    destruct (Z.eqb_spec (scan_min s) UINT_MAX); [reflexivity|].
    destruct Hmin3 as [E|[d [Hd E]]]; [contradiction|].
    rewrite (Hall d Hd) in E. contradiction.
Qed.

(** X7.  Called as the handlers call it, over a range in which some sample
    is considered, [min_mean_max] returns the largest considered delay as
    [max]; it returns the smallest as [min] provided some considered delay
    is below [UINT_MAX], and 0 when every considered delay equals
    [UINT_MAX], the value that marks "no minimum yet". *)
Theorem min_mean_max_extremes (st : TimestampDiff) (mean : double)
    (begin tc_filter : Z) :
  wf st -> 0 <= begin <= _nd st ->
  let c := considered tc_filter (skipn (Z.to_nat begin) (samples st)) in
  c <> [] -> Forall (fun d => 0 <= delay d <= UINT_MAX) c ->
  exists min m max,
    min_mean_max st UINT_MAX mean 0 begin tc_filter = Some (min, m, max) /\
    is_maximum (map delay c) max /\
    ((exists d, In d c /\ delay d < UINT_MAX) -> is_minimum (map delay c) min) /\
    (Forall (fun d => delay d = UINT_MAX) c -> min = 0).
Proof. exact (min_mean_max_returns_extremes st mean begin tc_filter). Qed.

Lemma min_mean_max_extremes_witness :
  exists min m max,
    min_mean_max five_samples UINT_MAX (Fin 0) 0 1 (-1) = Some (min, m, max) /\
    is_maximum [10; 50; 20; 40] max /\ is_minimum [10; 50; 20; 40] min.
Proof.
  assert (Hc : considered (-1) (skipn (Z.to_nat 1) (samples five_samples)) <> [])
    by (vm_compute; discriminate).
  assert (Hr : Forall (fun d => 0 <= delay d <= UINT_MAX)
                 (considered (-1) (skipn (Z.to_nat 1) (samples five_samples)))).
  { apply (Forall_by_check _ (fun d => (0 <=? delay d) && (delay d <=? UINT_MAX))).
    - intros d H. apply andb_prop in H as [H1 H2]. lia.
    - vm_compute. reflexivity. }
  destruct (min_mean_max_extremes five_samples (Fin 0) 1 (-1) five_samples_wf
              ltac:(cbn; lia) Hc Hr) as [min [m [max [E [Hmax [Hmin _]]]]]].
  exists min, m, max. split; [exact E|]. split; [exact Hmax|].
  apply Hmin. exists (mkDelay 10 0). split.
  - vm_compute. left. reflexivity.
  - vm_compute. reflexivity.
Defined.

Lemma sum_delays_bounds (l : list Delay) (lo hi : Z) :
  (forall d, In d l -> lo <= delay d <= hi) ->
  lo * Z.of_nat (length l) <= sum_delays l <= hi * Z.of_nat (length l).
Proof.
  induction l as [|d l IH]; intros H; [cbn; lia|].
  unfold sum_delays in *. cbn [map fold_right length].
  specialize (IH (fun x Hx => H x (or_intror Hx))).
  pose proof (H d (or_introl eq_refl)). lia.
Qed.

(** While the sum stays below 2^53 no addition of the scan rounds. *)
Lemma double_sum_exact (l : list Delay) :
  forall s0 : Z,
    0 <= s0 -> Forall (fun d => 0 <= delay d) l ->
    s0 + sum_delays l < 2 ^ 53 ->
    double_sum (Fin (inject_Z s0)) l = Fin (inject_Z (s0 + sum_delays l)).
Proof.
  induction l as [|d l IH]; intros s0 H0 Hl Hsum.
  - cbn. now rewrite Z.add_0_r.
  - inversion Hl as [|? ? Hd Hl']; subst.
    unfold sum_delays in *. cbn [map fold_right] in *.
    assert (Hrest : 0 <= fold_right Z.add 0 (map delay l)).
    { clear - Hl'. induction Hl' as [|x l Hx _ IH]; cbn; lia. }
    unfold double_sum. cbn [fold_left]. fold (double_sum).
    cbn [dadd of_unsigned].
    rewrite (binary64_integer _ (s0 + delay d))
      by (try (rewrite inject_Z_plus; reflexivity); lia).
    fold (double_sum (Fin (inject_Z (s0 + delay d))) l).
    rewrite IH by (auto; lia). f_equal. f_equal. lia.
Qed.

(** X8.  Over a range in which some sample is considered, with delays below
    [UINT_MAX] whose sum is below 2^53 (so that no addition of the running
    sum rounds), the mean that [min_mean_max] returns is finite and lies
    between the [min] and the [max] it returns. *)
Theorem mean_between_extremes (st : TimestampDiff) (mean : double)
    (begin tc_filter : Z) :
  wf st -> 0 <= begin <= _nd st ->
  let c := considered tc_filter (skipn (Z.to_nat begin) (samples st)) in
  c <> [] -> Forall (fun d => 0 <= delay d < UINT_MAX) c ->
  sum_delays c < 2 ^ 53 ->
  exists min q max,
    min_mean_max st UINT_MAX mean 0 begin tc_filter = Some (min, Fin q, max) /\
    (inject_Z min <= q <= inject_Z max)%Q.
Proof.
  intros Hwf Hb c Hc Hrange Hsum.
  assert (Hrange' : Forall (fun d => 0 <= delay d <= UINT_MAX) c)
    by (eapply Forall_impl; [|exact Hrange]; cbn; intros; lia).
  destruct (min_mean_max_returns_extremes st mean begin tc_filter Hwf Hb Hc Hrange')
    as [min [m [max [E [[Hmaxin Hmax] [Hmin _]]]]]].
  destruct (min_mean_max_considered st mean begin tc_filter Hwf Hb)
    as [min' [m' [max' [E' [Hmean _]]]]].
  fold c in Hmean. rewrite E in E'. inversion E'; subst min' m' max'; clear E'.
  fold c in Hmax, Hmaxin, Hmin. clearbody c.
  assert (Hmin' : is_minimum (map delay c) min).
  { apply Hmin. destruct c as [|d c']; [congruence|]. exists d. split; [now left|].
    inversion Hrange; subst. lia. }
  destruct Hmin' as [Hminin Hmin'].
  assert (Hmin0 : 0 <= min).
  { apply in_map_iff in Hminin as [d [<- Hd]].
    rewrite Forall_forall in Hrange. specialize (Hrange d Hd). lia. }
  assert (Hmaxu : max < UINT_MAX).
  { apply in_map_iff in Hmaxin as [d [<- Hd]].
    rewrite Forall_forall in Hrange. specialize (Hrange d Hd). lia. }
  destruct (sum_delays_bounds c min max) as [Hlo Hhi].
  { intros d Hd. split; [apply Hmin'|apply Hmax]; now apply in_map. }
  assert (Hlen : 0 < Z.of_nat (length c)) by (destruct c; [congruence|cbn; lia]).
  assert (Hpos : (0 < inject_Z (Z.of_nat (length c)))%Q).
  { change 0%Q with (inject_Z 0). now rewrite <- Zlt_Qlt. }
  assert (Hm : m = binary64 (inject_Z (sum_delays c) / inject_Z (Z.of_nat (length c)))).
  { rewrite (Hmean Hc). change (Fin 0) with (Fin (inject_Z 0)).
    rewrite (double_sum_exact c 0); [|lia| |lia].
    - unfold ddiv_unsigned, ddiv, of_unsigned. rewrite Z.add_0_l.
      destruct (Qeq_bool (inject_Z (Z.of_nat (length c))) 0) eqn:C; [|reflexivity].
      apply Qeq_bool_iff in C. lra.
    - eapply Forall_impl; [|exact Hrange]. cbn; intros; lia. }
  destruct (binary64_between
              (inject_Z (sum_delays c) / inject_Z (Z.of_nat (length c))) min max
              Hmin0 ltac:(unfold UINT_MAX in Hmaxu; lia)) as [Eb Bb].
  { split.
    - apply Qle_shift_div_l; [exact Hpos|].
      rewrite <- inject_Z_mult, <- Zle_Qle. exact Hlo.
    - apply Qle_shift_div_r; [exact Hpos|].
      rewrite <- inject_Z_mult, <- Zle_Qle. exact Hhi. }
  rewrite Eb in Hm. subst m.
  eexists min, _, max. split; [exact E|exact Bb].
Qed.

Lemma mean_between_extremes_witness :
  exists min q max,
    min_mean_max five_samples UINT_MAX (Fin 0) 0 0 (-1) = Some (min, Fin q, max) /\
    (inject_Z min <= q <= inject_Z max)%Q.
Proof.
  apply (mean_between_extremes five_samples (Fin 0) 0 (-1) five_samples_wf).
  - cbn; lia.
  - vm_compute; discriminate.
  - apply (Forall_by_check _ (fun d => (0 <=? delay d) && (delay d <? UINT_MAX))).
    + intros d H. apply andb_prop in H as [H1 H2]. lia.
    + vm_compute. reflexivity.
  - vm_compute. reflexivity.
Defined.

(* ================================================================= *)
(** ** The handlers for the extremes *)

Lemma minimum_unique (l : list Z) (a b : Z) :
  is_minimum l a -> is_minimum l b -> a = b.
Proof. intros [Ha1 Ha2] [Hb1 Hb2]. specialize (Ha2 b Hb1). specialize (Hb2 a Ha1). lia. Qed.

Lemma maximum_unique (l : list Z) (a b : Z) :
  is_maximum l a -> is_maximum l b -> a = b.
Proof. intros [Ha1 Ha2] [Hb1 Hb2]. specialize (Ha2 b Hb1). specialize (Hb2 a Ha1). lia. Qed.

Lemma begin_of_uint32 (param : option Param) : is_uint32 (begin_of param).
Proof.
  destruct param; unfold begin_of, is_uint32, to_uint32.
  - apply Z.mod_pos_bound. lia.
  - lia.
Qed.

(** X9.  The handlers [perc00] and [min] answer what [percentile(0, begin)]
    returns, and [perc100] and [max] what [percentile(100, begin)] returns,
    although they go through [min_mean_max]: on a range that is not empty and
    whose delays are below [UINT_MAX], the two paths agree. *)
Theorem extreme_handlers_agree_with_percentile {NE : NthElement}
    (param : option Param) (st : TimestampDiff) :
  wf st -> begin_of param < _nd st ->
  Forall (fun d => 0 <= delay d < UINT_MAX)
    (skipn (Z.to_nat (begin_of param)) (samples st)) ->
  exists lo hi,
    handler TSD_PERC_00_HANDLER param st = Some (0, ReplyUnsigned lo, st) /\
    handler TSD_MIN_HANDLER param st = Some (0, ReplyUnsigned lo, st) /\
    percentile st 0 (begin_of param) = Some (of_unsigned lo, st) /\
    handler TSD_PERC_100_HANDLER param st = Some (0, ReplyUnsigned hi, st) /\
    handler TSD_MAX_HANDLER param st = Some (0, ReplyUnsigned hi, st) /\
    percentile st 100 (begin_of param) = Some (of_unsigned hi, st).
Proof.
  intros Hwf Hsome Hrange.
  pose proof (begin_of_uint32 param) as Hb.
  set (r := skipn (Z.to_nat (begin_of param)) (samples st)) in *.
  assert (Hr : r <> []).
  { intros E. pose proof (length_tail_samples st (begin_of param) Hwf
                            ltac:(destruct Hb; lia)) as L.
    fold r in L. rewrite E in L. cbn in L. lia. }
  assert (Hc : considered (-1) r = r) by apply considered_all.
  destruct (min_mean_max_returns_extremes st (Fin 0) (begin_of param) (-1) Hwf
              ltac:(destruct Hb; lia))
    as [lo [m [hi [E [Hmax [Hmin _]]]]]].
  { fold r. now rewrite Hc. }
  { fold r. rewrite Hc. eapply Forall_impl; [|exact Hrange]. cbn; intros; lia. }
  fold r in Hmax, Hmin. rewrite Hc in Hmax, Hmin.
  assert (Hlo : is_minimum (map delay r) lo).
  { apply Hmin. destruct r as [|d r']; [congruence|]. exists d.
    split; [now left|]. inversion Hrange; subst. lia. }
  destruct (percentile_min st 0 (begin_of param) Hwf Hb percent_0 Hsome)
    as [lo' [Elo Hlo']];
    [rewrite selected_index_0 by (auto; destruct Hb; lia); lia|].
  destruct (percentile_max st 100 (begin_of param) Hwf Hb percent_100 Hsome)
    as [hi' [Ehi Hhi']];
    [rewrite selected_index_100 by (auto; destruct Hb; lia); lia|].
  fold r in Hlo', Hhi'.
  rewrite (minimum_unique _ _ _ Hlo' Hlo) in Elo.
  rewrite (maximum_unique _ _ _ Hhi' Hmax) in Ehi.
  assert (Hin : (begin_of param >=? _nd st) = false) 
    by (destruct (Z.geb_spec (begin_of param) (_nd st)); [lia|reflexivity]).
  exists lo, hi.
  unfold handler. fold (begin_of param).
  destruct param as [p|]; cbn [option_map]; rewrite ?Hin, E; cbn [option_map fst snd];
    repeat split; assumption.
Qed.

Lemma extreme_handlers_agree_with_percentile_witness :
  exists lo hi,
    handler TSD_MIN_HANDLER (Some (mkParam None None 1)) five_samples =
      Some (0, ReplyUnsigned lo, five_samples) /\
    percentile five_samples 0 1 = Some (of_unsigned lo, five_samples) /\
    handler TSD_MAX_HANDLER (Some (mkParam None None 1)) five_samples =
      Some (0, ReplyUnsigned hi, five_samples) /\
    percentile five_samples 100 1 = Some (of_unsigned hi, five_samples).
Proof.
  destruct (extreme_handlers_agree_with_percentile (Some (mkParam None None 1))
              five_samples five_samples_wf ltac:(vm_compute; reflexivity))
    as [lo [hi [_ [H1 [H2 [_ [H3 H4]]]]]]].
  - apply (Forall_by_check _ (fun d => (0 <=? delay d) && (delay d <? UINT_MAX))).
    + intros d H. apply andb_prop in H as [H1 H2]. lia.
    + vm_compute. reflexivity.
  - exists lo, hi. repeat split; assumption.
Defined.

(* ================================================================= *)
(** ** standard_deviation *)

(** On a well-formed store [standard_deviation] returns, whatever the
    mean. *)
Lemma standard_deviation_returns (st : TimestampDiff) (mean : double)
    (begin : Z) :
  wf st -> 0 <= begin <= _nd st ->
  exists r, standard_deviation st mean begin = Some r.
Proof.
  intros Hwf Hb. pose proof Hwf as [[Hn _] Hv].
  unfold standard_deviation.
  rewrite for_each_index_elements
    with (f := fun d var => dadd var (dsquare (dsub (of_unsigned (delay d)) mean)))
    by lia.
  destruct (dis_zero _); eexists; reflexivity.
Qed.

Lemma squared_sum_nonneg (m : Z) (l : list Delay) : 0 <= squared_sum m l.
Proof.
  induction l as [|d l IH]; [cbn; lia|].
  change (squared_sum m (d :: l))
    with ((delay d - m) * (delay d - m) + squared_sum m l).
  pose proof (Z.square_nonneg (delay d - m)). lia.
Qed.

Lemma squared_sum_cons (m : Z) (d : Delay) (l : list Delay) :
  squared_sum m (d :: l) = (delay d - m) * (delay d - m) + squared_sum m l.
Proof. reflexivity. Qed.

Lemma squared_sum_zero (m : Z) (l : list Delay) :
  squared_sum m l = 0 <-> Forall (fun d => delay d = m) l.
Proof.
  induction l as [|d l IH].
  - split; [constructor|reflexivity].
  - rewrite squared_sum_cons. pose proof (squared_sum_nonneg m l) as H.
    pose proof (Z.square_nonneg (delay d - m)) as Hs.
    split.
    + intros E. constructor; [nia|]. apply IH. lia.
    + intros E. inversion E as [|? ? Hd Hl]; subst.
      apply IH in Hl. rewrite Hl. nia.
Qed.

(** While the sum of the squared deviations from a whole-number mean stays
    below 2^53, no operation of the loop of [standard_deviation] rounds. *)
Lemma deviations_loop (m : Z) (l : list Delay) :
  forall a,
    0 <= a -> Z.abs m < 2 ^ 53 -> a + squared_sum m l < 2 ^ 53 ->
    fold_left
      (fun var d =>
         dadd var (dsquare (dsub (of_unsigned (delay d)) (Fin (inject_Z m)))))
      l (Fin (inject_Z a)) =
    Fin (inject_Z (a + squared_sum m l)).
Proof.
  induction l as [|d l IH]; intros a Ha Hm Hsum.
  - cbn. now rewrite Z.add_0_r.
  - rewrite squared_sum_cons in *. cbn [fold_left].
    pose proof (squared_sum_nonneg m l) as Hrest.
    set (x := delay d - m) in *.
    pose proof (Z.square_nonneg x) as Hsq.
    assert (Hxx : Z.abs (x * x) < 2 ^ 53) by lia.
    assert (Hx : Z.abs x < 2 ^ 53) by nia.
    unfold of_unsigned, dsub.
    rewrite (binary64_integer _ x Hx)
      by (unfold x, Zminus; rewrite inject_Z_plus, inject_Z_opp; reflexivity).
    unfold dsquare, dmul.
    rewrite (binary64_integer _ (x * x) Hxx)
      by (rewrite inject_Z_mult; reflexivity).
    unfold dadd.
    rewrite (binary64_integer _ (a + x * x))
      by (try (rewrite inject_Z_plus; reflexivity); nia).
    rewrite IH by (auto; nia). f_equal. f_equal. lia.
Qed.

(** What [standard_deviation] computes while nothing rounds but the final
    division. *)
Lemma standard_deviation_sum (st : TimestampDiff) (m begin : Z) :
  wf st -> 0 <= begin <= _nd st ->
  let r := skipn (Z.to_nat begin) (samples st) in
  Z.abs m < 2 ^ 53 -> squared_sum m r < 2 ^ 53 ->
  exists q,
    standard_deviation st (Fin (inject_Z m)) begin = Some (Sqrt (Fin q)) /\
    q = round64 (inject_Z (squared_sum m r) / inject_Z (_nd st)) /\
    (0 <= q)%Q /\
    (0 < _nd st -> ((q == 0)%Q <-> Forall (fun d => delay d = m) r)).
Proof.
  intros Hwf Hb r Hm Hsum. pose proof Hwf as [[Hn Hn32] Hv].
  unfold standard_deviation.
  rewrite for_each_index_elements
    with (f := fun d var =>
                 dadd var (dsquare (dsub (of_unsigned (delay d)) (Fin (inject_Z m)))))
    by lia.
  rewrite firstn_skipn_samples by lia. fold r.
  change (Fin 0) with (Fin (inject_Z 0)).
  rewrite (deviations_loop m r 0) by (auto; lia). rewrite Z.add_0_l.
  pose proof (squared_sum_nonneg m r) as Hnonneg.
  set (S := squared_sum m r) in *.
  cbn [dis_zero]. destruct (Qeq_bool (inject_Z S) 0) eqn:Hz.
  - apply Qeq_bool_iff in Hz. change 0%Q with (inject_Z 0) in Hz.
    rewrite inject_Z_injective in Hz.
    exists 0%Q. split; [reflexivity|]. split; [|split].
    + symmetry. apply round64_0. rewrite Hz. unfold Qdiv. ring.
    + apply Qle_refl.
    + intros _. split; [intros _; now apply squared_sum_zero|reflexivity].
  - apply Qeq_bool_neq in Hz.
    assert (HS : 0 < S).
    { destruct (Z.eq_dec S 0) as [E|E]; [|lia]. exfalso. apply Hz. now rewrite E. }
    assert (Hnd : 0 < _nd st).
    { destruct (Z.eq_dec (_nd st) 0) as [E|E]; [|lia]. exfalso.
      assert (Er : r = []).
      { unfold r, samples. rewrite E. cbn. now rewrite skipn_nil. }
      unfold S in HS. rewrite Er in HS. cbn in HS. lia. }
    assert (Hpos : (0 < inject_Z (_nd st))%Q).
    { change 0%Q with (inject_Z 0). now rewrite <- Zlt_Qlt. }
    assert (HSq : (1 <= inject_Z S)%Q).
    { change 1%Q with (inject_Z 1). rewrite <- Zle_Qle. lia. }
    assert (Hnq : (1 <= inject_Z (_nd st))%Q).
    { change 1%Q with (inject_Z 1). rewrite <- Zle_Qle. lia. }
    set (x := (inject_Z S / inject_Z (_nd st))%Q).
    assert (Hx : (inject_Z 0 <= x <= inject_Z S)%Q).
    { change (inject_Z 0) with 0%Q. unfold x. split.
      - apply Qle_shift_div_l; [exact Hpos|]. lra.
      - apply Qle_shift_div_r; [exact Hpos|]. nra. }
    destruct (binary64_between x 0 S ltac:(lia) Hsum Hx) as [Eb [B0 _]].
    exists (round64 x).
    unfold ddiv_unsigned, ddiv, of_unsigned.
    destruct (Qeq_bool (inject_Z (_nd st)) 0) eqn:C;
      [apply Qeq_bool_iff in C; lra|].
    fold x. rewrite Eb. split; [reflexivity|]. split; [reflexivity|].
    split; [exact B0|]. intros _.
    assert (Hlow : (pow2 (-32) <= round64 x)%Q).
    { apply round64_ge_exact.
      - apply Qlt_le_weak, pow2_pos.
      - unfold x. apply Qle_shift_div_l; [exact Hpos|].
        assert (inject_Z (_nd st) < inject_Z (2 ^ 32))%Q
          by (rewrite <- Zlt_Qlt; exact Hn32).
        change (pow2 (-32)) with (1 # 4294967296)%Q.
        change (inject_Z (2 ^ 32)) with 4294967296%Q in H. lra.
      - apply (round64_exact _ 1 (-32)); [lia|lia|ring]. }
    pose proof (pow2_pos (-32)) as P.
    split.
    + intros E0. lra.
    + intros Hall. apply squared_sum_zero in Hall. fold S in Hall. lia.
Qed.

(** X10.  For a whole-number mean [m] and a range whose sum of squared
    deviations from [m] is below 2^53, so that nothing rounds but the final
    division, [standard_deviation(m, begin)] returns the square root of the
    sum of the squared deviations of the delays of [begin, _nd) from [m]
    divided by the full length [_nd] of the store (not by the length of the
    range), the quotient rounded to the nearest double; the value under the
    root is never negative, and on a store with samples it is 0 exactly when
    every delay of the range equals [m]. *)
Theorem standard_deviation_radicand (st : TimestampDiff) (m begin : Z) :
  wf st -> 0 <= begin <= _nd st ->
  let r := skipn (Z.to_nat begin) (samples st) in
  Z.abs m < 2 ^ 53 -> squared_sum m r < 2 ^ 53 ->
  exists q,
    standard_deviation st (Fin (inject_Z m)) begin = Some (Sqrt (Fin q)) /\
    q = round64 (inject_Z (squared_sum m r) / inject_Z (_nd st)) /\
    (0 <= q)%Q /\
    (0 < _nd st -> ((q == 0)%Q <-> Forall (fun d => delay d = m) r)).
Proof. exact (standard_deviation_sum st m begin). Qed.

Lemma standard_deviation_radicand_witness :
  exists q,
    standard_deviation five_samples (Fin (inject_Z 30)) 0 = Some (Sqrt (Fin q)) /\
    q = 200%Q.
Proof.
  destruct (standard_deviation_radicand five_samples 30 0 five_samples_wf
              ltac:(cbn; lia) ltac:(vm_compute; reflexivity)
              ltac:(vm_compute; reflexivity)) as [q [E [Hq _]]].
  exists q. split; [exact E|]. rewrite Hq. vm_compute. reflexivity.
Defined.

(* ================================================================= *)
(** ** The last value and the current index *)

Lemma to_int32_of_index (z : Z) :
  -1 <= z < 2 ^ 32 ->
  to_int32 (to_uint32 z) = if z <? 2 ^ 31 then z else z - 2 ^ 32.
Proof.
  intros Hz. unfold to_int32, to_uint32.
  rewrite Zplus_mod_idemp_l.
  destruct (Z.ltb_spec z (2 ^ 31)).
  - rewrite Z.mod_small; lia.
  - replace (z + 2 ^ 31) with (z - 2 ^ 31 + 1 * 2 ^ 32) by lia.
    rewrite Z.mod_add by lia. rewrite Z.mod_small; lia.
Qed.

(** X11.  [last_value_seen] returns 0 on a store without samples and the
    delay of the newest sample on a store of up to 2^31 samples; the [index]
    handler answers the index of that sample, -1 on a store without samples.
    Past 2^31 samples the index, an [int32_t], is negative, and
    [last_value_seen] returns 0 again. *)
Theorem last_value_seen_answer {NE : NthElement} (st : TimestampDiff) :
  wf st ->
  (_nd st = 0 ->
     last_value_seen st = Some 0 /\
     handler TSD_CURRENT_INDEX None st = Some (0, ReplyInt (-1), st)) /\
  (0 < _nd st <= 2 ^ 31 ->
     (exists d, nth_error (samples st) (Z.to_nat (_nd st - 1)) = Some d /\
                last_value_seen st = Some (delay d)) /\
     handler TSD_CURRENT_INDEX None st = Some (0, ReplyInt (_nd st - 1), st)) /\
  (2 ^ 31 < _nd st ->
     last_value_seen st = Some 0 /\
     handler TSD_CURRENT_INDEX None st =
       Some (0, ReplyInt (_nd st - 1 - 2 ^ 32), st) /\
     _nd st - 1 - 2 ^ 32 < 0).
Proof.
  intros [[Hn0 Hn1] Hv].
  pose proof (to_int32_of_index (_nd st - 1) ltac:(lia)) as Hcast.
  unfold last_value_seen, handler. cbn [option_map]. rewrite Hcast.
  split; [|split].
  - intros E. rewrite E. split; reflexivity.
  - intros Hnd. destruct (Z.ltb_spec (_nd st - 1) (2 ^ 31)); [|lia].
    destruct (Z.ltb_spec (_nd st - 1) 0); [lia|]. split; [|reflexivity].
    destruct (at_index_Some (_delays st) (_nd st - 1)) as [d Hd]; [lia|].
    exists d. rewrite Hd. split; [|reflexivity].
    rewrite at_index_nth_error in Hd by lia. unfold samples.
    rewrite nth_error_firstn.
    destruct (Nat.ltb_spec (Z.to_nat (_nd st - 1)) (Z.to_nat (_nd st))); [exact Hd|lia].
  - intros Hnd. destruct (Z.ltb_spec (_nd st - 1) (2 ^ 31)); [lia|].
    destruct (Z.ltb_spec (_nd st - 1 - 2 ^ 32) 0); [|lia]. repeat split. lia.
Qed.

Lemma last_value_seen_answer_witness :
  last_value_seen five_samples = Some 40 /\
  handler TSD_CURRENT_INDEX None five_samples = Some (0, ReplyInt 4, five_samples).
Proof.
  destruct (last_value_seen_answer five_samples five_samples_wf) as [_ [H _]].
  destruct (H ltac:(cbn; lia)) as [[d [Hd E]] Hi].
  split; [|exact Hi]. rewrite E. vm_compute in Hd. inversion Hd; subst. reflexivity.
Defined.

(* ================================================================= *)
(** ** Handlers on a store without samples *)

(** X12.  On a store without samples every handler called with an empty
    text answers its zero: 0 for [min], [max], the means, the standard
    deviation, every percentile and [last], -1 for [index], the empty text
    for the dumps.  Called with a text, [perc] and [avg_tc] return -1 with
    [data = "<error>"] when their leading token is rejected; in every other
    case the handler returns 1 with [data = 0], any begin index being past
    the end. *)
Theorem empty_store_answers {NE : NthElement} (st : TimestampDiff)
    (opt : Operation) :
  _nd st = 0 ->
  handler opt None st = Some (0, empty_reply opt, st) /\
  forall p,
    handler opt (Some p) st =
    if rejected opt p then Some (-1, ReplyText "<error>", st)
    else Some (1, ReplyZero, st).
Proof.
  intros E. split.
  - unfold handler, min_mean_max, standard_deviation, percentile, last_value_seen.
    rewrite E. destruct opt; reflexivity.
  - intros p. unfold handler, rejected. rewrite E.
    assert (Hge : (to_uint32 (param_begin p) >=? 0) = true).
    { unfold to_uint32.
      pose proof (Z.mod_pos_bound (param_begin p) (2 ^ 32) ltac:(lia)).
      destruct (Z.geb_spec (param_begin p mod 2 ^ 32) 0); [reflexivity|lia]. }
    destruct opt; cbn [option_map]; rewrite ?Hge; auto;
      [destruct (param_tc p)|destruct (param_perc p)]; cbn [option_map];
      rewrite ?Hge; auto.
Qed.

Lemma empty_store_answers_witness :
  handler TSD_MED_HANDLER None element_sampling_3 =
    Some (0, ReplyDouble (Fin 0), element_sampling_3) /\
  handler TSD_CURRENT_INDEX None element_sampling_3 =
    Some (0, ReplyInt (-1), element_sampling_3) /\
  handler TSD_PERC_HANDLER (Some (mkParam None None 0)) element_sampling_3 =
    Some (-1, ReplyText "<error>", element_sampling_3) /\
  handler TSD_MIN_HANDLER (Some (mkParam None None 0)) element_sampling_3 =
    Some (1, ReplyZero, element_sampling_3).
Proof.
  split; [|split; [|split]].
  - exact (proj1 (empty_store_answers element_sampling_3 TSD_MED_HANDLER eq_refl)).
  - exact (proj1 (empty_store_answers element_sampling_3 TSD_CURRENT_INDEX eq_refl)).
  - exact (proj2 (empty_store_answers element_sampling_3 TSD_PERC_HANDLER eq_refl)
             (mkParam None None 0)).
  - exact (proj2 (empty_store_answers element_sampling_3 TSD_MIN_HANDLER eq_refl)
             (mkParam None None 0)).
Defined.

(* ================================================================= *)
(** ** Every handler on a well-formed store *)

Lemma read_only_refl (st : TimestampDiff) : read_only st st.
Proof. unfold read_only. repeat split; auto. now destruct st. Qed.

Lemma percentile_read_only {NE : NthElement} (st : TimestampDiff) (p : Q)
    (begin : Z) :
  wf st -> is_uint32 begin -> (0 <= p <= 100)%Q ->
  exists result st', percentile st p begin = Some (result, st') /\ read_only st st'.
Proof.
  intros Hwf Hb Hp.
  assert (Hdef : exists result st', percentile st p begin = Some (result, st')).
  { destruct (Z.le_gt_cases (_nd st) begin) as [Hempty|Hsome].
    { eexists _, _. now apply percentile_empty. }
    destruct (percentile_sorted st p begin Hwf Hb Hp Hsome) as [m [st' [E _]]].
    eauto. }
  destruct Hdef as [result [st' E]]. exists result, st'. split; [exact E|].
  destruct (percentile_effect st st' p begin result Hwf Hb Hp E)
    as [->|[Hsome [r' [Hperm ->]]]]; [apply read_only_refl|].
  destruct Hb as [Hb0 _]. pose proof Hwf as [[Hn0 _] Hlen].
  destruct (splice_samples st begin r' Hwf ltac:(lia) Hperm) as [_ Hs].
  assert (Hr : length r' = Z.to_nat (_nd st - begin)).
  { rewrite <- (Permutation_length Hperm). apply length_tail_samples; [assumption|lia]. }
  unfold read_only. cbn [set_delays _delays]. split; [reflexivity|]. split.
  - apply splice_length; lia.
  - rewrite Hs. rewrite <- (firstn_skipn (Z.to_nat begin) (samples st)) at 1.
    now apply Permutation_app_head.
Qed.

Lemma standard_deviation_defined (st : TimestampDiff) :
  wf st -> exists r, standard_deviation st (Fin 0) 0 = Some r.
Proof.
  intros Hwf. pose proof Hwf as [[Hn _] _].
  apply standard_deviation_returns; [exact Hwf|lia].
Qed.

Lemma last_value_seen_defined (st : TimestampDiff) :
  wf st -> exists r, last_value_seen st = Some r.
Proof.
  intros [[Hn0 Hn1] Hv]. unfold last_value_seen.
  rewrite (to_int32_of_index (_nd st - 1)) by lia.
  destruct (Z.ltb_spec (_nd st - 1) (2 ^ 31)).
  - destruct (Z.ltb_spec (_nd st - 1) 0); [eauto|].
    destruct (at_index_Some (_delays st) (_nd st - 1)) as [d ->]; [lia|]. cbn. eauto.
  - destruct (Z.ltb_spec (_nd st - 1 - 2 ^ 32) 0); [eauto|lia].
Qed.

(** X13.  On a well-formed store every read handler returns, whatever its
    text, without reading outside the vector; it returns 0, 1 or -1; and it
    leaves the element as it was up to the order of the samples: the counter,
    the configuration, the size of the vector and the multiset of visible
    samples are kept.  For [perc] the percentile of the text is taken in
    [0, 100]. *)
Theorem handler_reads_only {NE : NthElement} (opt : Operation)
    (param : option Param) (st : TimestampDiff) :
  wf st ->
  (forall p v, param = Some p -> opt = TSD_PERC_HANDLER ->
               param_perc p = Some v -> (0 <= v <= 100)%Q) ->
  exists code reply st',
    handler opt param st = Some (code, reply, st') /\
    (code = 0 \/ code = 1 \/ code = -1) /\
    read_only st st'.
Proof.
  intros Hwf Hperc. pose proof Hwf as [[Hn0 _] _].
  pose proof (begin_of_uint32 param) as Hb.
  unfold handler. fold (begin_of param).
  set (leading := match param, opt with
                  | Some p, TSD_PERC_HANDLER =>
                      option_map (fun perc => (perc, -1)) (param_perc p)
                  | Some p, TSD_AVG_TC_HANDLER =>
                      option_map (fun tc => (0%Q, tc)) (param_tc p)
                  | _, _ => Some (0%Q, -1)
                  end).
  assert (Hlead : forall perc tc, leading = Some (perc, tc) ->
                    opt = TSD_PERC_HANDLER -> (0 <= perc <= 100)%Q).
  { intros perc tc Hl ->. unfold leading in Hl. destruct param as [p|].
    - destruct (param_perc p) as [v|] eqn:Hv; [|discriminate].
      inversion Hl; subst. exact (Hperc p perc eq_refl eq_refl Hv).
    - inversion Hl. exact percent_0. }
  destruct leading as [[perc tc]|].
  2:{ eexists _, _, _. split; [reflexivity|]. split; [auto|apply read_only_refl]. }
  specialize (Hlead perc tc eq_refl).
  set (out_of_range := match param with
                       | Some _ => begin_of param >=? _nd st
                       | None => false
                       end).
  destruct out_of_range eqn:Hout.
  { eexists _, _, _. split; [reflexivity|]. split; [auto|apply read_only_refl]. }
  assert (Hin : begin_of param <= _nd st).
  { unfold out_of_range in Hout. destruct param; [|cbn; lia].
    destruct (Z.geb_spec (begin_of (Some p)) (_nd st)); [discriminate|lia]. }
  assert (Hstat : forall (pick : Z * double * Z -> Reply) t,
    exists code reply st',
      option_map (fun r => (0, pick r, st))
        (min_mean_max st UINT_MAX (Fin 0) 0 (begin_of param) t) =
      Some (code, reply, st') /\
      (code = 0 \/ code = 1 \/ code = -1) /\ read_only st st').
  { intros pick t.
    destruct (min_mean_max_considered st (Fin 0) (begin_of param) t Hwf
                ltac:(destruct Hb; lia)) as [a [b [c [-> _]]]].
    eexists _, _, _. split; [reflexivity|]. split; [auto|apply read_only_refl]. }
  assert (Hpercentile : forall percent, (0 <= percent <= 100)%Q ->
    exists code reply st',
      option_map (fun r => (0, ReplyDouble (fst r), snd r))
        (percentile st percent (begin_of param)) = Some (code, reply, st') /\
      (code = 0 \/ code = 1 \/ code = -1) /\ read_only st st').
  { intros percent Hp.
    destruct (percentile_read_only st percent (begin_of param) Hwf Hb Hp)
      as [result [st' [-> Hro]]].
    eexists _, _, _. split; [reflexivity|]. split; [auto|exact Hro]. }
  destruct opt;
    try apply Hstat;
    try (apply Hpercentile; first [lra | now apply Hlead]).
  - destruct (standard_deviation_defined st Hwf) as [r ->].
    eexists _, _, _. split; [reflexivity|]. split; [auto|apply read_only_refl].
  - destruct (last_value_seen_defined st Hwf) as [r ->].
    eexists _, _, _. split; [reflexivity|]. split; [auto|apply read_only_refl].
  - eexists _, _, _. split; [reflexivity|]. split; [auto|apply read_only_refl].
  - destruct (dump_loop TSD_DUMP_HANDLER st Hwf) as [-> _].
    eexists _, _, _. split; [reflexivity|]. split; [auto|apply read_only_refl].
  - destruct (dump_loop TSD_DUMP_LIST_HANDLER st Hwf) as [-> _].
    eexists _, _, _. split; [reflexivity|]. split; [auto|apply read_only_refl].
Qed.

Lemma handler_reads_only_witness :
  exists code reply st',
    handler TSD_PERC_HANDLER (Some (mkParam (Some 90%Q) None 1)) five_samples =
      Some (code, reply, st') /\
    Permutation (samples five_samples) (samples st').
Proof.
  destruct (handler_reads_only TSD_PERC_HANDLER (Some (mkParam (Some 90%Q) None 1))
              five_samples five_samples_wf) as [code [reply [st' [E [_ [_ [_ Hp]]]]]]].
  - intros p v Hp _ Hv. inversion Hp; subst. cbn in Hv. inversion Hv; subst.
    unfold Qle; simpl; lia.
  - exists code, reply, st'. split; [exact E|exact Hp].
Defined.

(* ================================================================= *)
(** ** Percentiles are stored delays *)

(** X14.  On a range that is not empty, [percentile] answers a delay that
    is stored in the range, never a value computed between two samples, and
    that delay lies between the minimum and the maximum of the range. *)
Theorem percentile_returns_stored_delay {NE : NthElement} (st : TimestampDiff)
    (p : Q) (begin : Z) :
  wf st -> is_uint32 begin -> (0 <= p <= 100)%Q -> begin < _nd st ->
  exists m st',
    percentile st p begin = Some (of_unsigned m, st') /\
    In m (delays_from st begin) /\
    forall lo hi,
      is_minimum (delays_from st begin) lo ->
      is_maximum (delays_from st begin) hi -> lo <= m <= hi.
Proof.
  intros Hwf Hb Hp Hsome.
  destruct (percentile_sorted st p begin Hwf Hb Hp Hsome) as [m [st' [E Hm]]].
  exists m, st'. split; [exact E|].
  assert (Hin : In m (delays_from st begin)).
  { apply (Permutation_in _ (Permutation_sym (full_sort_permutation _))).
    eapply nth_error_In; eauto. }
  split; [exact Hin|].
  intros lo hi [_ Hlo] [_ Hhi]. split; auto.
Qed.

Lemma percentile_returns_stored_delay_witness :
  exists m st',
    percentile five_samples 60 0 = Some (of_unsigned m, st') /\
    In m [30; 10; 50; 20; 40].
Proof.
  destruct (percentile_returns_stored_delay five_samples 60 0 five_samples_wf
              ltac:(unfold is_uint32; lia) ltac:(unfold Qle; simpl; lia)
              ltac:(cbn; lia)) as [m [st' [E [Hin _]]]].
  exists m, st'. split; [exact E|exact Hin].
Defined.

(* ================================================================= *)
(** ** Dumps under ingestion *)

Lemma text_of_app (opt : Operation) (a b : list (Z * Delay)) :
  text_of opt (a ++ b) = (text_of opt a ++ text_of opt b)%string.
Proof.
  induction a as [|x a IH]; [reflexivity|].
  cbn [app text_of fold_right]. fold (text_of opt (a ++ b)). fold (text_of opt a).
  now rewrite IH, !append_assoc.
Qed.

Lemma combine_app_same_length {A B : Type} (a a' : list A) (l l' : list B) :
  length a = length l ->
  combine (a ++ a') (l ++ l') = combine a l ++ combine a' l'.
Proof.
  revert l; induction a as [|x a IH]; intros [|y l] H; cbn in *; try lia; auto.
  f_equal. apply IH. lia.
Qed.

Lemma indices_from (k : nat) :
  forall n, map Z.of_nat (seq n k) =
            map (fun i => Z.of_nat n + i) (map Z.of_nat (seq 0 k)).
Proof.
  induction k as [|k IH]; intros n; [reflexivity|].
  cbn [seq map]. f_equal; [lia|].
  rewrite IH, <- seq_shift, !map_map. apply map_ext. intros i. lia.
Qed.

Lemma indices_app (n k : nat) :
  indices (n + k) = indices n ++ map (fun i => Z.of_nat n + i) (indices k).
Proof.
  unfold indices. rewrite seq_app, map_app. f_equal. apply indices_from.
Qed.

(** X15.  A dump taken after [smaction] is the dump taken before it,
    followed by one line for the sample that was stored, if one was: earlier
    lines are never rewritten.  This holds for [dump] and for [dump_list]. *)
Theorem dump_grows_with_ingestion {NE : NthElement} (opt : Operation)
    (st st' : TimestampDiff) (now : Timestamp) (p : Packet) (port : Z)
    (log : list Chatter) :
  opt = TSD_DUMP_HANDLER \/ opt = TSD_DUMP_LIST_HANDLER ->
  mode_ok st -> _nd st + 1 < 2 ^ 32 ->
  smaction st now p = Some (port, st', log) ->
  exists text l,
    samples st' = samples st ++ l /\ (length l <= 1)%nat /\
    handler opt None st = Some (0, ReplyText text, st) /\
    handler opt None st' =
      Some (0, ReplyText (text ++ text_of opt (combine [_nd st] l)), st').
Proof.
  intros Hopt Hmode Hroom Hsm.
  destruct (smaction_append_only st st' now p port log Hmode Hroom Hsm)
    as [Hmode' [_ [l [Happ [Hlen _]]]]].
  pose proof (mode_ok_wf st Hmode) as Hwf. pose proof (mode_ok_wf st' Hmode') as Hwf'.
  destruct (dump_loop opt st Hwf) as [Hd Hn].
  destruct (dump_loop opt st' Hwf') as [Hd' _].
  exists (text_of opt (combine (indices (length (samples st))) (samples st))), l.
  split; [exact Happ|]. split; [exact Hlen|].
  assert (Htext : text_of opt (combine (indices (length (samples st'))) (samples st')) =
                  (text_of opt (combine (indices (length (samples st))) (samples st)) ++
                   text_of opt (combine [_nd st] l))%string).
  { rewrite Happ, length_app, indices_app.
    rewrite combine_app_same_length
      by (unfold indices; now rewrite length_map, length_seq).
    rewrite text_of_app. do 2 f_equal.
    pose proof (length_samples st Hwf) as Hl. rewrite Hl.
    destruct l as [|s [|s' l]]; [reflexivity| |cbn in Hlen; lia].
    cbn. replace (_nd st + 0) with (_nd st) by lia. reflexivity. }
  unfold handler; destruct Hopt as [-> | ->]; cbn [option_map];
    rewrite ?Hd, ?Hd', ?Htext; split; reflexivity.
Qed.

Lemma dump_grows_with_ingestion_witness :
  exists st' text,
    smaction element_sampling_3 5000 (packet_of 6) = Some (0, st', []) /\
    handler TSD_DUMP_HANDLER None element_sampling_3 =
      Some (0, ReplyText text, element_sampling_3) /\
    handler TSD_DUMP_HANDLER None st' =
      Some (0, ReplyText (text ++ "0: 5" ++ newline), st').
Proof.
  eexists _, _.
  assert (Hmode : mode_ok element_sampling_3).
  { unfold mode_ok, is_uint32; simpl. repeat split; lia. }
  assert (E : smaction element_sampling_3 5000 (packet_of 6) =
              Some (0, set_delays (set_nd element_sampling_3 1) [mkDelay 5 0], []))
    by (vm_compute; reflexivity).
  destruct (dump_grows_with_ingestion TSD_DUMP_HANDLER element_sampling_3 _ 5000
              (packet_of 6) 0 [] (or_introl eq_refl) Hmode
              ltac:(vm_compute; reflexivity) E) as [text [l [Hl [_ [H1 H2]]]]].
  split; [exact E|].
  assert (Ht : text = EmptyString).
  { vm_compute in H1. now inversion H1. }
  assert (Hs : l = [mkDelay 5 0]).
  { vm_compute in Hl. exact (eq_sym Hl). }
  subst text l. split; [reflexivity|]. rewrite H2. reflexivity.
Defined.

(* ================================================================= *)
(** ** One concurrent operation and the storing branch *)

(** X16.  The two steps of a concurrent ingestion operation are the storing
    branch of [smaction]: in Bounded mode, when [store_sample] turns the
    element [st] into [st'], an operation that is scheduled twice in a row on
    the counter and the vector of [st] ends written at the slot [_nd st],
    with the counter and the vector of [st']. *)
Theorem concurrent_operation_is_store_sample (st st' : TimestampDiff)
    (p : Packet) (usec tag : Z) (done more : list Concurrent.Thread) :
  _limit st <> 0 -> class_tag st p = Some tag ->
  store_sample st p usec = Some st' ->
  Concurrent.run
    (Concurrent.mkShared (_nd st) (_delays st),
     done ++ Concurrent.Ready (mkDelay usec tag) :: more)
    [length done; length done] =
  Some (Concurrent.mkShared (_nd st') (_delays st'),
        done ++ Concurrent.Written (_nd st) (mkDelay usec tag) :: more).
Proof.
  intros Hlimit Htag Hstore. unfold store_sample, fetch_and_add in Hstore.
  fold (class_tag st p) in Hstore. rewrite Htag in Hstore.
  destruct (Z.eqb_spec (_limit st) 0); [contradiction|]. cbn [negb] in Hstore.
  destruct (update (_delays st) (Z.to_nat (_nd st)) (mkDelay usec tag))
    as [v|] eqn:Hv; [|discriminate].
  inversion Hstore; subst st'; clear Hstore.
  cbn [set_delays set_nd _delays _nd Concurrent.run].
  unfold Concurrent.step at 1. cbn [fst snd]. rewrite nth_error_middle.
  cbn [Concurrent.step_thread fetch_and_add Concurrent.counter Concurrent.storage].
  rewrite update_app. cbn [option_map].
  unfold Concurrent.step. cbn [fst snd]. rewrite nth_error_middle.
  cbn [Concurrent.step_thread Concurrent.counter Concurrent.storage].
  rewrite Hv. cbn [option_map]. now rewrite update_app.
Qed.

Lemma concurrent_operation_is_store_sample_witness :
  exists st',
    store_sample bounded_element (packet_of 6) 5 = Some st' /\
    Concurrent.run
      (Concurrent.mkShared 0 (repeat (mkDelay 0 0) 2),
       [Concurrent.Ready (mkDelay 5 0)]) [0%nat; 0%nat] =
    Some (Concurrent.mkShared (_nd st') (_delays st'),
          [Concurrent.Written 0 (mkDelay 5 0)]).
Proof.
  eexists. split; [vm_compute; reflexivity|].
  exact (concurrent_operation_is_store_sample bounded_element _ (packet_of 6) 5 0
           [] [] ltac:(vm_compute; discriminate) eq_refl eq_refl).
Defined.
